(** * Rubik's cube terminal screen saver: the rendering core of [main.cpp]

    A shallow embedding of the software rendering pipeline of
    [src/main.cpp]: vector normalisation, rotation and perspective
    projection, the depth-tested write [updateBuffers], the three face
    rasterisers, the frame compositor [renderFrame] with its diff-emit
    pass, and the resize handler [updateDim].

    Numbers are modelled as the code has them.  A C++ [float] is an
    IEEE-754 binary32 value and a [double] a binary64 value, both taken
    from the Standard Library's executable specification [SpecFloat]
    (round to nearest, ties to even; no fused multiply-add, which the
    x86-64 baseline does not have).  An [int] is an integer in [Z] with
    the 32-bit two's-complement wrap-around written out. *)

From Stdlib Require Import ZArith Lia Bool Ascii String.
From Stdlib Require Import SpecFloat.
From Stdlib Require Import Reals Lra.
From stdpp Require Import base list strings.

Open Scope Z_scope.

(** ** Machine numbers *)

Module F32.
(** binary32: 24 bits of mantissa, infinities at exponent 128. *)
Definition prec : Z := 24.
Definition emax : Z := 128.

Definition float : Type := spec_float.

Definition add : float -> float -> float := SFadd prec emax.
Definition sub : float -> float -> float := SFsub prec emax.
Definition mul : float -> float -> float := SFmul prec emax.
Definition div : float -> float -> float := SFdiv prec emax.
Definition sqrt : float -> float := SFsqrt prec emax.
Definition opp : float -> float := SFopp.

(** [a < b], [a <= b] and [a == b] of C++; all false on a NaN. *)
Definition ltb : float -> float -> bool := SFltb.
Definition leb : float -> float -> bool := SFleb.
Definition eqb : float -> float -> bool := SFeqb.
(** [a > b] is [b < a]. *)
Definition gtb (a b : float) : bool := SFltb b a.

(** Conversion of an [int] to [float] (exact below 2^24, rounded above). *)
Definition of_int (n : Z) : float := binary_normalize prec emax n 0 false.

(** The value of a decimal literal [n/d] with the suffix [f], for [n] and
    [d] exactly representable: the correctly rounded quotient. *)
Definition lit (n d : Z) : float := div (of_int n) (of_int d).

Definition zero : float := S754_zero false.
End F32.

Module F64.
(** binary64, used where the source computes in [double]. *)
Definition prec : Z := 53.
Definition emax : Z := 1024.

Definition double : Type := spec_float.

Definition mul : double -> double -> double := SFmul prec emax.
Definition div : double -> double -> double := SFdiv prec emax.
Definition sqrt : double -> double := SFsqrt prec emax.
Definition of_int (n : Z) : double := binary_normalize prec emax n 0 false.

(** Widening a [float] to [double] keeps the value; the mantissa is
    re-aligned to 53 bits. *)
Definition of_float (f : F32.float) : double :=
  match f with
  | S754_finite s m e => binary_round prec emax s m e
  | _ => f
  end.

(** Narrowing a [double] to [float] rounds to nearest. *)
Definition to_float (d : double) : F32.float :=
  match d with
  | S754_finite s m e => binary_round F32.prec F32.emax s m e
  | _ => d
  end.
End F64.

Abbreviation float := F32.float.

Declare Scope f32_scope.
Delimit Scope f32_scope with f32.
Bind Scope f32_scope with F32.float.
Infix "+" := F32.add : f32_scope.
Infix "-" := F32.sub : f32_scope.
Infix "*" := F32.mul : f32_scope.
Infix "/" := F32.div : f32_scope.
Notation "- x" := (F32.opp x) : f32_scope.
Infix "<?" := F32.ltb : f32_scope.
Infix "<=?" := F32.leb : f32_scope.
Infix ">?" := F32.gtb : f32_scope.

Module Int.
(** [int]: 32-bit two's complement. *)
Definition min_signed : Z := - 2 ^ 31.
Definition max_signed : Z := 2 ^ 31 - 1.

Definition in_range (z : Z) : bool := (min_signed <=? z) && (z <=? max_signed).

(** Wrap-around of [int] arithmetic as the hardware performs it. *)
Definition wrap (z : Z) : Z := (z + 2 ^ 31) mod 2 ^ 32 - 2 ^ 31.

Definition add (a b : Z) : Z := wrap (a + b).
Definition mul (a b : Z) : Z := wrap (a * b).
(** C++ division and remainder truncate toward zero. *)
Definition div (a b : Z) : Z := Z.quot a b.
Definition rem (a b : Z) : Z := Z.rem a b.

(** The integer part of a finite float, toward zero. *)
Definition trunc (f : float) : Z :=
  match f with
  | S754_finite s m e =>
      let a := if 0 <=? e then Zpos m * 2 ^ e else Z.quot (Zpos m) (2 ^ (- e)) in
      if s then - a else a
  | _ => 0
  end.

(** [static_cast<int>(f)].  The conversion is only defined by C++ when
    the truncated value fits an [int]; outside (and on infinities and
    NaN) the model returns what the x86-64 conversion instruction
    returns, the "integer indefinite" value [INT_MIN]. *)
Definition of_float (f : float) : Z :=
  match f with
  | S754_zero _ => 0
  | S754_finite _ _ _ => if in_range (trunc f) then trunc f else min_signed
  | _ => min_signed
  end.
End Int.

(** ** Data model *)

(** [struct Vector3f]. *)
Record Vector3f := mkVector3f { vx : float; vy : float; vz : float }.

Record Dim2i := mkDim2i { dim_w : Z; dim_h : Z }.

(** [trigValues], a [std::vector<float>] of six entries
    [{sinA, cosA, sinB, cosB, sinC, cosC}]. *)
Record TrigCache := mkTrig {
  sinA : float; cosA : float;
  sinB : float; cosB : float;
  sinC : float; cosC : float
}.

(** A colour is a [std::string_view] on one of the escape sequences of
    [ANSI_escape_code::color]; views are compared by content. *)
Definition color : Type := string.

Definition ESC : ascii := Ascii.ascii_of_nat 27.

Module ANSI_escape_code.
Definition SET_CURSOR_HOME : string := String ESC "[H".
Definition ERASE_SCREEN : string := String ESC "[2J".

Module color.
Definition RED : color := String ESC "[31m".
Definition GREEN : color := String ESC "[32m".
Definition YELLOW : color := String ESC "[33m".
Definition BLUE : color := String ESC "[34m".
Definition WHITE : color := String ESC "[37m".
Definition BLACK : color := String ESC "[30m".
Definition RESET : color := String ESC "[0m".
Definition BOLD_RED : color := String ESC "[1;31m".
End color.
End ANSI_escape_code.

(** The three vectors [updateBuffers] writes to.  They have the same
    length in every state the program builds ([resizeBuffers]). *)
Record FrameBufs := mkBufs {
  buffer : list ascii;
  zbuffer : list float;
  cbuffer : list color
}.

(** The global variables the rendering functions read. *)
Record Globals := mkGlobals {
  WIDTH : Z;
  HEIGHT : Z;
  SPACING : float;
  K1 : float;
  rotatedLightSource : Vector3f
}.

Definition CUBE_SIZE : float := F32.of_int 1.
Definition GRID_SPACING : float := F32.lit 4 100.
Definition GRID_LINE_COLOR : color := ANSI_escape_code.color.BLACK.
Definition K2 : float := F32.of_int 10.

(** [(WIDTH * K2 * 3) / (8 * (sqrt(3)*CUBE_SIZE))]: the numerator is a
    [float] product, [sqrt(3)] is the [double] square root, so the
    denominator and the quotient are [double]; the assignment to the
    [float] variable [K1] narrows. *)
Definition computeK1 (width : Z) : float :=
  let num := (F32.of_int width * K2 * F32.of_int 3)%f32 in
  let den := F64.mul (F64.of_int 8)
               (F64.mul (F64.sqrt (F64.of_int 3)) (F64.of_float CUBE_SIZE)) in
  F64.to_float (F64.div (F64.of_float num) den).

(** [3.0f / WIDTH] *)
Definition computeSPACING (width : Z) : float :=
  (F32.of_int 3 / F32.of_int width)%f32.

#[global] Instance float_inhabited : Inhabited float := populate F32.zero.
#[global] Instance ascii_inhabited : Inhabited ascii := populate " "%char.
#[global] Instance color_inhabited : Inhabited color := populate EmptyString.
#[global] Instance color_eq_dec : EqDecision color := String.string_dec.

(** ** Vector math *)

(** On [float] the square root is the [float] overload; computing it in
    [double] and narrowing gives the same correctly rounded result. *)
Definition getVectorMag (vec : Vector3f) : float :=
  let x := vx vec in
  let y := vy vec in
  let z := vz vec in
  F32.sqrt (x * x + y * y + z * z)%f32.

(** The reciprocal [oomag] is computed before the guard; with IEEE
    arithmetic [1 / 0] is an infinity and raises nothing.  The components
    are only touched under the guard. *)
Definition normVector (vec : Vector3f) : Vector3f :=
  let x := vx vec in
  let y := vy vec in
  let z := vz vec in
  let mag := getVectorMag vec in
  let oomag := (F32.of_int 1 / mag)%f32 in
  if (mag >? F32.of_int 0)%f32 then mkVector3f (x * oomag)%f32 (y * oomag)%f32 (z * oomag)%f32
  else vec.

(** The fused rotation matrix applied to a vector, as the source writes it
    for the face normals and the light source (the translation by [K2] is
    only added for points, in [updateBuffers]). *)
Definition rotate (t : TrigCache) (v : Vector3f) : Vector3f :=
  let sinA := sinA t in let cosA := cosA t in
  let sinB := sinB t in let cosB := cosB t in
  let sinC := sinC t in let cosC := cosC t in
  mkVector3f
    (cosA*cosB*vx v + (cosA*sinB*sinC - sinA*cosC)*vy v + (cosA*sinB*cosC + sinA*sinC)*vz v)%f32
    (sinA*cosB*vx v + (sinA*sinB*sinC + cosA*cosC)*vy v + (sinA*sinB*cosC - cosA*sinC)*vz v)%f32
    (- vx v * sinB + vy v * cosB * sinC + vz v * cosB * cosC)%f32.

Definition dot (a b : Vector3f) : float :=
  (vx a * vx b + vy a * vy b + vz a * vz b)%f32.

(** ** The depth-tested write *)

(** The glyph ramp, faintest first.  The literal has twelve glyphs and a
    terminating NUL at index 12; a read at any other index is undefined in
    C++, and the model returns NUL there too. *)
Definition ramp : string := ".,-~:;=!*#$@".

Definition NUL : ascii := Ascii.zero.

Definition ramp_at (n : Z) : ascii :=
  if n <? 0 then NUL
  else match String.get (Z.to_nat n) ramp with
       | Some c => c
       | None => NUL
       end.

(** The screen cell and the inverse depth of a model-space point, lines
    173 to 186 of the source. *)
Record Projected := mkProjected { p_ooz : float; p_xp : Z; p_yp : Z; p_index : Z }.

Definition project (g : Globals) (i j k : float) (trigValues : TrigCache) : Projected :=
  let sinA := sinA trigValues in let cosA := cosA trigValues in
  let sinB := sinB trigValues in let cosB := cosB trigValues in
  let sinC := sinC trigValues in let cosC := cosC trigValues in
  let x := (cosA*cosB*j + (cosA*sinB*sinC - sinA*cosC)*i + (cosA*sinB*cosC + sinA*sinC)*k)%f32 in
  let y := (sinA*cosB*j + (sinA*sinB*sinC + cosA*cosC)*i + (sinA*sinB*cosC - cosA*sinC)*k)%f32 in
  let z := (- j * sinB + i*cosB*sinC + k*cosB*cosC + K2)%f32 in
  let ooz := (F32.of_int 1 / z)%f32 in
  let xp := Int.of_float (F32.of_int (Int.div (WIDTH g) 2) + K1 g * ooz * x)%f32 in
  let yp := Int.of_float (F32.of_int (Int.div (HEIGHT g) 2) - K1 g * ooz * y)%f32 in
  let index := Int.add xp (Int.mul yp (WIDTH g)) in
  mkProjected ooz xp yp index.

(** [luminance > 0 ? luminance_index : 0] with
    [int luminance_index = luminance * 11]. *)
Definition glyph_index (luminance : float) : Z :=
  let luminance_index := Int.of_float (luminance * F32.of_int 11)%f32 in
  if (luminance >? F32.zero)%f32 then luminance_index else 0.

Definition updateBuffers (g : Globals) (i j k : float) (trigValues : TrigCache)
    (b : FrameBufs) (color : color) (luminance : float) : FrameBufs :=
  let p := project g i j k trigValues in
  let ooz := p_ooz p in
  let index := p_index p in
  let indexLimit := Z.of_nat (length (buffer b)) in
  if (0 <=? index) && (index <? indexLimit) then
    let n := Z.to_nat index in
    if (ooz >? zbuffer b !!! n)%f32 then
      mkBufs (<[n := ramp_at (glyph_index luminance)]> (buffer b))
             (<[n := ooz]> (zbuffer b))
             (<[n := color]> (cbuffer b))
    else b
  else b.

(** ** The surface rasteriser *)

(** The band tests of the rasterisers.  [-CUBE_SIZE/2 + CUBE_SIZE/3] and
    [CUBE_SIZE/2 - CUBE_SIZE/3] are the two band centres. *)
Definition band_center_lo : float := (- CUBE_SIZE / F32.of_int 2 + CUBE_SIZE / F32.of_int 3)%f32.
Definition band_center_hi : float := (CUBE_SIZE / F32.of_int 2 - CUBE_SIZE / F32.of_int 3)%f32.

(** The [if / else if] chain at the head of each inner loop body, for the
    outer loop variable [u] and the inner loop variable [v]: [(i, j)] in
    [renderCubeAxis_A], [(j, k)] in [renderCubeAxis_B] and [(k, i)] in
    [renderCubeAxis_C].  It returns [(charColor1, charColor2)]. *)
Definition charColors (u v : float) (color1 color2 : color) : color * color :=
  if ((u >? band_center_lo - GRID_SPACING) && (u <? band_center_lo + GRID_SPACING))%f32
  then (GRID_LINE_COLOR, GRID_LINE_COLOR)
  else if ((u >? band_center_hi - GRID_SPACING) && (u <? band_center_hi + GRID_SPACING))%f32
  then (GRID_LINE_COLOR, GRID_LINE_COLOR)
  else if ((v >? band_center_lo - GRID_SPACING) && (v <? band_center_lo + GRID_SPACING))%f32
  then (GRID_LINE_COLOR, GRID_LINE_COLOR)
  else if ((v >? band_center_hi - GRID_SPACING) && (v <? band_center_hi + GRID_SPACING))%f32
  then (GRID_LINE_COLOR, GRID_LINE_COLOR)
  else (color1, color2).

(** [for (float v = -CUBE_SIZE/2; v <= CUBE_SIZE/2; v += SPACING) body].
    The loop counts in floating point, so the model bounds the number of
    iterations by [fuel] and answers [None] when the bound is reached
    before the loop condition fails. *)
Fixpoint sweep_from {S : Type} (fuel : nat) (spacing : float) (v : float)
    (body : float -> S -> option S) (s : S) : option S :=
  match fuel with
  | O => None
  | Datatypes.S fuel' =>
      if (v <=? CUBE_SIZE / F32.of_int 2)%f32 then
        match body v s with
        | Some s' => sweep_from fuel' spacing (v + spacing)%f32 body s'
        | None => None
        end
      else Some s
  end.

Definition sweep {S : Type} (fuel : nat) (spacing : float)
    (body : float -> S -> option S) (s : S) : option S :=
  sweep_from fuel spacing (- CUBE_SIZE / F32.of_int 2)%f32 body s.

(** The luminance of a face: its rotated, normalised normal against the
    rotated light. *)
Definition luminance_of (g : Globals) (trigValues : TrigCache) (surfaceNormal : Vector3f) : float :=
  dot (normVector (rotate trigValues surfaceNormal)) (rotatedLightSource g).

(** The body of the inner loop of [renderCubeAxis_A] at the point [(i, j)]. *)
Definition pointA (g : Globals) (trigValues : TrigCache) (color1 color2 : color)
    (luminance_front luminance_back : float) (i j : float) (b : FrameBufs) : FrameBufs :=
  let k := (CUBE_SIZE / F32.of_int 2)%f32 in
  let '(charColor1, charColor2) := charColors i j color1 color2 in
  let b := updateBuffers g i j k trigValues b charColor1 luminance_front in
  updateBuffers g i j (- k)%f32 trigValues b charColor2 luminance_back.

Definition renderCubeAxis_A (fuel : nat) (g : Globals) (trigValues : TrigCache)
    (b : FrameBufs) (color1 color2 : color) : option FrameBufs :=
  let surfaceNormal_front := mkVector3f F32.zero F32.zero CUBE_SIZE in
  let surfaceNormal_back := mkVector3f F32.zero F32.zero (- CUBE_SIZE)%f32 in
  let luminance_front := luminance_of g trigValues surfaceNormal_front in
  let luminance_back := luminance_of g trigValues surfaceNormal_back in
  sweep fuel (SPACING g) (fun i =>
    sweep fuel (SPACING g) (fun j b =>
      Some (pointA g trigValues color1 color2 luminance_front luminance_back i j b))) b.

(** The body of the inner loop of [renderCubeAxis_B] at the point [(j, k)]. *)
Definition pointB (g : Globals) (trigValues : TrigCache) (color1 color2 : color)
    (luminance_front luminance_back : float) (j k : float) (b : FrameBufs) : FrameBufs :=
  let i := (CUBE_SIZE / F32.of_int 2)%f32 in
  let '(charColor1, charColor2) := charColors j k color1 color2 in
  let b := updateBuffers g i j k trigValues b charColor1 luminance_front in
  updateBuffers g (- i)%f32 j k trigValues b charColor2 luminance_back.

Definition renderCubeAxis_B (fuel : nat) (g : Globals) (trigValues : TrigCache)
    (b : FrameBufs) (color1 color2 : color) : option FrameBufs :=
  let surfaceNormal_front := mkVector3f F32.zero CUBE_SIZE F32.zero in
  let surfaceNormal_back := mkVector3f F32.zero (- CUBE_SIZE)%f32 F32.zero in
  let luminance_front := luminance_of g trigValues surfaceNormal_front in
  let luminance_back := luminance_of g trigValues surfaceNormal_back in
  sweep fuel (SPACING g) (fun j =>
    sweep fuel (SPACING g) (fun k b =>
      Some (pointB g trigValues color1 color2 luminance_front luminance_back j k b))) b.

(** The body of the inner loop of [renderCubeAxis_C] at the point [(k, i)]. *)
Definition pointC (g : Globals) (trigValues : TrigCache) (color1 color2 : color)
    (luminance_front luminance_back : float) (k i : float) (b : FrameBufs) : FrameBufs :=
  let j := (CUBE_SIZE / F32.of_int 2)%f32 in
  let '(charColor1, charColor2) := charColors k i color1 color2 in
  let b := updateBuffers g i j k trigValues b charColor1 luminance_front in
  updateBuffers g i (- j)%f32 k trigValues b charColor2 luminance_back.

Definition renderCubeAxis_C (fuel : nat) (g : Globals) (trigValues : TrigCache)
    (b : FrameBufs) (color1 color2 : color) : option FrameBufs :=
  let surfaceNormal_front := mkVector3f CUBE_SIZE F32.zero F32.zero in
  let surfaceNormal_back := mkVector3f (- CUBE_SIZE)%f32 F32.zero F32.zero in
  let luminance_front := luminance_of g trigValues surfaceNormal_front in
  let luminance_back := luminance_of g trigValues surfaceNormal_back in
  sweep fuel (SPACING g) (fun k =>
    sweep fuel (SPACING g) (fun i b =>
      Some (pointC g trigValues color1 color2 luminance_front luminance_back k i b))) b.

(** ** The frame compositor *)

(** What the program writes to the terminal: [printf("%s", s)] and the
    cell update [printf("\x1b[%d;%dH%s%s%c", row, col, RESET, color, glyph)]
    of the diff-emit pass, kept with its arguments. *)
Inductive Output :=
  | Print (s : string)
  | PrintCell (row col : Z) (reset : string) (color : color) (glyph : ascii).

(** The program state the compositor and the resize handler work on: the
    globals, the current buffers and the snapshot of the previous frame. *)
Record Core := mkCore {
  globals : Globals;
  bufs : FrameBufs;
  buffer_prev : list ascii;
  cbuffer_prev : list color
}.

(** [std::fill(v.begin(), v.end(), x)] *)
Definition fill {A : Type} (v : list A) (x : A) : list A := replicate (length v) x.

(** The three fills that clear the current frame (lines 394 to 396, and
    again in [clearBuffers]): blanks, the reset colour, depth 0. *)
Definition clearFrame (b : FrameBufs) : FrameBufs :=
  mkBufs (fill (buffer b) " "%char)
         (fill (zbuffer b) F32.zero)
         (fill (cbuffer b) ANSI_escape_code.color.RESET).

(** The diff-emit loop of [renderFrame], lines 408 to 420: [n] cells are
    left to visit and [index] is the current one.  [index % WIDTH] and
    [index / WIDTH] are taken on a non-negative [index]. *)
Fixpoint diffEmit (n : nat) (index : nat) (width : Z) (b : FrameBufs)
    (buffer_prev : list ascii) (cbuffer_prev : list color) : list Output :=
  match n with
  | O => []
  | S n' =>
      let rest := diffEmit n' (S index) width b buffer_prev cbuffer_prev in
      if bool_decide (buffer b !!! index = buffer_prev !!! index) &&
         bool_decide (cbuffer b !!! index = cbuffer_prev !!! index)
      then rest
      else
        let x := Int.rem (Z.of_nat index) width in
        let y := Int.div (Z.of_nat index) width in
        PrintCell (y + 1) (x + 1) ANSI_escape_code.color.RESET
                  (cbuffer b !!! index) (buffer b !!! index) :: rest
  end.

Definition renderFrame (fuel : nat) (c : Core) (trigValues : TrigCache)
    : option (Core * list Output) :=
  let g := globals c in
  let buffer_prev := buffer (bufs c) in
  let cbuffer_prev := cbuffer (bufs c) in
  let b := clearFrame (bufs c) in
  b ← renderCubeAxis_A fuel g trigValues b ANSI_escape_code.color.YELLOW ANSI_escape_code.color.WHITE;
  b ← renderCubeAxis_B fuel g trigValues b ANSI_escape_code.color.GREEN ANSI_escape_code.color.BLUE;
  b ← renderCubeAxis_C fuel g trigValues b ANSI_escape_code.color.BOLD_RED ANSI_escape_code.color.RED;
  Some (mkCore g b buffer_prev cbuffer_prev,
        Print ANSI_escape_code.SET_CURSOR_HOME
          :: diffEmit (length (buffer b)) 0 (WIDTH g) b buffer_prev cbuffer_prev).

(** ** Resize handling *)

Definition clearBuffers (c : Core) : Core :=
  mkCore (globals c)
         (clearFrame (bufs c))
         (fill (buffer_prev c) " "%char)
         (fill (cbuffer_prev c) ANSI_escape_code.color.RESET).

(** [v.resize(WIDTH * HEIGHT)]: new elements are value-initialised (NUL,
    the empty view, 0).  The product is an [int] product; the model takes
    a non-negative one as the new length. *)
Definition resizeBuffers (c : Core) : Core :=
  let n := Z.to_nat (Int.mul (WIDTH (globals c)) (HEIGHT (globals c))) in
  mkCore (globals c)
         (mkBufs (resize n NUL (buffer (bufs c)))
                 (resize n F32.zero (zbuffer (bufs c)))
                 (resize n EmptyString (cbuffer (bufs c))))
         (resize n NUL (buffer_prev c))
         (resize n EmptyString (cbuffer_prev c)).

(** [updateDim], given what [getTerminalDim()] returned ([{0, 0}] when the
    query failed). *)
Definition updateDim (terminalDim : Dim2i) (c : Core) : Core * list Output :=
  if negb (dim_w terminalDim =? 0) && negb (dim_h terminalDim =? 0) then
    let g := mkGlobals (dim_w terminalDim) (dim_h terminalDim)
                       (computeSPACING (dim_w terminalDim))
                       (computeK1 (dim_w terminalDim))
                       (rotatedLightSource (globals c)) in
    let c := mkCore g (bufs c) (buffer_prev c) (cbuffer_prev c) in
    let c := resizeBuffers c in
    let c := clearBuffers c in
    (c, [Print ANSI_escape_code.ERASE_SCREEN])
  else (c, []).

(** The globals and buffers as the program declares them (lines 117 to
    135), with the light source as [main] rotates it by zero angles and
    normalises it. *)
Definition lightSource : Vector3f := mkVector3f F32.zero CUBE_SIZE (- CUBE_SIZE)%f32.

Definition initial : Core :=
  let one := F32.of_int 1 in
  let light_trig := mkTrig F32.zero one F32.zero one F32.zero one in
  mkCore (mkGlobals 50 25 (computeSPACING 50) (computeK1 50)
                    (normVector (rotate light_trig lightSource)))
         (mkBufs (replicate (50 * 25) " "%char)
                 (replicate (50 * 25) F32.zero)
                 (replicate (50 * 25) ANSI_escape_code.color.RESET))
         (replicate (50 * 25) " "%char)
         (replicate (50 * 25) ANSI_escape_code.color.RESET).

(** * Properties *)

(** ** The order of floats *)

Section FloatOrder.

Ltac order_cases :=
  repeat match goal with
  | s : bool |- _ => destruct s
  end;
  simpl; try discriminate; try reflexivity;
  repeat match goal with
  | |- context [(?a ?= ?b)%Z] => destruct (Z.compare_spec a b)
  | |- context [PosDef.Pos.compare_cont Eq ?a ?b] =>
      change (PosDef.Pos.compare_cont Eq a b) with (Pos.compare a b);
      destruct (Pos.compare_spec a b)
  end;
  simpl; try discriminate; try reflexivity; try lia.

Lemma ltb_trans (a b c : float) :
  F32.ltb a b = true -> F32.ltb b c = true -> F32.ltb a c = true.
Proof.
  unfold F32.ltb, SFltb, SFcompare.
  destruct a, b, c; order_cases.
Qed.

Lemma ltb_asym (a b : float) :
  F32.ltb a b = true -> F32.ltb b a = false.
Proof.
  unfold F32.ltb, SFltb, SFcompare.
  destruct a, b; order_cases.
Qed.

Lemma ltb_irrefl (a : float) : F32.ltb a a = false.
Proof.
  destruct (F32.ltb a a) eqn:E; [|reflexivity].
  pose proof (ltb_asym _ _ E). congruence.
Qed.

Lemma eqb_not_ltb (a b : float) :
  F32.eqb a b = true -> F32.ltb a b = false /\ F32.ltb b a = false.
Proof.
  unfold F32.eqb, F32.ltb, SFeqb, SFltb, SFcompare.
  destruct a, b; split; revert H; order_cases.
Qed.

Lemma leb_ltb_trans (a b c : float) :
  F32.leb a b = true -> F32.ltb b c = true -> F32.ltb a c = true.
Proof.
  unfold F32.leb, F32.ltb, SFleb, SFltb, SFcompare.
  destruct a, b, c; order_cases.
Qed.

Lemma ltb_leb (a b : float) : F32.ltb a b = true -> F32.leb a b = true.
Proof.
  unfold F32.leb, F32.ltb, SFleb, SFltb.
  destruct (SFcompare a b) as [[]|]; congruence.
Qed.

Lemma leb_trans (a b c : float) :
  F32.leb a b = true -> F32.leb b c = true -> F32.leb a c = true.
Proof.
  unfold F32.leb, SFleb, SFcompare.
  destruct a, b, c; order_cases.
Qed.

Lemma leb_not_gtb (a b : float) : F32.leb a b = true -> F32.ltb b a = false.
Proof.
  unfold F32.leb, F32.ltb, SFleb, SFltb, SFcompare.
  destruct a, b; order_cases.
Qed.

(** A float that is not a NaN compares equal to itself. *)
Lemma leb_refl_of_leb (a b : float) : F32.leb a b = true -> F32.leb b b = true.
Proof.
  unfold F32.leb, SFleb, SFcompare.
  destruct a, b; order_cases.
Qed.

End FloatOrder.

(** ** The depth-tested write, cell by cell *)

(** The contents of cell [n]: glyph, colour and stored inverse depth. *)
Definition cell (b : FrameBufs) (n : nat) : option (ascii * color * float) :=
  match buffer b !! n, cbuffer b !! n, zbuffer b !! n with
  | Some ch, Some co, Some d => Some (ch, co, d)
  | _, _, _ => None
  end.

(** The three vectors have one length. *)
Definition same_length (b : FrameBufs) : Prop :=
  length (zbuffer b) = length (buffer b) /\ length (cbuffer b) = length (buffer b).

(** The write [updateBuffers] performs when both tests pass. *)
Definition write_cell (b : FrameBufs) (n : nat) (glyph : ascii) (co : color) (ooz : float) : FrameBufs :=
  mkBufs (<[n := glyph]> (buffer b)) (<[n := ooz]> (zbuffer b)) (<[n := co]> (cbuffer b)).

Section UpdateBuffers.
Variable g : Globals.

Lemma updateBuffers_out i j k t b co lum :
  p_index (project g i j k t) < 0 \/ Z.of_nat (length (buffer b)) <= p_index (project g i j k t) ->
  updateBuffers g i j k t b co lum = b.
Proof.
  intros H. unfold updateBuffers.
  destruct (0 <=? _) eqn:E1; [|reflexivity].
  destruct (_ <? _) eqn:E2; [|reflexivity].
  apply Z.leb_le in E1. apply Z.ltb_lt in E2. lia.
Qed.

Lemma updateBuffers_in i j k t b co lum :
  0 <= p_index (project g i j k t) < Z.of_nat (length (buffer b)) ->
  updateBuffers g i j k t b co lum =
    let n := Z.to_nat (p_index (project g i j k t)) in
    if F32.gtb (p_ooz (project g i j k t)) (zbuffer b !!! n)
    then write_cell b n (ramp_at (glyph_index lum)) co (p_ooz (project g i j k t))
    else b.
Proof.
  intros [H1 H2]. unfold updateBuffers.
  apply Z.leb_le in H1. apply Z.ltb_lt in H2. rewrite H1, H2. reflexivity.
Qed.

Lemma same_length_write b n ch co d :
  same_length b -> same_length (write_cell b n ch co d).
Proof.
  unfold same_length, write_cell; simpl. rewrite !length_insert. tauto.
Qed.

Lemma cell_write_eq b n ch co d :
  same_length b -> (n < length (buffer b))%nat ->
  cell (write_cell b n ch co d) n = Some (ch, co, d).
Proof.
  intros [Hz Hc] Hn. unfold cell, write_cell; simpl.
  rewrite !list_lookup_insert_eq by lia. reflexivity.
Qed.

Lemma zbuffer_write_total b n ch co d :
  same_length b -> (n < length (buffer b))%nat ->
  zbuffer (write_cell b n ch co d) !!! n = d.
Proof.
  intros [Hz Hc] Hn. simpl. apply list_lookup_total_insert_eq. lia.
Qed.

Lemma length_buffer_write b n ch co d :
  length (buffer (write_cell b n ch co d)) = length (buffer b).
Proof. simpl. apply length_insert. Qed.

End UpdateBuffers.


Lemma updateBuffers_at (g : Globals) i j k t b co lum (n : nat) :
  p_index (project g i j k t) = Z.of_nat n ->
  (n < length (buffer b))%nat ->
  updateBuffers g i j k t b co lum =
    if F32.ltb (zbuffer b !!! n) (p_ooz (project g i j k t))
    then write_cell b n (ramp_at (glyph_index lum)) co (p_ooz (project g i j k t))
    else b.
Proof.
  intros E Hn. rewrite updateBuffers_in by lia.
  cbv zeta. rewrite E, Nat2Z.id. reflexivity.
Qed.

(** Equal depths that are above a third depth: both are. *)
Lemma eqb_ltb_compat (a b d : float) :
  F32.eqb a b = true -> F32.ltb d b = true -> F32.ltb d a = true.
Proof.
  unfold F32.eqb, F32.ltb, SFeqb, SFltb, SFcompare.
  destruct a, b, d;
    repeat match goal with s : bool |- _ => destruct s end;
    simpl; try discriminate; try reflexivity;
    repeat match goal with
    | |- context [(?a ?= ?b)%Z] => destruct (Z.compare_spec a b)
    | |- context [PosDef.Pos.compare_cont Eq ?a ?b] =>
        change (PosDef.Pos.compare_cont Eq a b) with (Pos.compare a b);
        destruct (Pos.compare_spec a b)
    end; simpl; try discriminate; try reflexivity; try lia.
Qed.

(** ** C1: the nearer candidate wins *)

(** C1.  Two candidate writes to the same in-bounds cell: candidate 1 with
    inverse depth [ooz1], candidate 2 with [ooz2], where [ooz1 > ooz2] and
    [ooz2] is above the depth stored in the cell.  After both calls of
    [updateBuffers], in either order, the cell holds the glyph, the colour
    and the depth of candidate 1.  When instead the two depths compare
    equal (and are above the stored depth), the cell keeps what the call
    processed first wrote. *)
Theorem depth_test_nearer_wins
    (g : Globals) (b : FrameBufs)
    (i1 j1 k1 : float) (t1 : TrigCache) (co1 : color) (lum1 : float)
    (i2 j2 k2 : float) (t2 : TrigCache) (co2 : color) (lum2 : float) (n : nat) :
  same_length b ->
  (n < length (buffer b))%nat ->
  p_index (project g i1 j1 k1 t1) = Z.of_nat n ->
  p_index (project g i2 j2 k2 t2) = Z.of_nat n ->
  F32.gtb (p_ooz (project g i2 j2 k2 t2)) (zbuffer b !!! n) = true ->
  (F32.gtb (p_ooz (project g i1 j1 k1 t1)) (p_ooz (project g i2 j2 k2 t2)) = true ->
     cell (updateBuffers g i2 j2 k2 t2 (updateBuffers g i1 j1 k1 t1 b co1 lum1) co2 lum2) n
       = Some (ramp_at (glyph_index lum1), co1, p_ooz (project g i1 j1 k1 t1))
     /\ cell (updateBuffers g i1 j1 k1 t1 (updateBuffers g i2 j2 k2 t2 b co2 lum2) co1 lum1) n
       = Some (ramp_at (glyph_index lum1), co1, p_ooz (project g i1 j1 k1 t1)))
  /\ (F32.eqb (p_ooz (project g i1 j1 k1 t1)) (p_ooz (project g i2 j2 k2 t2)) = true ->
     cell (updateBuffers g i2 j2 k2 t2 (updateBuffers g i1 j1 k1 t1 b co1 lum1) co2 lum2) n
       = Some (ramp_at (glyph_index lum1), co1, p_ooz (project g i1 j1 k1 t1))
     /\ cell (updateBuffers g i1 j1 k1 t1 (updateBuffers g i2 j2 k2 t2 b co2 lum2) co1 lum1) n
       = Some (ramp_at (glyph_index lum2), co2, p_ooz (project g i2 j2 k2 t2))).
Proof.
  intros Hlen Hn E1 E2 Hprior.
  set (o1 := p_ooz (project g i1 j1 k1 t1)) in *.
  set (o2 := p_ooz (project g i2 j2 k2 t2)) in *.
  change (F32.ltb (zbuffer b !!! n) o2 = true) in Hprior.
  assert (W : forall ch co d, (n < length (buffer (write_cell b n ch co d)))%nat)
    by (intros; rewrite length_buffer_write; exact Hn).
  split; intros H12; [change (F32.ltb o2 o1 = true) in H12|].
  - (* strictly nearer *)
    assert (H1 : F32.ltb (zbuffer b !!! n) o1 = true) by (eapply ltb_trans; eassumption).
    split.
    + rewrite (updateBuffers_at g i1 j1 k1 t1 b co1 lum1 n E1 Hn). fold o1. rewrite H1.
      rewrite (updateBuffers_at g i2 j2 k2 t2 _ co2 lum2 n E2 (W _ _ _)). fold o2.
      rewrite zbuffer_write_total by assumption.
      rewrite (ltb_asym _ _ H12). apply cell_write_eq; assumption.
    + rewrite (updateBuffers_at g i2 j2 k2 t2 b co2 lum2 n E2 Hn). fold o2. rewrite Hprior.
      rewrite (updateBuffers_at g i1 j1 k1 t1 _ co1 lum1 n E1 (W _ _ _)). fold o1.
      rewrite zbuffer_write_total by assumption.
      rewrite H12.
      apply cell_write_eq; [apply same_length_write; assumption | apply W].
  - (* tie *)
    destruct (eqb_not_ltb _ _ H12) as [N12 N21].
    assert (H1 : F32.ltb (zbuffer b !!! n) o1 = true) by (eapply eqb_ltb_compat; eassumption).
    split.
    + rewrite (updateBuffers_at g i1 j1 k1 t1 b co1 lum1 n E1 Hn). fold o1. rewrite H1.
      rewrite (updateBuffers_at g i2 j2 k2 t2 _ co2 lum2 n E2 (W _ _ _)). fold o2.
      rewrite zbuffer_write_total by assumption.
      rewrite N12. apply cell_write_eq; assumption.
    + rewrite (updateBuffers_at g i2 j2 k2 t2 b co2 lum2 n E2 Hn). fold o2. rewrite Hprior.
      rewrite (updateBuffers_at g i1 j1 k1 t1 _ co1 lum1 n E1 (W _ _ _)). fold o1.
      rewrite zbuffer_write_total by assumption.
      rewrite N21. apply cell_write_eq; assumption.
Qed.

(** *** Concrete inputs used by the examples: a 4 x 4 terminal *)

Definition half : float := F32.lit 1 2.

(** The trig cache of the zero angles. *)
Definition trig_zero : TrigCache :=
  mkTrig F32.zero CUBE_SIZE F32.zero CUBE_SIZE F32.zero CUBE_SIZE.

(** The program state after the first [updateDim] on a 4 x 4 terminal. *)
Definition core4 : Core := fst (updateDim (mkDim2i 4 4) initial).

(** On the 4 x 4 terminal with zero angles the corner points
    [(-1/2, -1/2, -1/2)] and [(-1/2, -1/2, 1/2)] fall into cell 9, the
    first one nearer.  The second half of the statement writes the first
    point twice, with two colours. *)
Lemma depth_test_nearer_wins_witness :
  let g := globals core4 in
  let b := bufs core4 in
  let m := (- half)%f32 in
  (cell (updateBuffers g m m half trig_zero
           (updateBuffers g m m m trig_zero b ANSI_escape_code.color.WHITE half)
           ANSI_escape_code.color.YELLOW CUBE_SIZE) 9
     = Some (";"%char, ANSI_escape_code.color.WHITE, p_ooz (project g m m m trig_zero))
   /\ cell (updateBuffers g m m m trig_zero
           (updateBuffers g m m half trig_zero b ANSI_escape_code.color.YELLOW CUBE_SIZE)
           ANSI_escape_code.color.WHITE half) 9
     = Some (";"%char, ANSI_escape_code.color.WHITE, p_ooz (project g m m m trig_zero)))
  /\ (cell (updateBuffers g m m m trig_zero
           (updateBuffers g m m m trig_zero b ANSI_escape_code.color.WHITE half)
           ANSI_escape_code.color.YELLOW CUBE_SIZE) 9
     = Some (";"%char, ANSI_escape_code.color.WHITE, p_ooz (project g m m m trig_zero))
   /\ cell (updateBuffers g m m m trig_zero
           (updateBuffers g m m m trig_zero b ANSI_escape_code.color.YELLOW CUBE_SIZE)
           ANSI_escape_code.color.WHITE half) 9
     = Some ("@"%char, ANSI_escape_code.color.YELLOW, p_ooz (project g m m m trig_zero))).
Proof.
  intros g b m. split.
  - apply (depth_test_nearer_wins g b m m m trig_zero ANSI_escape_code.color.WHITE half
             m m half trig_zero ANSI_escape_code.color.YELLOW CUBE_SIZE 9%nat);
      vm_compute; (reflexivity || (split; reflexivity) || lia).
  - apply (depth_test_nearer_wins g b m m m trig_zero ANSI_escape_code.color.WHITE half
             m m m trig_zero ANSI_escape_code.color.YELLOW CUBE_SIZE 9%nat);
      vm_compute; (reflexivity || (split; reflexivity) || lia).
Defined.

(** ** C7: writes outside the buffer are dropped *)

(** C7.  When the linear cell index [xp + yp*WIDTH] computed by
    [updateBuffers] is negative or at least the length of the character
    buffer, the call returns the three buffers unchanged; the function has
    no other result through which an error could be reported. *)
Theorem updateBuffers_out_of_bounds (g : Globals) (i j k : float) (t : TrigCache)
    (b : FrameBufs) (co : color) (lum : float) :
  Int.add (p_xp (project g i j k t)) (Int.mul (p_yp (project g i j k t)) (WIDTH g)) < 0
    \/ Z.of_nat (length (buffer b))
         <= Int.add (p_xp (project g i j k t)) (Int.mul (p_yp (project g i j k t)) (WIDTH g)) ->
  updateBuffers g i j k t b co lum = b.
Proof. intros H. apply updateBuffers_out. exact H. Qed.

(** The point [(50, 50, 1/2)] projects to column 43 and row -39 of the
    4 x 4 terminal, index -113; and the point [(1, 1, 1/2)], on screen at
    column 2 and row 2, lies behind the end of an empty buffer. *)
Lemma updateBuffers_out_of_bounds_witness :
  p_index (project (globals core4) (F32.of_int 50) (F32.of_int 50) half trig_zero) = -113
  /\ updateBuffers (globals core4) (F32.of_int 50) (F32.of_int 50) half trig_zero
       (bufs core4) ANSI_escape_code.color.RED CUBE_SIZE = bufs core4
  /\ updateBuffers (globals core4) CUBE_SIZE CUBE_SIZE half trig_zero
       (mkBufs [] [] []) ANSI_escape_code.color.RED CUBE_SIZE = mkBufs [] [] [].
Proof.
  split; [vm_compute; reflexivity|]. split.
  - apply updateBuffers_out_of_bounds. left. vm_compute. reflexivity.
  - apply updateBuffers_out_of_bounds. right. vm_compute. discriminate.
Defined.

(** ** Stored depths within a frame: the invariant *)

(** Every stored depth is at least 0 (in particular, not a NaN). *)
Definition depths_nonneg (b : FrameBufs) : Prop :=
  Forall (fun d => F32.leb F32.zero d = true) (zbuffer b).

Lemma depths_nonneg_clearFrame (b : FrameBufs) : depths_nonneg (clearFrame b).
Proof.
  unfold depths_nonneg, clearFrame, fill; simpl.
  apply Forall_replicate. reflexivity.
Qed.

Lemma depths_nonneg_total (b : FrameBufs) (n : nat) :
  depths_nonneg b -> F32.leb F32.zero (zbuffer b !!! n) = true.
Proof.
  intros H. rewrite list_lookup_total_alt.
  destruct (zbuffer b !! n) as [d|] eqn:E; simpl.
  - eapply Forall_lookup_1 in H; eauto.
  - reflexivity.
Qed.

(** One call of [updateBuffers] under the invariant. *)
Lemma updateBuffers_depths (g : Globals) i j k t b co lum :
  depths_nonneg b ->
  depths_nonneg (updateBuffers g i j k t b co lum)
  /\ (forall n d, zbuffer b !! n = Some d ->
        exists d', zbuffer (updateBuffers g i j k t b co lum) !! n = Some d'
                   /\ F32.leb d d' = true)
  /\ (F32.leb (p_ooz (project g i j k t)) F32.zero = true ->
        updateBuffers g i j k t b co lum = b).
Proof.
  intros Hinv.
  assert (Hsame : forall n d, zbuffer b !! n = Some d ->
            exists d', zbuffer b !! n = Some d' /\ F32.leb d d' = true).
  { intros n d E. exists d. split; [exact E|].
    eapply leb_refl_of_leb. eapply Forall_lookup_1 in Hinv; eauto. }
  destruct (Z_lt_ge_dec (p_index (project g i j k t)) 0) as [Hneg|Hpos];
    [rewrite updateBuffers_out by (left; exact Hneg); auto|].
  destruct (Z_lt_ge_dec (p_index (project g i j k t)) (Z.of_nat (length (buffer b)))) as [Hlt|Hge];
    [|rewrite updateBuffers_out by (right; lia); auto].
  rewrite updateBuffers_in by lia. cbv zeta.
  set (m := Z.to_nat (p_index (project g i j k t))).
  set (ooz := p_ooz (project g i j k t)).
  pose proof (depths_nonneg_total b m Hinv) as Hm.
  change (F32.gtb ooz (zbuffer b !!! m)) with (F32.ltb (zbuffer b !!! m) ooz).
  destruct (F32.ltb (zbuffer b !!! m) ooz) eqn:Hgt.
  - split; [|split].
    + unfold depths_nonneg, write_cell; simpl.
      apply Forall_insert; [exact Hinv|].
      apply ltb_leb. eapply leb_ltb_trans; eassumption.
    + intros n d E. simpl.
      destruct (decide (m = n)) as [->|Hne].
      * exists ooz. split.
        -- apply list_lookup_insert_eq. eapply lookup_lt_Some; eauto.
        -- apply ltb_leb. rewrite list_lookup_total_alt, E in Hgt. exact Hgt.
      * rewrite list_lookup_insert_ne by exact Hne. apply Hsame, E.
    + intros Hle. exfalso.
      pose proof (leb_trans _ _ _ Hle Hm) as Hle'.
      apply leb_not_gtb in Hle'. congruence.
  - auto.
Qed.

(** The face loops keep whatever each point keeps. *)
Lemma sweep_from_invariant {S : Type} (P : S -> Prop) (body : float -> S -> option S) :
  (forall v s s', body v s = Some s' -> P s -> P s') ->
  forall fuel spacing v s s',
    sweep_from fuel spacing v body s = Some s' -> P s -> P s'.
Proof.
  intros Hbody fuel spacing. induction fuel as [|fuel IH]; intros v s s' H Hs; simpl in H.
  - discriminate.
  - destruct (F32.leb v _).
    + destruct (body v s) as [s1|] eqn:E; [|discriminate].
      eapply IH; [exact H|]. eapply Hbody; eauto.
    + congruence.
Qed.

Lemma face_loops_invariant (P : FrameBufs -> Prop) (point : float -> float -> FrameBufs -> FrameBufs) :
  (forall u v b, P b -> P (point u v b)) ->
  forall fuel spacing b b',
    sweep fuel spacing (fun u => sweep fuel spacing (fun v b => Some (point u v b))) b = Some b' ->
    P b -> P b'.
Proof.
  intros Hpoint fuel spacing b b'. unfold sweep.
  apply sweep_from_invariant. intros u s s'.
  apply sweep_from_invariant. intros v s0 s0' [= <-]. apply Hpoint.
Qed.

(** What a returning [renderFrame] did. *)
Lemma renderFrame_inv fuel c t c' out :
  renderFrame fuel c t = Some (c', out) ->
  exists bA bB bC,
    renderCubeAxis_A fuel (globals c) t (clearFrame (bufs c))
      ANSI_escape_code.color.YELLOW ANSI_escape_code.color.WHITE = Some bA
    /\ renderCubeAxis_B fuel (globals c) t bA
      ANSI_escape_code.color.GREEN ANSI_escape_code.color.BLUE = Some bB
    /\ renderCubeAxis_C fuel (globals c) t bB
      ANSI_escape_code.color.BOLD_RED ANSI_escape_code.color.RED = Some bC
    /\ c' = mkCore (globals c) bC (buffer (bufs c)) (cbuffer (bufs c))
    /\ out = Print ANSI_escape_code.SET_CURSOR_HOME
              :: diffEmit (length (buffer bC)) 0 (WIDTH (globals c)) bC
                   (buffer (bufs c)) (cbuffer (bufs c)).
Proof.
  unfold renderFrame. intros H.
  destruct (renderCubeAxis_A _ _ _ _ _ _) as [bA|] eqn:EA; [simpl in H|discriminate].
  destruct (renderCubeAxis_B _ _ _ _ _ _) as [bB|] eqn:EB; [simpl in H|discriminate].
  destruct (renderCubeAxis_C _ _ _ _ _ _) as [bC|] eqn:EC; [simpl in H|discriminate].
  injection H as <- <-. exists bA, bB, bC. auto.
Qed.

(** Every face rasteriser keeps a property that [updateBuffers] keeps. *)
Lemma faces_invariant (P : FrameBufs -> Prop) (g : Globals) (t : TrigCache) :
  (forall i j k b co lum, P b -> P (updateBuffers g i j k t b co lum)) ->
  forall fuel b b' c1 c2,
    (renderCubeAxis_A fuel g t b c1 c2 = Some b'
     \/ renderCubeAxis_B fuel g t b c1 c2 = Some b'
     \/ renderCubeAxis_C fuel g t b c1 c2 = Some b') ->
    P b -> P b'.
Proof.
  intros Hu fuel b b' c1 c2 [H|[H|H]] Hb;
    eapply (face_loops_invariant P) in H; try exact H; try exact Hb;
    intros u v b0 Hb0; unfold pointA, pointB, pointC;
    destruct (charColors _ _ _ _); apply Hu, Hu, Hb0.
Qed.

Lemma renderFrame_depths fuel c t c' out :
  renderFrame fuel c t = Some (c', out) -> depths_nonneg (bufs c').
Proof.
  intros H. apply renderFrame_inv in H as (bA & bB & bC & EA & EB & EC & -> & _). simpl.
  assert (Hu : forall i j k b co lum, depths_nonneg b ->
             depths_nonneg (updateBuffers (globals c) i j k t b co lum))
    by (intros; apply updateBuffers_depths; assumption).
  eapply (faces_invariant _ _ _ Hu); [right; right; exact EC|].
  eapply (faces_invariant _ _ _ Hu); [right; left; exact EB|].
  eapply (faces_invariant _ _ _ Hu); [left; exact EA|].
  apply depths_nonneg_clearFrame.
Qed.

(** ** C3 and C9: the diff-emit pass *)

(** A cell counts as unchanged when glyph and colour both equal the
    snapshot of the previous frame. *)
Definition unchanged (b : FrameBufs) (buffer_prev : list ascii) (cbuffer_prev : list color)
    (index : nat) : Prop :=
  buffer b !!! index = buffer_prev !!! index /\ cbuffer b !!! index = cbuffer_prev !!! index.

#[global] Instance unchanged_dec b bp cbp index : Decision (unchanged b bp cbp index).
Proof. unfold unchanged. apply _. Defined.

(** The update of cell [index] on a terminal [width] columns wide: the
    cursor goes to the 1-based row and column of the cell, then the reset
    sequence, the cell's colour and its glyph follow. *)
Definition cell_update (width : Z) (b : FrameBufs) (index : nat) : Output :=
  PrintCell (Z.of_nat index / width + 1) (Z.of_nat index mod width + 1)
            ANSI_escape_code.color.RESET (cbuffer b !!! index) (buffer b !!! index).

Lemma diffEmit_spec (width : Z) (b : FrameBufs) (bp : list ascii) (cbp : list color) :
  0 < width ->
  forall n index,
    diffEmit n index width b bp cbp
      = cell_update width b <$> filter (fun i => ~ unchanged b bp cbp i) (seq index n).
Proof.
  intros Hw. induction n as [|n IH]; intros index; [reflexivity|].
  cbn [diffEmit seq]. rewrite filter_cons. rewrite IH.
  destruct (decide (~ unchanged b bp cbp index)) as [Hch|Hun].
  - assert (E : bool_decide (buffer b !!! index = bp !!! index)
                 && bool_decide (cbuffer b !!! index = cbp !!! index) = false).
    { apply not_true_is_false. intros E. apply andb_prop in E as [E1 E2].
      apply bool_decide_eq_true in E1, E2. apply Hch. split; assumption. }
    rewrite E.
    rewrite fmap_cons. f_equal.
    unfold cell_update, Int.rem, Int.div.
    rewrite Z.rem_mod_nonneg, Z.quot_div_nonneg by lia. reflexivity.
  - apply dec_stable in Hun. destruct Hun as [E1 E2].
    rewrite !bool_decide_eq_true_2 by assumption. reflexivity.
Qed.

Lemma diffEmit_same (width : Z) (b : FrameBufs) :
  forall n index, diffEmit n index width b (buffer b) (cbuffer b) = [].
Proof.
  induction n as [|n IH]; intros index; [reflexivity|].
  cbn [diffEmit]. rewrite !bool_decide_eq_true_2 by reflexivity. apply IH.
Qed.

Lemma filter_none {A : Type} (P : A -> Prop) `{forall x, Decision (P x)} (l : list A) :
  (forall x, x ∈ l -> ~ P x) -> filter P l = [].
Proof.
  induction l as [|a l IH]; intros Hl; [reflexivity|].
  rewrite filter_cons_False by (apply Hl; left).
  apply IH. intros x Hx. apply Hl. right. exact Hx.
Qed.

Lemma filter_seq_single (P : nat -> Prop) `{forall x, Decision (P x)} (n k : nat) :
  (k < n)%nat -> P k -> (forall i, (i < n)%nat -> i <> k -> ~ P i) ->
  filter P (seq 0 n) = [k].
Proof.
  intros Hk HP Hothers.
  replace n with (k + (1 + (n - k - 1)))%nat by lia.
  rewrite !seq_app, !filter_app. simpl seq.
  rewrite filter_cons_True by exact HP. rewrite filter_nil.
  rewrite !filter_none; [reflexivity| |].
  - intros x Hx. apply elem_of_seq in Hx. apply Hothers; lia.
  - intros x Hx. apply elem_of_seq in Hx. apply Hothers; lia.
Qed.

(** The snapshot and the output of a returning [renderFrame]. *)
Lemma renderFrame_output (fuel : nat) (c : Core) (t : TrigCache)
    (c' : Core) (out : list Output) :
  0 < WIDTH (globals c) ->
  renderFrame fuel c t = Some (c', out) ->
  buffer_prev c' = buffer (bufs c)
  /\ cbuffer_prev c' = cbuffer (bufs c)
  /\ out = Print ANSI_escape_code.SET_CURSOR_HOME
           :: (cell_update (WIDTH (globals c)) (bufs c')
                 <$> filter (fun index => ~ unchanged (bufs c') (buffer_prev c') (cbuffer_prev c') index)
                            (seq 0 (length (buffer (bufs c'))))).
Proof.
  intros Hw H.
  apply renderFrame_inv in H as (bA & bB & bC & _ & _ & _ & -> & ->). simpl.
  split; [reflexivity|]. split; [reflexivity|].
  rewrite diffEmit_spec by exact Hw. reflexivity.
Qed.

(** C3.  The diff-emit pass of a returning [renderFrame], on a terminal of
    positive width: after the cursor-home sequence the output consists, in
    cell order, of one update for each cell that is not unchanged, a cell
    being unchanged exactly when its glyph and its colour both equal the
    snapshot taken at the start of the call; the update of cell [index]
    moves the cursor to row [index / WIDTH + 1] and column
    [index mod WIDTH + 1] and emits the cell's new colour and glyph.  In
    particular, when the glyph of one cell [k] differs from the snapshot
    and every other cell is unchanged, the output addresses cell [k] and no
    other. *)
Theorem renderFrame_diff_emit (fuel : nat) (c : Core) (t : TrigCache)
    (c' : Core) (out : list Output) :
  0 < WIDTH (globals c) ->
  renderFrame fuel c t = Some (c', out) ->
  buffer_prev c' = buffer (bufs c)
  /\ cbuffer_prev c' = cbuffer (bufs c)
  /\ out = Print ANSI_escape_code.SET_CURSOR_HOME
           :: (cell_update (WIDTH (globals c)) (bufs c')
                 <$> filter (fun index => ~ unchanged (bufs c') (buffer_prev c') (cbuffer_prev c') index)
                            (seq 0 (length (buffer (bufs c')))))
  /\ (forall k : nat,
        (k < length (buffer (bufs c')))%nat ->
        buffer (bufs c') !!! k <> buffer_prev c' !!! k ->
        (forall index, (index < length (buffer (bufs c')))%nat -> index <> k ->
           unchanged (bufs c') (buffer_prev c') (cbuffer_prev c') index) ->
        out = [Print ANSI_escape_code.SET_CURSOR_HOME;
               PrintCell (Z.of_nat k / WIDTH (globals c) + 1)
                         (Z.of_nat k mod WIDTH (globals c) + 1)
                         ANSI_escape_code.color.RESET
                         (cbuffer (bufs c') !!! k) (buffer (bufs c') !!! k)]).
Proof.
  intros Hw H.
  destruct (renderFrame_output fuel c t c' out Hw H) as (Hbp & Hcp & Hout).
  split; [exact Hbp|]. split; [exact Hcp|]. split; [exact Hout|].
  intros k Hk Hglyph Hothers. rewrite Hout.
  rewrite (filter_seq_single _ _ k); [reflexivity|exact Hk| |].
  - unfold unchanged. tauto.
  - intros i Hi Hne Hch. apply Hch. apply Hothers; assumption.
Qed.

(** The face rasterisers keep the lengths of the three buffers. *)
Definition lengths (b : FrameBufs) : nat * nat * nat :=
  (length (buffer b), length (zbuffer b), length (cbuffer b)).

Lemma updateBuffers_lengths g i j k t b co lum :
  lengths (updateBuffers g i j k t b co lum) = lengths b.
Proof.
  unfold updateBuffers.
  destruct (_ && _); [|reflexivity].
  destruct (F32.gtb _ _); [|reflexivity].
  unfold lengths; simpl. rewrite !length_insert. reflexivity.
Qed.

Lemma clearFrame_lengths b b' : lengths b = lengths b' -> clearFrame b = clearFrame b'.
Proof.
  unfold lengths, clearFrame, fill. intros [= -> -> ->]. reflexivity.
Qed.

Lemma lengths_clearFrame b : lengths (clearFrame b) = lengths b.
Proof. unfold lengths, clearFrame, fill; simpl. rewrite !length_replicate. reflexivity. Qed.

Lemma renderFrame_lengths fuel c t c' out :
  renderFrame fuel c t = Some (c', out) -> lengths (bufs c') = lengths (bufs c).
Proof.
  intros H. apply renderFrame_inv in H as (bA & bB & bC & EA & EB & EC & -> & _). simpl.
  assert (Hu : forall i j k b co lum, lengths b = lengths (bufs c) ->
             lengths (updateBuffers (globals c) i j k t b co lum) = lengths (bufs c))
    by (intros; rewrite updateBuffers_lengths; assumption).
  eapply (faces_invariant (fun b => lengths b = lengths (bufs c)) _ _ Hu); [right; right; exact EC|].
  eapply (faces_invariant (fun b => lengths b = lengths (bufs c)) _ _ Hu); [right; left; exact EB|].
  eapply (faces_invariant (fun b => lengths b = lengths (bufs c)) _ _ Hu); [left; exact EA|].
  apply lengths_clearFrame.
Qed.

(** C9.  With the dimensions and the trig cache fixed, a [renderFrame] that
    returns can be invoked again on the state it left: the second
    invocation returns as well (within the same iteration bound), draws the
    same frame, and its diff pass emits no cell update -- the output is the
    cursor-home sequence alone. *)
Theorem renderFrame_twice_emits_nothing (fuel : nat) (c : Core) (t : TrigCache)
    (c1 : Core) (out1 : list Output) :
  renderFrame fuel c t = Some (c1, out1) ->
  exists c2,
    renderFrame fuel c1 t = Some (c2, [Print ANSI_escape_code.SET_CURSOR_HOME])
    /\ bufs c2 = bufs c1
    /\ globals c2 = globals c.
Proof.
  intros H.
  pose proof (renderFrame_lengths _ _ _ _ _ H) as Hlen.
  apply renderFrame_inv in H as (bA & bB & bC & EA & EB & EC & -> & _).
  simpl in Hlen.
  exists (mkCore (globals c) bC (buffer bC) (cbuffer bC)).
  split; [|split; reflexivity].
  unfold renderFrame. cbn [globals bufs].
  rewrite (clearFrame_lengths bC (bufs c) Hlen).
  rewrite EA. simpl. rewrite EB. simpl. rewrite EC. simpl.
  rewrite diffEmit_same. reflexivity.
Qed.

(** The 4 x 4 terminal of the end-to-end scenario, zero angles, bound 3. *)
Lemma renderFrame_twice_emits_nothing_witness :
  exists c1 out1 c2,
    renderFrame 3 core4 trig_zero = Some (c1, out1)
    /\ renderFrame 3 c1 trig_zero = Some (c2, [Print ANSI_escape_code.SET_CURSOR_HOME])
    /\ bufs c2 = bufs c1.
Proof.
  destruct (renderFrame 3 core4 trig_zero) as [[c1 out1]|] eqn:E.
  - destruct (renderFrame_twice_emits_nothing 3%nat core4 trig_zero c1 out1 E)
      as (c2 & H2 & Hb & _).
    exists c1, out1, c2. auto.
  - vm_compute in E. discriminate.
Defined.

(** The frame drawn on the 4 x 4 terminal with zero angles, and the same
    state with the glyph of cell 5 replaced on screen: the next frame then
    differs from its snapshot in that glyph only. *)
Definition frame4 : Core :=
  match renderFrame 3 core4 trig_zero with
  | Some (c, _) => c
  | None => core4
  end.

Definition frame4_smudged : Core :=
  mkCore (globals frame4)
         (mkBufs (<[5%nat := "#"%char]> (buffer (bufs frame4)))
                 (zbuffer (bufs frame4)) (cbuffer (bufs frame4)))
         (buffer_prev frame4) (cbuffer_prev frame4).

Lemma renderFrame_diff_emit_witness :
  exists c' out,
    renderFrame 3 frame4_smudged trig_zero = Some (c', out)
    /\ out = [Print ANSI_escape_code.SET_CURSOR_HOME;
              PrintCell 2 2 ANSI_escape_code.color.RESET ANSI_escape_code.color.WHITE "!"%char].
Proof.
  destruct (renderFrame 3 frame4_smudged trig_zero) as [[c' out]|] eqn:E;
    [|vm_compute in E; discriminate].
  exists c', out. split; [reflexivity|].
  assert (Hw : 0 < WIDTH (globals frame4_smudged)) by (vm_compute; reflexivity).
  destruct (renderFrame_diff_emit 3%nat frame4_smudged trig_zero c' out Hw E)
    as (_ & _ & _ & Hsingle).
  vm_compute in E. injection E as <- <-.
  rewrite (Hsingle 5%nat).
  - vm_compute. reflexivity.
  - vm_compute. lia.
  - vm_compute. discriminate.
  - intros index Hi Hne. change (index < 16)%nat in Hi.
    do 16 (destruct index as [|index]; [first [congruence | split; vm_compute; reflexivity]|]).
    lia.
Defined.

(** ** C8: resize *)

Lemma wrap_small (z : Z) : Int.min_signed <= z <= Int.max_signed -> Int.wrap z = z.
Proof.
  unfold Int.wrap, Int.min_signed, Int.max_signed. intros H.
  rewrite Z.mod_small by lia. lia.
Qed.

Lemma filter_ext_elem {A : Type} (P Q : A -> Prop)
    `{forall x, Decision (P x)} `{forall x, Decision (Q x)} (l : list A) :
  (forall x, x ∈ l -> (P x <-> Q x)) -> filter P l = filter Q l.
Proof.
  induction l as [|a l IH]; intros Hl; [reflexivity|].
  rewrite !filter_cons.
  assert (Ha : P a <-> Q a) by (apply Hl; left).
  rewrite IH by (intros x Hx; apply Hl; right; exact Hx).
  destruct (decide (P a)), (decide (Q a)); tauto || reflexivity.
Qed.

(** A cell that shows nothing: a blank in the reset colour. *)
Definition blank_cell (b : FrameBufs) (index : nat) : Prop :=
  buffer b !!! index = " "%char /\ cbuffer b !!! index = ANSI_escape_code.color.RESET.

#[global] Instance blank_cell_dec b index : Decision (blank_cell b index).
Proof. unfold blank_cell. apply _. Defined.

(** The claim that the frame after a resize is redrawn in full: one update
    for every cell. *)
Definition full_redraw (c : Core) (out : list Output) : Prop :=
  out = Print ANSI_escape_code.SET_CURSOR_HOME
        :: (cell_update (WIDTH (globals c)) (bufs c) <$> seq 0 (length (buffer (bufs c)))).

Lemma updateDim_state (w h : Z) (c : Core) :
  0 < w -> 0 < h -> w * h <= Int.max_signed ->
  updateDim (mkDim2i w h) c =
    (let n := Z.to_nat (w * h) in
     mkCore (mkGlobals w h (computeSPACING w) (computeK1 w) (rotatedLightSource (globals c)))
            (mkBufs (replicate n " "%char) (replicate n F32.zero)
                    (replicate n ANSI_escape_code.color.RESET))
            (replicate n " "%char) (replicate n ANSI_escape_code.color.RESET),
     [Print ANSI_escape_code.ERASE_SCREEN]).
Proof.
  intros Hw Hh Hwh. unfold updateDim. cbn [dim_w dim_h].
  destruct (Z.eqb_spec w 0); [lia|]. destruct (Z.eqb_spec h 0); [lia|].
  cbn [negb andb]. unfold clearBuffers, resizeBuffers, clearFrame, fill.
  cbn [globals bufs buffer zbuffer cbuffer buffer_prev cbuffer_prev WIDTH HEIGHT].
  unfold Int.mul. rewrite wrap_small by (unfold Int.min_signed; nia).
  rewrite !length_resize. reflexivity.
Qed.

(** C8, as the code has it.  After [updateDim] handled a change to
    [w] x [h] (both positive, the product an [int]): the five frame buffers
    have length [w * h]; [WIDTH] and [HEIGHT] are the new dimensions and
    [K1] and [SPACING] are recomputed from the new [WIDTH]; the current and
    the previous buffers hold blanks in the reset colour and the depth
    buffer zeros; the screen was erased.  On the next diff pass the cells
    that are blank in the new frame are skipped and every other cell is
    updated: together with the erased screen this shows the whole new
    frame. *)
Theorem updateDim_reinitialises (w h : Z) (c : Core) :
  0 < w -> 0 < h -> w * h <= Int.max_signed ->
  let c' := fst (updateDim (mkDim2i w h) c) in
  let n := Z.to_nat (w * h) in
  (length (buffer (bufs c')) = n /\ length (buffer_prev c') = n
   /\ length (cbuffer (bufs c')) = n /\ length (cbuffer_prev c') = n
   /\ length (zbuffer (bufs c')) = n)
  /\ (WIDTH (globals c') = w /\ HEIGHT (globals c') = h
      /\ K1 (globals c') = computeK1 w /\ SPACING (globals c') = computeSPACING w)
  /\ (bufs c' = mkBufs (replicate n " "%char) (replicate n F32.zero)
                       (replicate n ANSI_escape_code.color.RESET)
      /\ buffer_prev c' = replicate n " "%char
      /\ cbuffer_prev c' = replicate n ANSI_escape_code.color.RESET)
  /\ snd (updateDim (mkDim2i w h) c) = [Print ANSI_escape_code.ERASE_SCREEN]
  /\ (forall fuel t c'' out,
        renderFrame fuel c' t = Some (c'', out) ->
        length (buffer (bufs c'')) = n
        /\ out = Print ANSI_escape_code.SET_CURSOR_HOME
                 :: (cell_update w (bufs c'')
                       <$> filter (fun index => ~ blank_cell (bufs c'') index) (seq 0 n))).
Proof.
  intros Hw Hh Hwh. rewrite (updateDim_state w h c Hw Hh Hwh). cbv zeta. cbn [fst snd].
  cbn [globals bufs buffer zbuffer cbuffer buffer_prev cbuffer_prev WIDTH HEIGHT K1 SPACING].
  rewrite !length_replicate.
  repeat (split; [auto; fail|]).
  intros fuel t c'' out H.
  pose proof (renderFrame_lengths _ _ _ _ _ H) as Hlen.
  unfold lengths in Hlen. cbn [bufs buffer zbuffer cbuffer] in Hlen.
  rewrite !length_replicate in Hlen. injection Hlen as Hl1 Hl2 Hl3.
  split; [exact Hl1|].
  apply renderFrame_output in H as (Hbp & Hcp & ->); [|exact Hw].
  cbn [globals bufs buffer cbuffer WIDTH] in *.
  rewrite Hl1. f_equal. f_equal.
  apply filter_ext_elem. intros i Hi. apply elem_of_seq in Hi.
  unfold unchanged, blank_cell. rewrite Hbp, Hcp.
  rewrite !lookup_total_replicate_2 by lia. reflexivity.
Qed.

(** The change from the initial 50 x 25 to 4 x 4, then a frame. *)
Lemma updateDim_reinitialises_witness :
  length (buffer (bufs core4)) = 16%nat
  /\ K1 (globals core4) = computeK1 4
  /\ exists c'' out,
       renderFrame 3 core4 trig_zero = Some (c'', out)
       /\ out = Print ANSI_escape_code.SET_CURSOR_HOME
                :: (cell_update 4 (bufs c'')
                      <$> filter (fun index => ~ blank_cell (bufs c'') index) (seq 0 16)).
Proof.
  assert (H1 : 0 < 4) by lia.
  assert (H2 : 4 * 4 <= Int.max_signed) by (vm_compute; discriminate).
  destruct (updateDim_reinitialises 4 4 initial H1 H1 H2)
    as ((Hlen & _) & (_ & _ & HK1 & _) & _ & _ & Hnext).
  split; [exact Hlen|]. split; [exact HK1|].
  destruct (renderFrame 3 core4 trig_zero) as [[c'' out]|] eqn:E;
    [|vm_compute in E; discriminate].
  exists c'', out. split; [reflexivity|].
  apply (Hnext 3%nat trig_zero c'' out E).
Defined.

(** Against C8 as stated: after the change from 50 x 25 to 4 x 4 the next
    frame updates four of the sixteen cells; the twelve blank ones are
    skipped, so not every cell counts as changed. *)
Lemma updateDim_full_redraw_counterexample :
  exists c'' out,
    renderFrame 3 (fst (updateDim (mkDim2i 4 4) initial)) trig_zero = Some (c'', out)
    /\ out = [Print ANSI_escape_code.SET_CURSOR_HOME;
              PrintCell 2 2 ANSI_escape_code.color.RESET ANSI_escape_code.color.WHITE "!"%char;
              PrintCell 2 3 ANSI_escape_code.color.RESET ANSI_escape_code.color.WHITE "!"%char;
              PrintCell 3 2 ANSI_escape_code.color.RESET ANSI_escape_code.color.WHITE "!"%char;
              PrintCell 3 3 ANSI_escape_code.color.RESET ANSI_escape_code.color.WHITE "!"%char]
    /\ length (buffer (bufs c'')) = 16%nat
    /\ ~ full_redraw c'' out.
Proof.
  destruct (renderFrame 3 (fst (updateDim (mkDim2i 4 4) initial)) trig_zero)
    as [[c'' out]|] eqn:E; [|vm_compute in E; discriminate].
  exists c'', out. split; [reflexivity|].
  vm_compute in E. injection E as <- <-.
  split; [reflexivity|]. split; [reflexivity|].
  unfold full_redraw. intros H. apply (f_equal length) in H.
  vm_compute in H. discriminate.
Qed.

(** ** C6: grid lines *)

(** [u] lies in the open band of half-width [GRID_SPACING] around one of
    the two band centres. *)
Definition near_band_center (u : float) : Prop :=
  (F32.ltb (band_center_lo - GRID_SPACING)%f32 u = true
   /\ F32.ltb u (band_center_lo + GRID_SPACING)%f32 = true)
  \/ (F32.ltb (band_center_hi - GRID_SPACING)%f32 u = true
      /\ F32.ltb u (band_center_hi + GRID_SPACING)%f32 = true).

Lemma charColors_band (u v : float) (color1 color2 : color) :
  near_band_center u \/ near_band_center v ->
  charColors u v color1 color2 = (GRID_LINE_COLOR, GRID_LINE_COLOR).
Proof.
  unfold near_band_center, charColors, F32.gtb, F32.ltb.
  intros [[[H1 H2]|[H1 H2]]|[[H1 H2]|[H1 H2]]];
    repeat match goal with
    | |- (if ?c then _ else _) = _ => destruct c eqn:?; [reflexivity|]
    end;
    rewrite H1, H2 in *; discriminate.
Qed.

(** Outside the bands the face keeps its colours. *)
Lemma charColors_face (u v : float) (color1 color2 : color) :
  ~ near_band_center u -> ~ near_band_center v ->
  charColors u v color1 color2 = (color1, color2).
Proof.
  unfold near_band_center, charColors, F32.gtb, F32.ltb. intros Hu Hv.
  repeat match goal with
  | |- (if ?c then _ else _) = _ =>
      destruct c eqn:E; [apply andb_prop in E; exfalso; tauto|clear E]
  end.
  reflexivity.
Qed.




(** ** C4: projection *)

(** The states of the program: it starts from [initial]; a resize
    notification runs [updateDim] on the terminal size, two
    [unsigned short] counts, or on [{0, 0}]; the main loop runs
    [renderFrame]. *)
Inductive reachable : Core -> Prop :=
  | reach_initial : reachable initial
  | reach_updateDim (d : Dim2i) (c : Core) :
      0 <= dim_w d -> 0 <= dim_h d ->
      reachable c -> reachable (fst (updateDim d c))
  | reach_renderFrame (fuel : nat) (t : TrigCache) (c c' : Core) (out : list Output) :
      reachable c -> renderFrame fuel c t = Some (c', out) -> reachable c'.

(** [K1] and [SPACING] always belong to the current [WIDTH]. *)
Definition derived_constants (g : Globals) : Prop :=
  0 < WIDTH g /\ 0 < HEIGHT g
  /\ K1 g = computeK1 (WIDTH g) /\ SPACING g = computeSPACING (WIDTH g).

Lemma reachable_derived_constants (c : Core) :
  reachable c -> derived_constants (globals c).
Proof.
  induction 1 as [|d c Hw Hh Hc IH|fuel t c c' out Hc IH Hr].
  - unfold derived_constants. simpl. repeat split; reflexivity.
  - unfold updateDim.
    destruct (Z.eqb_spec (dim_w d) 0) as [|Hw0]; [exact IH|].
    destruct (Z.eqb_spec (dim_h d) 0) as [|Hh0]; [exact IH|].
    unfold derived_constants. simpl. repeat split; lia || reflexivity.
  - apply renderFrame_inv in Hr as (bA & bB & bC & _ & _ & _ & -> & _). exact IH.
Qed.

(** The projection in the words of the specification.  [K1] is
    [WIDTH*K2*3 / (8*sqrt(3)*CUBE_SIZE)] with [K2 = 10], the rotated point
    is the fused rotation of the point with coordinates [x = j], [y = i],
    [z = k], and a screen coordinate is truncated toward zero: sign and
    integer part of the magnitude [m * 2^e]. *)
Definition spec_K1 (width : Z) : float :=
  F64.to_float
    (F64.div (F64.of_float (F32.of_int width * F32.of_int 10 * F32.of_int 3)%f32)
             (F64.mul (F64.mul (F64.of_int 8) (F64.sqrt (F64.of_int 3)))
                      (F64.of_float CUBE_SIZE))).

Definition truncate_toward_zero (f : float) : Z :=
  match f with
  | S754_finite s m e => (if s then -1 else 1) * Z.shiftl (Zpos m) e
  | _ => 0
  end.

(** The values on which [static_cast<int>] is defined. *)
Definition fits_int (f : float) : Prop :=
  match f with
  | S754_zero _ => True
  | S754_finite _ _ _ => Int.min_signed <= truncate_toward_zero f <= Int.max_signed
  | _ => False
  end.

Definition spec_ooz (i j k : float) (t : TrigCache) : float :=
  (F32.of_int 1 / (vz (rotate t (mkVector3f j i k)) + F32.of_int 10))%f32.

Definition spec_screenX (width : Z) (i j k : float) (t : TrigCache) : float :=
  (F32.of_int (width / 2) + spec_K1 width * spec_ooz i j k t * vx (rotate t (mkVector3f j i k)))%f32.

Definition spec_screenY (width height : Z) (i j k : float) (t : TrigCache) : float :=
  (F32.of_int (height / 2) - spec_K1 width * spec_ooz i j k t * vy (rotate t (mkVector3f j i k)))%f32.

Lemma spec_K1_computeK1 (width : Z) : spec_K1 width = computeK1 width.
Proof.
  unfold spec_K1, computeK1.
  replace (F64.mul (F64.mul (F64.of_int 8) (F64.sqrt (F64.of_int 3))) (F64.of_float CUBE_SIZE))
    with (F64.mul (F64.of_int 8) (F64.mul (F64.sqrt (F64.of_int 3)) (F64.of_float CUBE_SIZE)))
    by (vm_compute; reflexivity).
  reflexivity.
Qed.

Lemma trunc_truncate (f : float) : Int.trunc f = truncate_toward_zero f.
Proof.
  destruct f as [| | |s m e]; try reflexivity.
  unfold Int.trunc, truncate_toward_zero.
  assert (Hm : (if 0 <=? e then Z.pos m * 2 ^ e else Z.pos m ÷ 2 ^ (- e))
               = Z.shiftl (Z.pos m) e).
  { destruct (Z.leb_spec 0 e).
    - rewrite Z.shiftl_mul_pow2 by lia. reflexivity.
    - rewrite Z.shiftl_div_pow2 by lia.
      rewrite Z.quot_div_nonneg; [reflexivity|lia|]. apply Z.pow_pos_nonneg; lia. }
  rewrite Hm. destruct s; lia.
Qed.

Lemma of_float_truncate (f : float) :
  fits_int f -> Int.of_float f = truncate_toward_zero f.
Proof.
  destruct f as [| | |s m e]; try (simpl; tauto).
  unfold fits_int, Int.of_float. intros [H1 H2].
  rewrite trunc_truncate. unfold Int.in_range.
  apply Z.leb_le in H1, H2. rewrite H1, H2. reflexivity.
Qed.

(** Truncation toward zero: the result has the sign of the float and its
    magnitude is the integer part of the float's magnitude [m * 2^e]. *)
Lemma truncate_toward_zero_spec (s : bool) (m : positive) (e : Z) :
  let n := truncate_toward_zero (S754_finite s m e) in
  (if s then n <= 0 else 0 <= n)
  /\ (0 <= e -> Z.abs n = Zpos m * 2 ^ e)
  /\ (e < 0 -> Z.abs n * 2 ^ (- e) <= Zpos m < (Z.abs n + 1) * 2 ^ (- e)).
Proof.
  cbv zeta. unfold truncate_toward_zero.
  assert (H0 : 0 <= Z.shiftl (Z.pos m) e) by (apply Z.shiftl_nonneg; lia).
  split; [destruct s; lia|]. split.
  - intros He. rewrite Z.shiftl_mul_pow2 in * by lia. destruct s; lia.
  - intros He. rewrite Z.shiftl_div_pow2 in * by lia.
    assert (Hp : 0 < 2 ^ (- e)) by (apply Z.pow_pos_nonneg; lia).
    pose proof (Z.mul_div_le (Z.pos m) _ Hp).
    pose proof (Z.mul_succ_div_gt (Z.pos m) _ Hp).
    replace (Z.abs ((if s then -1 else 1) * (Z.pos m / 2 ^ (- e))))
      with (Z.pos m / 2 ^ (- e)) by (destruct s; lia).
    lia.
Qed.

Lemma project_spec (g : Globals) (i j k : float) (t : TrigCache) :
  derived_constants g ->
  project g i j k t =
    let xp := Int.of_float (spec_screenX (WIDTH g) i j k t) in
    let yp := Int.of_float (spec_screenY (WIDTH g) (HEIGHT g) i j k t) in
    mkProjected (spec_ooz i j k t) xp yp (Int.add xp (Int.mul yp (WIDTH g))).
Proof.
  intros (Hw & Hh & HK1 & _).
  unfold project, spec_screenX, spec_screenY, spec_ooz, rotate, Int.div. cbv zeta.
  cbn [vx vy vz].
  rewrite (Z.quot_div_nonneg (WIDTH g) 2), (Z.quot_div_nonneg (HEIGHT g) 2) by lia.
  replace (K1 g) with (spec_K1 (WIDTH g)) by (rewrite spec_K1_computeK1; symmetry; exact HK1).
  reflexivity.
Qed.

(** C4.  In every state of the program, for every model-space point
    [(i, j, k)] and trig cache, [updateBuffers] works on the projection of
    the specification: the point is rotated, [z] is translated by
    [K2 = 10], [ooz = 1/z], [screenX = WIDTH/2 + K1*ooz*x] and
    [screenY = HEIGHT/2 - K1*ooz*y] with
    [K1 = WIDTH*K2*3 / (8*sqrt(3)*CUBE_SIZE)], and the cell coordinates are
    the screen coordinates truncated toward zero (where that conversion is
    defined).  The call is determined by these values: it writes the glyph,
    the colour and the depth [ooz] to the cell [xp + yp*WIDTH] exactly when
    that index lies in the buffer and [ooz] is above the depth stored
    there, and leaves the buffers otherwise. *)
Theorem projection_formula (c : Core) (i j k : float) (t : TrigCache) :
  reachable c ->
  K2 = F32.of_int 10
  /\ K1 (globals c) = spec_K1 (WIDTH (globals c))
  /\ p_ooz (project (globals c) i j k t) = spec_ooz i j k t
  /\ p_xp (project (globals c) i j k t)
     = Int.of_float (spec_screenX (WIDTH (globals c)) i j k t)
  /\ p_yp (project (globals c) i j k t)
     = Int.of_float (spec_screenY (WIDTH (globals c)) (HEIGHT (globals c)) i j k t)
  /\ (fits_int (spec_screenX (WIDTH (globals c)) i j k t) ->
      p_xp (project (globals c) i j k t)
      = truncate_toward_zero (spec_screenX (WIDTH (globals c)) i j k t))
  /\ (fits_int (spec_screenY (WIDTH (globals c)) (HEIGHT (globals c)) i j k t) ->
      p_yp (project (globals c) i j k t)
      = truncate_toward_zero (spec_screenY (WIDTH (globals c)) (HEIGHT (globals c)) i j k t))
  /\ (forall b co lum,
        let xp := Int.of_float (spec_screenX (WIDTH (globals c)) i j k t) in
        let yp := Int.of_float (spec_screenY (WIDTH (globals c)) (HEIGHT (globals c)) i j k t) in
        let index := Int.add xp (Int.mul yp (WIDTH (globals c))) in
        updateBuffers (globals c) i j k t b co lum
        = if (0 <=? index) && (index <? Z.of_nat (length (buffer b)))
             && F32.gtb (spec_ooz i j k t) (zbuffer b !!! Z.to_nat index)
          then write_cell b (Z.to_nat index) (ramp_at (glyph_index lum)) co (spec_ooz i j k t)
          else b).
Proof.
  intros Hc. apply reachable_derived_constants in Hc.
  pose proof (project_spec (globals c) i j k t Hc) as Hp. cbv zeta in Hp.
  destruct Hc as (Hw & Hh & HK1 & _).
  split; [reflexivity|].
  split; [rewrite spec_K1_computeK1; exact HK1|].
  rewrite Hp. cbn [p_ooz p_xp p_yp].
  split; [reflexivity|]. split; [reflexivity|]. split; [reflexivity|].
  split; [apply of_float_truncate|]. split; [apply of_float_truncate|].
  intros b co lum. unfold updateBuffers. rewrite Hp. cbn [p_ooz p_index].
  set (index := Int.add _ _).
  destruct ((0 <=? index) && (index <? Z.of_nat (length (buffer b)))); [|reflexivity].
  cbn [andb]. unfold write_cell.
  destruct (F32.gtb _ _); reflexivity.
Qed.

(** The state after the first resize to 4 x 4 and the corner point
    [(-1/2, -1/2, -1/2)]: column 1, row 2, so the call on the cleared
    frame writes cell 9. *)
Lemma projection_formula_witness :
  reachable core4
  /\ p_xp (project (globals core4) (- half)%f32 (- half)%f32 (- half)%f32 trig_zero)
     = truncate_toward_zero (spec_screenX 4 (- half)%f32 (- half)%f32 (- half)%f32 trig_zero)
  /\ truncate_toward_zero (spec_screenX 4 (- half)%f32 (- half)%f32 (- half)%f32 trig_zero) = 1
  /\ truncate_toward_zero (spec_screenY 4 4 (- half)%f32 (- half)%f32 (- half)%f32 trig_zero) = 2
  /\ cell (updateBuffers (globals core4) (- half)%f32 (- half)%f32 (- half)%f32 trig_zero
             (clearFrame (bufs core4)) ANSI_escape_code.color.RED CUBE_SIZE) 9
     = Some ("@"%char, ANSI_escape_code.color.RED,
             spec_ooz (- half)%f32 (- half)%f32 (- half)%f32 trig_zero).
Proof.
  assert (Hr : reachable core4)
    by (apply reach_updateDim; [vm_compute; discriminate .. | apply reach_initial]).
  split; [exact Hr|].
  destruct (projection_formula core4 (- half)%f32 (- half)%f32 (- half)%f32 trig_zero Hr)
    as (_ & _ & _ & _ & _ & Hx & _ & Hu).
  split; [apply Hx; vm_compute; split; discriminate|].
  split; [vm_compute; reflexivity|]. split; [vm_compute; reflexivity|].
  rewrite (Hu (clearFrame (bufs core4)) ANSI_escape_code.color.RED CUBE_SIZE).
  vm_compute. reflexivity.
Defined.

(** ** Normalisation: the two branches *)

Lemma normVector_float_scaled (v : Vector3f) :
  F32.gtb (getVectorMag v) F32.zero = true ->
  normVector v
  = mkVector3f (vx v * (F32.of_int 1 / getVectorMag v))%f32
               (vy v * (F32.of_int 1 / getVectorMag v))%f32
               (vz v * (F32.of_int 1 / getVectorMag v))%f32.
Proof.
  intros H. unfold normVector. cbv zeta.
  change (F32.of_int 0) with F32.zero.
  rewrite H. reflexivity.
Qed.

Lemma normVector_float_guard (v : Vector3f) :
  F32.gtb (getVectorMag v) F32.zero = false -> normVector v = v.
Proof.
  intros H. unfold normVector. cbv zeta.
  change (F32.of_int 0) with F32.zero.
  rewrite H. reflexivity.
Qed.

(** * Further properties of the rendering core *)

(** ** Rounding: what [binary_round_aux] computes *)

(** [iter_pos] iterates [Pos.to_nat p] times. *)
Lemma iter_pos_nat {A : Type} (f : A -> A) (p : positive) (x : A) :
  SpecFloat.iter_pos f p x = Nat.iter (Pos.to_nat p) f x.
Proof.
  revert x. induction p as [p IH|p IH|]; intros x; simpl SpecFloat.iter_pos.
  - rewrite !IH, Pos2Nat.inj_xI.
    replace (S (2 * Pos.to_nat p)) with (Pos.to_nat p + S (Pos.to_nat p))%nat by lia.
    rewrite Nat.iter_add, Nat.iter_succ_r. reflexivity.
  - rewrite !IH, Pos2Nat.inj_xO.
    replace (2 * Pos.to_nat p)%nat with (Pos.to_nat p + Pos.to_nat p)%nat by lia.
    rewrite Nat.iter_add. reflexivity.
  - reflexivity.
Qed.

(** One step of the shift: halve, remember the bit shifted out, and fold
    the previous round bit into the sticky bit. *)
Lemma shr_1_nonneg (m : Z) (r s : bool) :
  0 <= m ->
  shr_1 (Build_shr_record m r s) = Build_shr_record (m / 2) (Z.odd m) (r || s).
Proof.
  intros Hm. unfold shr_1.
  destruct m as [|p|p]; [reflexivity| |lia].
  destruct p as [p|p|]; simpl Z.odd.
  - f_equal. rewrite Pos2Z.inj_xI. apply Z.div_unique with 1; lia.
  - f_equal. rewrite Pos2Z.inj_xO. apply Z.div_unique with 0; lia.
  - reflexivity.
Qed.

(** The record after [k] shifts of [M]: the quotient, whether the remainder
    reaches the half, and whether anything lies below the round bit. *)
Definition shifted (M : Z) (k : nat) : shr_record :=
  match k with
  | O => Build_shr_record M false false
  | S k' =>
      Build_shr_record (M / 2 ^ Z.of_nat k)
                       (2 ^ Z.of_nat k' <=? M mod 2 ^ Z.of_nat k)
                       (negb (M mod 2 ^ Z.of_nat k' =? 0))
  end.

Lemma mod_pow2_succ (M : Z) (k : nat) :
  M mod 2 ^ Z.of_nat (S k)
  = M mod 2 ^ Z.of_nat k + 2 ^ Z.of_nat k * (if Z.odd (M / 2 ^ Z.of_nat k) then 1 else 0).
Proof.
  rewrite Nat2Z.inj_succ, Z.pow_succ_r by lia.
  rewrite (Z.mul_comm 2), Z.rem_mul_r by lia.
  rewrite Zmod_odd. reflexivity.
Qed.

Lemma shr_1_shifted (M : Z) (k : nat) :
  0 <= M -> shr_1 (shifted M k) = shifted M (S k).
Proof.
  intros HM.
  assert (Hq : forall j : nat, 0 <= M / 2 ^ Z.of_nat j)
    by (intros j; apply Z.div_pos; [lia|apply Z.pow_pos_nonneg; lia]).
  destruct k as [|k].
  - unfold shifted at 1. rewrite shr_1_nonneg by lia.
    unfold shifted. change (Z.of_nat 1) with 1. change (Z.of_nat 0) with 0.
    rewrite Z.pow_0_r, Z.pow_1_r, Z.mod_1_r, Zmod_odd. simpl.
    f_equal. destruct (Z.odd M); reflexivity.
  - unfold shifted at 1. rewrite shr_1_nonneg by apply Hq.
    unfold shifted.
    pose proof (mod_pow2_succ M (S k)) as H1.
    pose proof (mod_pow2_succ M k) as H2.
    assert (Hp : 0 < 2 ^ Z.of_nat k) by (apply Z.pow_pos_nonneg; lia).
    assert (Hp' : 0 < 2 ^ Z.of_nat (S k)) by (apply Z.pow_pos_nonneg; lia).
    pose proof (Z.mod_pos_bound M _ Hp) as B1.
    pose proof (Z.mod_pos_bound M _ Hp') as B2.
    f_equal.
    + rewrite Z.div_div by lia. f_equal.
      rewrite (Nat2Z.inj_succ (S k)), Z.pow_succ_r by lia. lia.
    + rewrite H1. destruct (Z.odd (M / 2 ^ Z.of_nat (S k))); symmetry.
      * apply Z.leb_le. lia.
      * apply Z.leb_gt. lia.
    + rewrite H2.
      destruct (Z.leb_spec (2 ^ Z.of_nat k) (M mod 2 ^ Z.of_nat (S k))) as [Hle|Hlt];
        rewrite H2 in *;
        destruct (Z.odd (M / 2 ^ Z.of_nat k));
        destruct (Z.eqb_spec (M mod 2 ^ Z.of_nat k) 0);
        simpl; try reflexivity;
        match goal with |- _ = negb (?a =? 0) => destruct (Z.eqb_spec a 0) end;
        simpl; try reflexivity; lia.
Qed.

Lemma iter_shr_1 (M : Z) (k : nat) :
  0 <= M -> Nat.iter k shr_1 (Build_shr_record M false false) = shifted M k.
Proof.
  intros HM. induction k as [|k IH]; [reflexivity|].
  rewrite Nat.iter_succ, IH. apply shr_1_shifted, HM.
Qed.

(** Rounding [M / 2^n] to the nearest integer, ties to even. *)
Definition rne (M n : Z) : Z :=
  let q := M / 2 ^ n in
  match M mod 2 ^ n ?= 2 ^ (n - 1) with
  | Lt => q
  | Eq => if Z.even q then q else q + 1
  | Gt => q + 1
  end.

Lemma round_shifted (M : Z) (k : nat) :
  0 <= M ->
  round_nearest_even (shr_m (shifted M (S k))) (loc_of_shr_record (shifted M (S k)))
  = rne M (Z.of_nat (S k)).
Proof.
  intros HM. unfold rne, shifted.
  replace (Z.of_nat (S k) - 1) with (Z.of_nat k) by lia.
  pose proof (mod_pow2_succ M k) as H1.
  assert (Hp : 0 < 2 ^ Z.of_nat k) by (apply Z.pow_pos_nonneg; lia).
  pose proof (Z.mod_pos_bound M _ Hp) as B1.
  cbn [shr_m loc_of_shr_record].
  destruct (Z.leb_spec (2 ^ Z.of_nat k) (M mod 2 ^ Z.of_nat (S k))) as [Hle|Hlt];
    destruct (Z.eqb_spec (M mod 2 ^ Z.of_nat k) 0) as [He|Hne]; cbn [negb];
    destruct (Z.compare_spec (M mod 2 ^ Z.of_nat (S k)) (2 ^ Z.of_nat k)) as [Hc|Hc|Hc];
    cbn [round_nearest_even]; try reflexivity;
    destruct (Z.odd (M / 2 ^ Z.of_nat k)); lia.
Qed.

Lemma digits2_pos_bounds (m : positive) :
  2 ^ (Zpos (digits2_pos m) - 1) <= Zpos m < 2 ^ Zpos (digits2_pos m).
Proof.
  induction m as [m IH|m IH|]; cbn [digits2_pos].
  - rewrite Pos2Z.inj_succ, (Pos2Z.inj_xI m).
    replace (Z.succ (Z.pos (digits2_pos m)) - 1) with (Z.succ (Z.pos (digits2_pos m) - 1)) by lia.
    rewrite !Z.pow_succ_r by lia. lia.
  - rewrite Pos2Z.inj_succ, (Pos2Z.inj_xO m).
    replace (Z.succ (Z.pos (digits2_pos m)) - 1) with (Z.succ (Z.pos (digits2_pos m) - 1)) by lia.
    rewrite !Z.pow_succ_r by lia. lia.
  - simpl. lia.
Qed.

(** The number of binary digits is monotone. *)
Lemma digits2_pos_le (m1 m2 : positive) :
  (m1 <= m2)%positive -> Zpos (digits2_pos m1) <= Zpos (digits2_pos m2).
Proof.
  intros H.
  pose proof (digits2_pos_bounds m1) as [L1 _].
  pose proof (digits2_pos_bounds m2) as [_ U2].
  destruct (Z_le_gt_dec (Zpos (digits2_pos m1)) (Zpos (digits2_pos m2))) as [|Hgt]; [assumption|].
  exfalso.
  assert (2 ^ Z.pos (digits2_pos m2) <= 2 ^ (Z.pos (digits2_pos m1) - 1))
    by (apply Z.pow_le_mono_r; lia).
  lia.
Qed.

Lemma digits2_pos_lt_pow (m : positive) (k : Z) :
  Zpos m < 2 ^ k -> Zpos (digits2_pos m) <= k.
Proof.
  intros H. pose proof (digits2_pos_bounds m) as [L _].
  destruct (Z_le_gt_dec (Zpos (digits2_pos m)) k) as [|Hgt]; [assumption|exfalso].
  assert (2 ^ k <= 2 ^ (Z.pos (digits2_pos m) - 1)) by (apply Z.pow_le_mono_r; lia).
  lia.
Qed.

Lemma digits2_pos_ge_pow (m : positive) (k : Z) :
  0 <= k -> 2 ^ k <= Zpos m -> k + 1 <= Zpos (digits2_pos m).
Proof.
  intros Hk H. pose proof (digits2_pos_bounds m) as [_ U].
  destruct (Z_le_gt_dec (k + 1) (Zpos (digits2_pos m))) as [|Hgt]; [assumption|exfalso].
  assert (2 ^ Z.pos (digits2_pos m) <= 2 ^ k) by (apply Z.pow_le_mono_r; lia).
  lia.
Qed.

(** The first shift of [binary_round_aux] on an exact positive mantissa. *)
Lemma shr_fexp_first (M : positive) (E : Z) (k : nat) :
  fexp F32.prec F32.emax (Zpos (digits2_pos M) + E) - E = Z.of_nat (S k) ->
  shr_fexp F32.prec F32.emax (Zpos M) E loc_Exact
  = (shifted (Zpos M) (S k), E + Z.of_nat (S k)).
Proof.
  intros Hn. unfold shr_fexp. cbn [Zdigits2 shr_record_of_loc]. rewrite Hn.
  unfold shr. rewrite Nat2Z.inj_succ. 
  destruct (Z.succ (Z.of_nat k)) as [|p|p] eqn:Ep; [lia| |lia].
  rewrite iter_pos_nat, iter_shr_1 by lia.
  replace (Pos.to_nat p) with (S k) by lia. reflexivity.
Qed.

(** The second shift only acts when rounding carried into a 25th bit. *)
Lemma shr_fexp_second (m1 e' : Z) :
  0 <= m1 <= 2 ^ 24 -> -149 <= e' ->
  shr_fexp F32.prec F32.emax m1 e' loc_Exact
  = if m1 =? 2 ^ 24 then (Build_shr_record (2 ^ 23) false false, e' + 1)
    else (Build_shr_record m1 false false, e').
Proof.
  intros Hm He. unfold shr_fexp. cbn [shr_record_of_loc].
  destruct (Z.eqb_spec m1 (2 ^ 24)) as [->|Hne].
  - change (Zdigits2 (2 ^ 24)) with 25.
    unfold fexp, emin, F32.prec, F32.emax.
    replace (Z.max (25 + e' - 24) (3 - 128 - 24) - e') with 1 by lia.
    reflexivity.
  - assert (Hd : Zdigits2 m1 <= 24).
    { destruct m1 as [|p|p]; [simpl; lia| |lia].
      cbn [Zdigits2]. apply digits2_pos_lt_pow. lia. }
    unfold fexp, emin, F32.prec, F32.emax.
    destruct (Z.max (Zdigits2 m1 + e' - 24) (3 - 128 - 24) - e') as [|p|p] eqn:En;
      [reflexivity|lia|reflexivity].
Qed.

Lemma rne_bounds (M n : Z) : M / 2 ^ n <= rne M n <= M / 2 ^ n + 1.
Proof.
  unfold rne. destruct (_ ?= _); [destruct (Z.even _)| |]; lia.
Qed.

(** Rounding reaches an even target [C] exactly when [M] is at least half a
    unit below it. *)
Lemma rne_ge_even (M n C : Z) :
  0 <= M -> 1 <= n -> Z.even C = true ->
  (C <= rne M n <-> C * 2 ^ n <= M + 2 ^ (n - 1)).
Proof.
  intros HM Hn HC.
  assert (Hp : 0 < 2 ^ n) by (apply Z.pow_pos_nonneg; lia).
  assert (Hh : 2 ^ n = 2 * 2 ^ (n - 1))
    by (rewrite <- Z.pow_succ_r by lia; f_equal; lia).
  assert (Hh0 : 0 < 2 ^ (n - 1)) by (apply Z.pow_pos_nonneg; lia).
  pose proof (Z.div_mod M (2 ^ n) ltac:(lia)) as Hdm.
  pose proof (Z.mod_pos_bound M (2 ^ n) Hp) as Hb.
  unfold rne. cbv zeta.
  set (q := M / 2 ^ n) in *. set (r := M mod 2 ^ n) in *.
  destruct (Z.compare_spec r (2 ^ (n - 1))) as [Heq|Hlt|Hgt].
  - destruct (Z.even q) eqn:Eq.
    + split; intros H; [nia|].
      destruct (Z_le_gt_dec C q); [assumption|exfalso].
      assert (C = q + 1) by nia. subst C.
      rewrite Z.even_add in HC. rewrite Eq in HC. discriminate.
    + split; intros H; nia.
  - split; intros H; nia.
  - split; intros H; nia.
Qed.

(** The single-precision rounding of the exact positive value [M * 2^E],
    when at least one bit is shifted out and the exponent stays in range. *)
Lemma binary_round_aux_rne (M : positive) (E : Z) (k : nat) :
  fexp F32.prec F32.emax (Zpos (digits2_pos M) + E) - E = Z.of_nat (S k) ->
  E + Z.of_nat (S k) + 1 <= 104 ->
  binary_round_aux F32.prec F32.emax false (Zpos M) E loc_Exact
  = match rne (Zpos M) (Z.of_nat (S k)) with
    | Z0 => S754_zero false
    | Zpos p =>
        if Zpos p =? 2 ^ 24 then S754_finite false (2 ^ 23)%positive (E + Z.of_nat (S k) + 1)
        else S754_finite false p (E + Z.of_nat (S k))
    | Zneg _ => S754_nan
    end.
Proof.
  intros Hn Hov.
  set (n := Z.of_nat (S k)) in *.
  assert (Hlow : -149 <= E + n).
  { rewrite <- Hn. unfold fexp, emin, F32.prec, F32.emax. lia. }
  assert (Hm1 : 0 <= rne (Zpos M) n <= 2 ^ 24).
  { pose proof (rne_bounds (Zpos M) n) as [L U].
    assert (Hp : 0 < 2 ^ n) by (apply Z.pow_pos_nonneg; lia).
    assert (0 <= Z.pos M / 2 ^ n) by (apply Z.div_pos; lia).
    split; [lia|].
    assert (Z.pos M / 2 ^ n < 2 ^ 24); [|lia].
    apply Z.div_lt_upper_bound; [lia|].
    pose proof (digits2_pos_bounds M) as [_ Ud].
    assert (Hd : Zpos (digits2_pos M) - 24 <= n).
    { rewrite <- Hn. unfold fexp, emin, F32.prec, F32.emax. lia. }
    rewrite <- Z.pow_add_r by lia.
    eapply Z.lt_le_trans; [exact Ud|]. apply Z.pow_le_mono_r; lia. }
  unfold binary_round_aux.
  rewrite (shr_fexp_first M E k Hn). fold n.
  rewrite (round_shifted (Zpos M) k) by lia. fold n.
  rewrite (shr_fexp_second _ _ Hm1 Hlow).
  destruct (Z.eqb_spec (rne (Z.pos M) n) (2 ^ 24)) as [E24|N24].
  - rewrite E24. cbn [shr_m]. change (2 ^ 24) with (Zpos (2 ^ 24)%positive).
    change (2 ^ 23) with (Zpos (2 ^ 23)%positive). cbv iota beta.
    rewrite Z.eqb_refl.
    destruct (Z.leb_spec (E + n + 1) (F32.emax - F32.prec)) as [|Hgt]; [reflexivity|].
    unfold F32.emax, F32.prec in Hgt. lia.
  - cbn [shr_m]. destruct (rne (Z.pos M) n) as [|p|p] eqn:Er; [reflexivity| |lia].
    destruct (Z.eqb_spec (Z.pos p) (2 ^ 24)); [contradiction|].
    destruct (Z.leb_spec (E + n) (F32.emax - F32.prec)) as [|Hgt]; [reflexivity|].
    unfold F32.emax, F32.prec in Hgt. lia.
Qed.

Lemma digits2_pos_mul (a b : positive) :
  Zpos (digits2_pos a) + Zpos (digits2_pos b) - 1 <= Zpos (digits2_pos (a * b))
  <= Zpos (digits2_pos a) + Zpos (digits2_pos b).
Proof.
  pose proof (digits2_pos_bounds a) as [La Ua].
  pose proof (digits2_pos_bounds b) as [Lb Ub].
  assert (0 < 2 ^ (Z.pos (digits2_pos a) - 1)) by (apply Z.pow_pos_nonneg; lia).
  assert (0 < 2 ^ (Z.pos (digits2_pos b) - 1)) by (apply Z.pow_pos_nonneg; lia).
  split.
  - replace (Z.pos (digits2_pos a) + Z.pos (digits2_pos b) - 1)
      with ((Z.pos (digits2_pos a) - 1 + (Z.pos (digits2_pos b) - 1)) + 1) by lia.
    apply digits2_pos_ge_pow; [lia|].
    rewrite Z.pow_add_r by lia. rewrite Pos2Z.inj_mul. nia.
  - apply digits2_pos_lt_pow. rewrite Z.pow_add_r by lia. rewrite Pos2Z.inj_mul. nia.
Qed.

(** A canonical single-precision mantissa has 24 bits, or the exponent is
    the least one. *)
Lemma bounded_cases (m : positive) (e : Z) :
  SpecFloat.bounded F32.prec F32.emax m e = true ->
  (Zpos (digits2_pos m) = 24 /\ -149 <= e <= 104)
  \/ (Zpos (digits2_pos m) <= 24 /\ e = -149).
Proof.
  unfold SpecFloat.bounded, canonical_mantissa, fexp, emin, F32.prec, F32.emax.
  intros H. apply andb_prop in H as [H1 H2].
  apply Z.eqb_eq in H1. apply Z.leb_le in H2. lia.
Qed.

(** The mantissa of [11.0f]. *)
Definition eleven_mantissa : positive := 11534336.

Lemma of_int_11 : F32.of_int 11 = S754_finite false eleven_mantissa (-20).
Proof. vm_compute. reflexivity. Qed.

(** The exponent of the unit in the last place of the product of a
    canonical positive float [(m, e)] with 11. *)
Definition product_ulp_exp (m : positive) (e : Z) : Z :=
  fexp F32.prec F32.emax (Zpos (digits2_pos (m * eleven_mantissa)) + (e - 20)).

Lemma product_ulp_exp_bounds (m : positive) (e : Z) :
  SpecFloat.bounded F32.prec F32.emax m e = true -> e <= -23 ->
  e <= product_ulp_exp m e <= -19 /\ -149 <= product_ulp_exp m e.
Proof.
  intros Hb He. unfold product_ulp_exp, fexp, emin, F32.prec, F32.emax.
  pose proof (digits2_pos_mul m eleven_mantissa) as [L U].
  change (Z.pos (digits2_pos eleven_mantissa)) with 24 in *.
  destruct (bounded_cases m e Hb) as [[Hd Hr]|[Hd Hr]]; lia.
Qed.

Lemma div_ge_iff (a b c : Z) : 0 < b -> (c <= a / b <-> c * b <= a).
Proof.
  intros Hb. pose proof (Z.div_mod a b ltac:(lia)). pose proof (Z.mod_pos_bound a b Hb).
  split; intros; nia.
Qed.

(** The glyph index of a canonical float in (0, 1]: the exact product with
    11, rounded to nearest even at the product's unit in the last place,
    then truncated. *)
Lemma glyph_index_rne (m : positive) (e : Z) :
  SpecFloat.bounded F32.prec F32.emax m e = true -> e <= -23 ->
  let t := product_ulp_exp m e in
  (S754_finite false m e * F32.of_int 11)%f32
  = match rne (Zpos (m * eleven_mantissa)) (t - (e - 20)) with
    | Z0 => S754_zero false
    | Zpos p =>
        if Zpos p =? 2 ^ 24 then S754_finite false (2 ^ 23)%positive (t + 1)
        else S754_finite false p t
    | Zneg _ => S754_nan
    end
  /\ glyph_index (S754_finite false m e)
     = rne (Zpos (m * eleven_mantissa)) (t - (e - 20)) / 2 ^ (- t)
  /\ 0 <= rne (Zpos (m * eleven_mantissa)) (t - (e - 20)) <= 2 ^ 24.
Proof.
  intros Hb He t.
  destruct (product_ulp_exp_bounds m e Hb He) as [[Ht1 Ht2] Ht3]. fold t in Ht1, Ht2, Ht3.
  set (M := (m * eleven_mantissa)%positive) in *.
  assert (Hk : exists k : nat, t - (e - 20) = Z.of_nat (S k)).
  { exists (Z.to_nat (t - (e - 20) - 1)). lia. }
  destruct Hk as [k Hk].
  assert (Hn : fexp F32.prec F32.emax (Zpos (digits2_pos M) + (e - 20)) - (e - 20) = Z.of_nat (S k))
    by (rewrite <- Hk; reflexivity).
  assert (Hov : (e - 20) + Z.of_nat (S k) + 1 <= 104) by lia.
  pose proof (binary_round_aux_rne M (e - 20) k Hn Hov) as Hr.
  rewrite <- Hk in Hr. replace (e - 20 + (t - (e - 20))) with t in Hr by lia.
  assert (Hmul : (S754_finite false m e * F32.of_int 11)%f32
                 = binary_round_aux F32.prec F32.emax false (Zpos M) (e - 20) loc_Exact).
  { rewrite of_int_11. reflexivity. }
  assert (Hm1 : 0 <= rne (Zpos M) (t - (e - 20)) <= 2 ^ 24).
  { pose proof (rne_bounds (Zpos M) (t - (e - 20))) as [L U].
    assert (Hp : 0 < 2 ^ (t - (e - 20))) by (apply Z.pow_pos_nonneg; lia).
    assert (0 <= Z.pos M / 2 ^ (t - (e - 20))) by (apply Z.div_pos; lia).
    split; [lia|].
    assert (Z.pos M / 2 ^ (t - (e - 20)) < 2 ^ 24); [|lia].
    apply Z.div_lt_upper_bound; [lia|].
    pose proof (digits2_pos_bounds M) as [_ Ud].
    rewrite <- Z.pow_add_r by lia.
    eapply Z.lt_le_trans; [exact Ud|]. apply Z.pow_le_mono_r; [lia|].
    unfold t, product_ulp_exp, fexp, emin, F32.prec, F32.emax. fold M. lia. }
  split; [rewrite Hmul; exact Hr|]. split; [|exact Hm1].
  unfold glyph_index. cbv zeta.
  change (F32.gtb (S754_finite false m e) F32.zero) with true. cbv iota.
  rewrite Hmul, Hr.
  destruct (rne (Z.pos M) (t - (e - 20))) as [|p|p] eqn:Er; [reflexivity| |lia].
  assert (H2t : 0 < 2 ^ (- t)) by (apply Z.pow_pos_nonneg; lia).
  destruct (Z.eqb_spec (Z.pos p) (2 ^ 24)) as [E24|N24].
  - (* carry into the next binade *)
    rewrite E24.
    assert (Hv : Int.trunc (S754_finite false (2 ^ 23)%positive (t + 1)) = 2 ^ 24 / 2 ^ (- t)).
    { unfold Int.trunc.
      destruct (Z.leb_spec 0 (t + 1)) as [|Hneg]; [lia|].
      rewrite Z.quot_div_nonneg by (try apply Z.pow_pos_nonneg; lia).
      replace (- t) with (Z.succ (- (t + 1))) by lia.
      rewrite Z.pow_succ_r by lia.
      change (2 ^ 24) with (2 * 2 ^ 23).
      rewrite Z.div_mul_cancel_l; [reflexivity| |lia].
      apply Z.pow_nonzero; lia. }
    unfold Int.of_float. rewrite Hv.
    assert (0 <= 2 ^ 24 / 2 ^ (- t) <= 2 ^ 24).
    { split; [apply Z.div_pos; lia|]. apply Z.div_le_upper_bound; [lia|]. nia. }
    unfold Int.in_range, Int.min_signed, Int.max_signed.
    destruct (Z.leb_spec (- 2 ^ 31) (2 ^ 24 / 2 ^ (- t)));
      destruct (Z.leb_spec (2 ^ 24 / 2 ^ (- t)) (2 ^ 31 - 1)); simpl; try reflexivity; lia.
  - assert (Hv : Int.trunc (S754_finite false p t) = Z.pos p / 2 ^ (- t)).
    { unfold Int.trunc. destruct (Z.leb_spec 0 t) as [|Hneg]; [lia|].
      rewrite Z.quot_div_nonneg by lia. reflexivity. }
    unfold Int.of_float. rewrite Hv.
    assert (0 <= Z.pos p / 2 ^ (- t) <= 2 ^ 24).
    { split; [apply Z.div_pos; lia|]. apply Z.div_le_upper_bound; [lia|]. nia. }
    unfold Int.in_range, Int.min_signed, Int.max_signed.
    destruct (Z.leb_spec (- 2 ^ 31) (Z.pos p / 2 ^ (- t)));
      destruct (Z.leb_spec (Z.pos p / 2 ^ (- t)) (2 ^ 31 - 1)); simpl; try reflexivity; lia.
Qed.

(** [floor] of a float: the greatest integer not above [+-m * 2^e]. *)
Definition floor_float (f : float) : Z :=
  match f with
  | S754_finite s m e => Z.shiftl (if s then Zneg m else Zpos m) e
  | _ => 0
  end.

Lemma glyph_index_floor (m : positive) (e : Z) :
  SpecFloat.bounded F32.prec F32.emax m e = true -> e <= -23 ->
  glyph_index (S754_finite false m e)
  = floor_float (S754_finite false m e * F32.of_int 11)%f32.
Proof.
  intros Hb He.
  destruct (glyph_index_rne m e Hb He) as (Hprod & Hidx & Hm1).
  destruct (product_ulp_exp_bounds m e Hb He) as [[Ht1 Ht2] Ht3].
  cbv zeta in *. rewrite Hidx, Hprod.
  set (t := product_ulp_exp m e) in *.
  destruct (rne _ _) as [|p|p]; [reflexivity| |lia].
  destruct (Z.eqb_spec (Z.pos p) (2 ^ 24)) as [E24|N24]; unfold floor_float.
  - rewrite E24, Z.shiftl_div_pow2 by lia.
    replace (- t) with (Z.succ (- (t + 1))) by lia.
    rewrite Z.pow_succ_r by lia.
    change (2 ^ 24) with (2 * 2 ^ 23).
    rewrite Z.div_mul_cancel_l; [reflexivity| |lia].
    apply Z.pow_nonzero; lia.
  - rewrite Z.shiftl_div_pow2 by lia. reflexivity.
Qed.

(** How far the exact product, plus half a unit in its last place, reaches,
    in units of [2^-169]. *)
Definition reach (m : positive) (e : Z) : Z :=
  Zpos (m * eleven_mantissa) * 2 ^ (e + 149) + 2 ^ (product_ulp_exp m e + 168).

Lemma glyph_index_ge_iff (m : positive) (e : Z) (c : Z) :
  SpecFloat.bounded F32.prec F32.emax m e = true -> e <= -23 ->
  (c <= glyph_index (S754_finite false m e) <-> c * 2 ^ 169 <= reach m e).
Proof.
  intros Hb He.
  destruct (glyph_index_rne m e Hb He) as (_ & Hidx & _).
  destruct (product_ulp_exp_bounds m e Hb He) as [[Ht1 Ht2] Ht3].
  assert (He' : -149 <= e) by (destruct (bounded_cases m e Hb) as [[_ ?]|[_ ?]]; lia).
  cbv zeta in Hidx. rewrite Hidx. unfold reach.
  set (t := product_ulp_exp m e) in *.
  set (M := Zpos (m * eleven_mantissa)).
  assert (H2t : 0 < 2 ^ (- t)) by (apply Z.pow_pos_nonneg; lia).
  rewrite div_ge_iff by exact H2t.
  assert (Hev : Z.even (c * 2 ^ (- t)) = true).
  { replace (- t) with (Z.succ (- t - 1)) by lia.
    rewrite Z.pow_succ_r by lia. rewrite Z.even_mul, Z.even_mul. simpl.
    apply orb_true_r. }
  rewrite (rne_ge_even M (t - (e - 20)) (c * 2 ^ (- t))) by (unfold M; lia || exact Hev).
  assert (Hs : 0 < 2 ^ (e + 149)) by (apply Z.pow_pos_nonneg; lia).
  assert (E1 : c * 2 ^ (- t) * 2 ^ (t - (e - 20)) * 2 ^ (e + 149) = c * 2 ^ 169).
  { rewrite <- !Z.mul_assoc, <- !Z.pow_add_r by lia. f_equal. f_equal. lia. }
  assert (E2 : 2 ^ (t - (e - 20) - 1) * 2 ^ (e + 149) = 2 ^ (t + 168)).
  { rewrite <- Z.pow_add_r by lia. f_equal. lia. }
  rewrite <- E1, <- E2. split; intros H; nia.
Qed.

(** [reach] grows with the float. *)
Lemma reach_mono (m1 : positive) (e1 : Z) (m2 : positive) (e2 : Z) :
  SpecFloat.bounded F32.prec F32.emax m1 e1 = true ->
  SpecFloat.bounded F32.prec F32.emax m2 e2 = true ->
  F32.leb (S754_finite false m1 e1) (S754_finite false m2 e2) = true ->
  reach m1 e1 <= reach m2 e2.
Proof.
  intros Hb1 Hb2 Hle.
  assert (Hcases : e1 < e2 \/ (e1 = e2 /\ (m1 <= m2)%positive)).
  { revert Hle. unfold F32.leb, SFleb, SFcompare.
    destruct (Z.compare_spec e1 e2) as [He|He|He]; [|left; assumption|discriminate].
    change (PosDef.Pos.compare_cont Eq m1 m2) with (Pos.compare m1 m2).
    destruct (Pos.compare_spec m1 m2); intros; try discriminate; right; split; lia. }
  pose proof (digits2_pos_mul m1 eleven_mantissa) as [L1 U1].
  pose proof (digits2_pos_mul m2 eleven_mantissa) as [L2 U2].
  change (Z.pos (digits2_pos eleven_mantissa)) with 24 in *.
  assert (Hlow1 : -149 <= e1) by (destruct (bounded_cases m1 e1 Hb1) as [[_ ?]|[_ ?]]; lia).
  unfold reach, product_ulp_exp, fexp, emin, F32.prec, F32.emax.
  destruct Hcases as [Hlt|[-> Hm]].
  - destruct (bounded_cases m2 e2 Hb2) as [[Hd2 Hr2]|[Hd2 Hr2]]; [|lia].
    assert (Hd1 : Zpos (digits2_pos m1) <= 24)
      by (destruct (bounded_cases m1 e1 Hb1) as [[? _]|[? _]]; lia).
    apply Z.add_le_mono.
    + pose proof (digits2_pos_bounds m1) as [_ Um1].
      pose proof (digits2_pos_bounds m2) as [Lm2 _].
      rewrite Hd2 in Lm2. change (2 ^ (24 - 1)) with (2 ^ 23) in Lm2.
      assert (Zpos m1 < 2 ^ 24)
        by (eapply Z.lt_le_trans; [exact Um1|apply Z.pow_le_mono_r; lia]).
      assert (Hp : 2 * 2 ^ (e1 + 149) <= 2 ^ (e2 + 149)).
      { rewrite <- Z.pow_succ_r by lia. apply Z.pow_le_mono_r; lia. }
      assert (0 < 2 ^ (e1 + 149)) by (apply Z.pow_pos_nonneg; lia).
      rewrite !Pos2Z.inj_mul.
      change (2 ^ 24) with (2 * 2 ^ 23) in *.
      assert (Z.pos m1 * 2 ^ (e1 + 149) <= Z.pos m2 * 2 ^ (e2 + 149)) by nia.
      nia.
    + apply Z.pow_le_mono_r; lia.
  - apply Z.add_le_mono.
    + apply Z.mul_le_mono_nonneg_r; [apply Z.pow_nonneg; lia|].
      rewrite !Pos2Z.inj_mul. nia.
    + apply Z.pow_le_mono_r; [lia|].
      assert (Zpos (digits2_pos (m1 * eleven_mantissa)) <= Zpos (digits2_pos (m2 * eleven_mantissa)))
        by (apply digits2_pos_le; nia).
      lia.
Qed.

(** The glyph index grows with the luminance on (0, 1]. *)
Lemma glyph_index_mono (m1 : positive) (e1 : Z) (m2 : positive) (e2 : Z) :
  SpecFloat.bounded F32.prec F32.emax m1 e1 = true ->
  SpecFloat.bounded F32.prec F32.emax m2 e2 = true ->
  F32.leb (S754_finite false m1 e1) (S754_finite false m2 e2) = true ->
  e2 <= -23 ->
  glyph_index (S754_finite false m1 e1) <= glyph_index (S754_finite false m2 e2).
Proof.
  intros Hb1 Hb2 Hle He2.
  assert (He1 : e1 <= -23).
  { revert Hle. unfold F32.leb, SFleb, SFcompare.
    destruct (Z.compare_spec e1 e2); cbn; intros; try discriminate; lia. }
  apply (glyph_index_ge_iff m2 e2 _ Hb2 He2).
  apply Z.le_trans with (reach m1 e1); [|apply reach_mono; assumption].
  apply (glyph_index_ge_iff m1 e1 _ Hb1 He1). lia.
Qed.

(** Two positive finite floats, the second not below the first. *)
Lemma finite_not_ltb (m1 : positive) (e1 : Z) (m : positive) (e : Z) :
  F32.ltb (S754_finite false m1 e1) (S754_finite false m e) = false ->
  (e < e1 \/ (e = e1 /\ (m <= m1)%positive))
  /\ F32.leb (S754_finite false m e) (S754_finite false m1 e1) = true.
Proof.
  unfold F32.ltb, F32.leb, SFltb, SFleb, SFcompare.
  change (PosDef.Pos.compare_cont Eq m1 m) with (Pos.compare m1 m).
  change (PosDef.Pos.compare_cont Eq m m1) with (Pos.compare m m1).
  rewrite (Z.compare_antisym e1 e), (Pos.compare_antisym m1 m).
  destruct (Z.compare_spec e1 e) as [He|He|He]; cbn; try discriminate.
  - destruct (Pos.compare_spec m1 m) as [Hm|Hm|Hm]; cbn; try discriminate; intros _.
    + split; [right; split; [congruence|lia]|reflexivity].
    + split; [right; split; [congruence|lia]|reflexivity].
  - intros _. split; [left; lia|reflexivity].
Qed.

Lemma CUBE_SIZE_eq : CUBE_SIZE = S754_finite false 8388608 (-23).
Proof. vm_compute. reflexivity. Qed.

(** A canonical positive float that is not above 1 has exponent at most
    -23 and is at most 1. *)
Lemma not_above_one (m : positive) (e : Z) :
  SpecFloat.bounded F32.prec F32.emax m e = true ->
  F32.gtb (S754_finite false m e) CUBE_SIZE = false ->
  e <= -23 /\ F32.leb (S754_finite false m e) CUBE_SIZE = true.
Proof.
  intros Hb. rewrite CUBE_SIZE_eq. unfold F32.gtb. intros H.
  destruct (finite_not_ltb _ _ _ _ H) as [Hc Hle].
  split; [|exact Hle]. clear Hb H Hle. destruct Hc as [Hc|[Hc _]]; lia.
Qed.

Lemma glyph_index_not_positive (lum : float) :
  F32.gtb lum F32.zero = false -> glyph_index lum = 0.
Proof. intros H. unfold glyph_index. cbv zeta. rewrite H. reflexivity. Qed.

Lemma glyph_index_one : glyph_index CUBE_SIZE = 11.
Proof. vm_compute. reflexivity. Qed.

Lemma glyph_index_range (lum : float) :
  valid_binary F32.prec F32.emax lum = true ->
  F32.gtb lum CUBE_SIZE = false ->
  0 <= glyph_index lum <= 11.
Proof.
  intros Hv H1.
  destruct lum as [s|s| |s m e];
    try (rewrite glyph_index_not_positive by (destruct s; reflexivity); lia);
    try (rewrite glyph_index_not_positive by reflexivity; lia).
  - destruct s; [|vm_compute in H1; discriminate H1].
    rewrite glyph_index_not_positive by reflexivity. lia.
  - destruct s; [rewrite glyph_index_not_positive by reflexivity; lia|].
    cbn [valid_binary] in Hv.
    destruct (not_above_one m e Hv H1) as [He Hle].
    split.
    + apply (glyph_index_ge_iff m e 0 Hv He). unfold reach.
      assert (0 < 2 ^ (product_ulp_exp m e + 168)).
      { apply Z.pow_pos_nonneg; [lia|].
        destruct (product_ulp_exp_bounds m e Hv He) as [_ ?]. lia. }
      assert (0 <= 2 ^ (e + 149)) by (apply Z.pow_nonneg; lia).
      nia.
    + rewrite <- glyph_index_one. rewrite CUBE_SIZE_eq in *.
      apply glyph_index_mono; [exact Hv|vm_compute; reflexivity|exact Hle|lia].
Qed.

(** The twelve glyphs. *)
Definition ramp_glyphs : list ascii :=
  ["."; ","; "-"; "~"; ":"; ";"; "="; "!"; "*"; "#"; "$"; "@"]%char.

Lemma ramp_at_glyph (n : Z) :
  0 <= n <= 11 -> ramp_glyphs !! Z.to_nat n = Some (ramp_at n).
Proof.
  intros H. unfold ramp_at.
  destruct (Z.ltb_spec n 0) as [Hneg|_]; [lia|].
  assert (Hk : (Z.to_nat n < 12)%nat) by lia.
  generalize dependent (Z.to_nat n). intros k Hk.
  do 12 (destruct k as [|k]; [reflexivity|]). lia.
Qed.

(** The glyph selection never leaves the ramp.  For every canonical
    luminance that is not greater than 1 -- negative values, zeros and NaN
    included -- the index used on the string literal lies between 0 and 11,
    so the glyph written is one of the twelve ramp glyphs; when the
    luminance is not greater than 0 it is the faintest glyph, and on
    (0, 1] the index is the floor of the single-precision product
    [luminance * 11]. *)
Theorem glyph_selection_in_ramp (lum : float) :
  valid_binary F32.prec F32.emax lum = true ->
  F32.gtb lum CUBE_SIZE = false ->
  0 <= glyph_index lum <= 11
  /\ ramp_glyphs !! Z.to_nat (glyph_index lum) = Some (ramp_at (glyph_index lum))
  /\ (F32.gtb lum F32.zero = false -> ramp_at (glyph_index lum) = "."%char)
  /\ (F32.gtb lum F32.zero = true ->
      glyph_index lum = floor_float (lum * F32.of_int 11)%f32).
Proof.
  intros Hv H1.
  pose proof (glyph_index_range lum Hv H1) as Hr.
  split; [exact Hr|]. split; [apply ramp_at_glyph, Hr|]. split.
  - intros H0. rewrite glyph_index_not_positive by exact H0. reflexivity.
  - intros H0. destruct lum as [s|s| |s m e].
    + destruct s; discriminate H0.
    + destruct s; [discriminate H0|vm_compute in H1; discriminate H1].
    + discriminate H0.
    + destruct s; [discriminate H0|].
      cbn [valid_binary] in Hv.
      destruct (not_above_one m e Hv H1) as [He _].
      apply glyph_index_floor; assumption.
Qed.

(** Luminance 0.7 (the white face under zero angles) and luminance -0.7. *)
Lemma glyph_selection_in_ramp_witness :
  glyph_index (F32.lit 7 10) = 7
  /\ ramp_at (glyph_index (F32.lit 7 10)) = "!"%char
  /\ ramp_at (glyph_index (F32.lit (-7) 10)) = "."%char.
Proof.
  assert (Hv : valid_binary F32.prec F32.emax (F32.lit (-7) 10) = true) by (vm_compute; reflexivity).
  assert (H1 : F32.gtb (F32.lit (-7) 10) CUBE_SIZE = false) by (vm_compute; reflexivity).
  destruct (glyph_selection_in_ramp _ Hv H1) as (_ & _ & Hneg & _).
  split; [vm_compute; reflexivity|]. split; [vm_compute; reflexivity|].
  apply Hneg. vm_compute. reflexivity.
Defined.

(** The glyph index does not decrease when the luminance increases: for
    canonical luminances [0 < l1 <= l2 <= 1] the index selected for [l1]
    is at most the one selected for [l2]. *)
Theorem glyph_selection_monotone (l1 l2 : float) :
  valid_binary F32.prec F32.emax l1 = true ->
  valid_binary F32.prec F32.emax l2 = true ->
  F32.gtb l1 F32.zero = true ->
  F32.leb l1 l2 = true ->
  F32.leb l2 CUBE_SIZE = true ->
  glyph_index l1 <= glyph_index l2.
Proof.
  intros Hv1 Hv2 H0 H12 H21.
  destruct l1 as [s1|s1| |s1 m1 e1].
  { destruct s1; discriminate H0. }
  { destruct s1; [discriminate H0|].
    destruct l2 as [s2|s2| |s2 m2 e2]; try discriminate H12.
    destruct s2; [discriminate H12|vm_compute in H21; discriminate H21]. }
  { discriminate H0. }
  destruct s1; [discriminate H0|].
  destruct l2 as [s2|s2| |s2 m2 e2].
  - destruct s2; discriminate H12.
  - destruct s2; [discriminate H12|vm_compute in H21; discriminate H21].
  - discriminate H12.
  - destruct s2; [discriminate H12|].
    cbn [valid_binary] in Hv1, Hv2.
    assert (He2 : e2 <= -23).
    { apply (not_above_one m2 e2 Hv2). apply leb_not_gtb. exact H21. }
    apply glyph_index_mono; assumption.
Qed.

Lemma glyph_selection_monotone_witness :
  glyph_index (F32.lit 1 2) <= glyph_index (F32.lit 7 10).
Proof.
  apply glyph_selection_monotone; vm_compute; reflexivity.
Defined.

(** ** C2: the glyph written *)




(** ** One call of [updateBuffers] *)

(** A call never resizes a buffer and touches no cell but the one its
    point projects to: every cell whose position is not the computed
    linear index keeps glyph, depth and colour. *)
Theorem updateBuffers_other_cells (g : Globals) (i j k : float) (t : TrigCache)
    (b : FrameBufs) (co : color) (lum : float) :
  lengths (updateBuffers g i j k t b co lum) = lengths b
  /\ forall n : nat,
       Z.of_nat n <> p_index (project g i j k t) ->
       buffer (updateBuffers g i j k t b co lum) !! n = buffer b !! n
       /\ zbuffer (updateBuffers g i j k t b co lum) !! n = zbuffer b !! n
       /\ cbuffer (updateBuffers g i j k t b co lum) !! n = cbuffer b !! n.
Proof.
  split; [apply updateBuffers_lengths|].
  intros n Hn. unfold updateBuffers.
  destruct (0 <=? p_index (project g i j k t)) eqn:E0; [|auto].
  destruct (_ <? _); [|auto]. cbn [andb].
  destruct (F32.gtb _ _); [|auto].
  apply Z.leb_le in E0.
  cbn [buffer zbuffer cbuffer].
  rewrite !list_lookup_insert_ne by lia. auto.
Qed.

Lemma updateBuffers_other_cells_witness :
  let b := updateBuffers (globals core4) (- half)%f32 (- half)%f32 (- half)%f32 trig_zero
             (bufs core4) ANSI_escape_code.color.WHITE half in
  p_index (project (globals core4) (- half)%f32 (- half)%f32 (- half)%f32 trig_zero) = 9
  /\ buffer b !! 9%nat = Some ";"%char
  /\ buffer b !! 10%nat = buffer (bufs core4) !! 10%nat.
Proof.
  intros b. split; [vm_compute; reflexivity|]. split; [vm_compute; reflexivity|].
  apply updateBuffers_other_cells. vm_compute. discriminate.
Defined.

(** Repeating a call changes nothing: the second call meets the depth it
    stored itself, and a depth is not greater than itself. *)
Theorem updateBuffers_idempotent (g : Globals) (i j k : float) (t : TrigCache)
    (b : FrameBufs) (co : color) (lum : float) :
  updateBuffers g i j k t (updateBuffers g i j k t b co lum) co lum
  = updateBuffers g i j k t b co lum.
Proof.
  destruct (Z_lt_ge_dec (p_index (project g i j k t)) 0) as [Hneg|Hpos];
    [rewrite !(updateBuffers_out g i j k t b co lum) by (left; exact Hneg); reflexivity|].
  destruct (Z_lt_ge_dec (p_index (project g i j k t)) (Z.of_nat (length (buffer b)))) as [Hlt|Hge];
    [|rewrite !(updateBuffers_out g i j k t b co lum) by (right; lia); reflexivity].
  set (n := Z.to_nat (p_index (project g i j k t))).
  assert (En : p_index (project g i j k t) = Z.of_nat n) by (unfold n; lia).
  assert (Hn : (n < length (buffer b))%nat) by lia.
  rewrite (updateBuffers_at g i j k t b co lum n En Hn).
  destruct (F32.ltb (zbuffer b !!! n) (p_ooz (project g i j k t))) eqn:Hgt.
  - assert (Hn' : (n < length (buffer (write_cell b n (ramp_at (glyph_index lum)) co
                                       (p_ooz (project g i j k t)))))%nat)
      by (rewrite length_buffer_write; exact Hn).
    rewrite (updateBuffers_at g i j k t _ co lum n En Hn').
    match goal with |- (if ?c then _ else _) = _ => destruct c end; [|reflexivity].
    unfold write_cell. cbn [buffer zbuffer cbuffer].
    rewrite !list_insert_insert_eq. reflexivity.
  - rewrite (updateBuffers_at g i j k t b co lum n En Hn), Hgt. reflexivity.
Qed.

(** ** Sequences of calls: the nearest point wins *)

(** The arguments of one call of [updateBuffers] within a frame (the
    globals, the trig cache and the buffers are the frame's). *)
Record Call := mkCall {
  call_i : float; call_j : float; call_k : float;
  call_color : color; call_luminance : float
}.

Definition apply_call (g : Globals) (t : TrigCache) (b : FrameBufs) (c : Call) : FrameBufs :=
  updateBuffers g (call_i c) (call_j c) (call_k c) t b (call_color c) (call_luminance c).

(** Calls made one after the other. *)
Definition run_calls (g : Globals) (t : TrigCache) (cs : list Call) (b : FrameBufs) : FrameBufs :=
  fold_left (apply_call g t) cs b.

Definition call_index (g : Globals) (t : TrigCache) (c : Call) : Z :=
  p_index (project g (call_i c) (call_j c) (call_k c) t).

Definition call_ooz (g : Globals) (t : TrigCache) (c : Call) : float :=
  p_ooz (project g (call_i c) (call_j c) (call_k c) t).

(** What a call wrote into the cell it won. *)
Definition call_cell (g : Globals) (t : TrigCache) (c : Call) : ascii * color * float :=
  (ramp_at (glyph_index (call_luminance c)), call_color c, call_ooz g t c).

Lemma apply_call_cases (g : Globals) (t : TrigCache) (b : FrameBufs) (c : Call) :
  apply_call g t b c = b
  \/ exists m : nat,
       call_index g t c = Z.of_nat m /\ (m < length (buffer b))%nat
       /\ F32.ltb (zbuffer b !!! m) (call_ooz g t c) = true
       /\ apply_call g t b c
          = write_cell b m (ramp_at (glyph_index (call_luminance c))) (call_color c) (call_ooz g t c).
Proof.
  unfold apply_call, call_index, call_ooz.
  set (p := project g (call_i c) (call_j c) (call_k c) t).
  destruct (Z_lt_ge_dec (p_index p) 0) as [Hneg|Hpos];
    [left; apply updateBuffers_out; left; exact Hneg|].
  destruct (Z_lt_ge_dec (p_index p) (Z.of_nat (length (buffer b)))) as [Hlt|Hge];
    [|left; apply updateBuffers_out; right; apply Z.ge_le; exact Hge].
  assert (En : p_index p = Z.of_nat (Z.to_nat (p_index p))) by (symmetry; apply Z2Nat.id; lia).
  assert (Hn : (Z.to_nat (p_index p) < length (buffer b))%nat)
    by (apply Nat2Z.inj_lt; rewrite <- En; exact Hlt).
  rewrite (updateBuffers_at g _ _ _ t b _ _ _ En Hn). fold p.
  destruct (F32.ltb _ _) eqn:Hgt; [right|left; reflexivity].
  exists (Z.to_nat (p_index p)). auto.
Qed.

Lemma cell_write_ne (b : FrameBufs) (m n : nat) ch co d :
  m <> n -> cell (write_cell b m ch co d) n = cell b n.
Proof.
  intros Hne. unfold cell, write_cell. cbn [buffer zbuffer cbuffer].
  rewrite !list_lookup_insert_ne by exact Hne. reflexivity.
Qed.

Lemma zbuffer_write_ne (b : FrameBufs) (m n : nat) ch co d :
  m <> n -> zbuffer (write_cell b m ch co d) !!! n = zbuffer b !!! n.
Proof.
  intros Hne. cbn [write_cell zbuffer]. apply list_lookup_total_insert_ne. exact Hne.
Qed.

Lemma apply_call_shape (g : Globals) (t : TrigCache) (b : FrameBufs) (c : Call) :
  same_length b ->
  same_length (apply_call g t b c)
  /\ length (buffer (apply_call g t b c)) = length (buffer b).
Proof.
  intros Hs. destruct (apply_call_cases g t b c) as [->|(m & _ & _ & _ & ->)]; [auto|].
  split; [apply same_length_write, Hs|apply length_buffer_write].
Qed.

(** The depth of a cell after one call: unchanged, or greater. *)
Lemma apply_call_depth (g : Globals) (t : TrigCache) (b : FrameBufs) (c : Call) (n : nat) :
  same_length b -> (n < length (buffer b))%nat ->
  zbuffer (apply_call g t b c) !!! n = zbuffer b !!! n
  \/ F32.ltb (zbuffer b !!! n) (zbuffer (apply_call g t b c) !!! n) = true.
Proof.
  intros Hs Hn. destruct (apply_call_cases g t b c) as [->|(m & _ & Hm & Hgt & ->)]; [auto|].
  destruct (decide (m = n)) as [->|Hne].
  - right. rewrite zbuffer_write_total by assumption. exact Hgt.
  - left. apply zbuffer_write_ne, Hne.
Qed.

Lemma run_calls_shape (g : Globals) (t : TrigCache) (cs : list Call) (b : FrameBufs) :
  same_length b ->
  same_length (run_calls g t cs b)
  /\ length (buffer (run_calls g t cs b)) = length (buffer b).
Proof.
  revert b. induction cs as [|c cs IH]; intros b Hs; [auto|].
  cbn [run_calls fold_left]. destruct (apply_call_shape g t b c Hs) as [Hs' Hl'].
  destruct (IH _ Hs') as [Hs'' Hl'']. fold (run_calls g t cs (apply_call g t b c)) in *.
  split; [exact Hs''|congruence].
Qed.

Lemma run_calls_depth (g : Globals) (t : TrigCache) (cs : list Call) (b : FrameBufs) (n : nat) :
  same_length b -> (n < length (buffer b))%nat ->
  zbuffer (run_calls g t cs b) !!! n = zbuffer b !!! n
  \/ F32.ltb (zbuffer b !!! n) (zbuffer (run_calls g t cs b) !!! n) = true.
Proof.
  revert b. induction cs as [|c cs IH]; intros b Hs Hn; [left; reflexivity|].
  cbn [run_calls fold_left]. fold (run_calls g t cs (apply_call g t b c)).
  destruct (apply_call_shape g t b c Hs) as [Hs' Hl'].
  destruct (IH (apply_call g t b c) Hs' ltac:(lia)) as [E2|L2];
    destruct (apply_call_depth g t b c n Hs Hn) as [E1|L1].
  - left. congruence.
  - right. rewrite E2. exact L1.
  - right. rewrite <- E1. exact L2.
  - right. eapply ltb_trans; eassumption.
Qed.

Lemma ltb_false_grows (d d' o : float) :
  F32.ltb d o = false ->
  d' = d \/ F32.ltb d d' = true ->
  F32.ltb d' o = false.
Proof.
  intros Hd [->|Hlt]; [exact Hd|].
  destruct (F32.ltb d' o) eqn:E; [|reflexivity].
  rewrite (ltb_trans _ _ _ Hlt E) in Hd. discriminate.
Qed.

Lemma run_calls_not_behind (g : Globals) (t : TrigCache) (cs : list Call) (b : FrameBufs)
    (n : nat) (c : Call) :
  same_length b -> (n < length (buffer b))%nat ->
  c ∈ cs -> call_index g t c = Z.of_nat n ->
  F32.ltb (zbuffer (run_calls g t cs b) !!! n) (call_ooz g t c) = false.
Proof.
  revert b. induction cs as [|c0 cs IH]; intros b Hs Hn Hin Hidx; [inversion Hin|].
  cbn [run_calls fold_left]. fold (run_calls g t cs (apply_call g t b c0)).
  destruct (apply_call_shape g t b c0 Hs) as [Hs' Hl'].
  apply elem_of_cons in Hin as [->|Hin]; [|apply IH; [assumption|lia|assumption..]].
  apply ltb_false_grows with (d := zbuffer (apply_call g t b c0) !!! n).
  - destruct (apply_call_cases g t b c0) as [E|(m & Hm & Hlen & Hgt & E)].
    + rewrite E. unfold apply_call in E.
      rewrite (updateBuffers_at g _ _ _ t b _ _ n Hidx Hn) in E.
      fold (call_ooz g t c0) in E.
      destruct (F32.ltb (zbuffer b !!! n) (call_ooz g t c0)) eqn:Hgt; [|exact Hgt].
      (* the write happened and changed nothing: the stored depth is the call's *)
      rewrite <- E. rewrite zbuffer_write_total by assumption. apply ltb_irrefl.
    + assert (m = n) by lia. subst m. rewrite E.
      rewrite zbuffer_write_total by assumption. apply ltb_irrefl.
  - destruct (run_calls_depth g t cs (apply_call g t b c0) n Hs' ltac:(lia)) as [E|L]; auto.
Qed.

Lemma run_calls_origin (g : Globals) (t : TrigCache) (cs : list Call) (b : FrameBufs) (n : nat) :
  same_length b -> (n < length (buffer b))%nat ->
  cell (run_calls g t cs b) n = cell b n
  \/ exists c, c ∈ cs /\ call_index g t c = Z.of_nat n
               /\ F32.ltb (zbuffer b !!! n) (call_ooz g t c) = true
               /\ cell (run_calls g t cs b) n = Some (call_cell g t c).
Proof.
  revert b. induction cs as [|c0 cs IH]; intros b Hs Hn; [left; reflexivity|].
  cbn [run_calls fold_left]. fold (run_calls g t cs (apply_call g t b c0)).
  destruct (apply_call_shape g t b c0 Hs) as [Hs' Hl'].
  destruct (IH (apply_call g t b c0) Hs' ltac:(lia)) as [E|(c & Hin & Hidx & Hgt & E)].
  - rewrite E.
    destruct (apply_call_cases g t b c0) as [->|(m & Hm & Hlen & Hgt & ->)]; [left; reflexivity|].
    destruct (decide (m = n)) as [->|Hne].
    + right. exists c0. split; [left|]. split; [exact Hm|]. split; [exact Hgt|].
      apply cell_write_eq; assumption.
    + left. apply cell_write_ne, Hne.
  - right. exists c. split; [right; exact Hin|]. split; [exact Hidx|]. split; [|exact E].
    destruct (apply_call_depth g t b c0 n Hs Hn) as [E1|L1].
    + rewrite <- E1. exact Hgt.
    + eapply ltb_trans; eassumption.
Qed.

(** The depth test over a whole sequence of calls.  Whatever the order of
    the calls, a cell ends either as it was, or with the glyph, the colour
    and the depth of one and the same call that projected to it and was
    nearer than the cell's initial depth; and no call of the sequence that
    projected to the cell is nearer than what the cell holds at the
    end. *)
Theorem run_calls_nearest_wins (g : Globals) (t : TrigCache) (cs : list Call)
    (b : FrameBufs) (n : nat) :
  same_length b -> (n < length (buffer b))%nat ->
  (cell (run_calls g t cs b) n = cell b n
   \/ exists c, c ∈ cs /\ call_index g t c = Z.of_nat n
                /\ F32.ltb (zbuffer b !!! n) (call_ooz g t c) = true
                /\ cell (run_calls g t cs b) n = Some (call_cell g t c))
  /\ (forall c, c ∈ cs -> call_index g t c = Z.of_nat n ->
        F32.ltb (zbuffer (run_calls g t cs b) !!! n) (call_ooz g t c) = false).
Proof.
  intros Hs Hn. split.
  - apply run_calls_origin; assumption.
  - intros c Hin Hidx. apply run_calls_not_behind; assumption.
Qed.

(** Three calls into cell 9 of the cleared 4 x 4 frame, the nearest one in
    the middle: it stays. *)
Lemma run_calls_nearest_wins_witness :
  let m := (- half)%f32 in
  let far := mkCall m m half ANSI_escape_code.color.YELLOW CUBE_SIZE in
  let near := mkCall m m m ANSI_escape_code.color.WHITE half in
  cell (run_calls (globals core4) trig_zero [far; near; far] (bufs core4)) 9
  = Some (call_cell (globals core4) trig_zero near)
  /\ F32.ltb (zbuffer (run_calls (globals core4) trig_zero [far; near; far] (bufs core4)) !!! 9%nat)
             (call_ooz (globals core4) trig_zero far) = false.
Proof.
  intros m far near.
  assert (Hs : same_length (bufs core4)) by (split; reflexivity).
  assert (Hn : (9 < length (buffer (bufs core4)))%nat) by (vm_compute; lia).
  destruct (run_calls_nearest_wins (globals core4) trig_zero [far; near; far]
              (bufs core4) 9%nat Hs Hn) as [_ Hnear].
  split; [vm_compute; reflexivity|].
  apply Hnear; [left|vm_compute; reflexivity].
Defined.

(** ** A frame as a sequence of calls *)

(** The values a face loop visits: from [-CUBE_SIZE/2] in steps of
    [spacing] while at most [CUBE_SIZE/2]; [None] when [fuel] iterations
    do not reach the end. *)
Fixpoint sweep_points (fuel : nat) (spacing v : float) : option (list float) :=
  match fuel with
  | O => None
  | S fuel' =>
      if (v <=? CUBE_SIZE / F32.of_int 2)%f32
      then cons v <$> sweep_points fuel' spacing (v + spacing)%f32
      else Some []
  end.

Definition face_points (fuel : nat) (spacing : float) : option (list float) :=
  sweep_points fuel spacing (- CUBE_SIZE / F32.of_int 2)%f32.

Lemma sweep_from_total {S : Type} (f : float -> S -> S) (fuel : nat) (spacing v : float) (s : S) :
  sweep_from fuel spacing v (fun u s => Some (f u s)) s
  = (fun pts => fold_left (fun s u => f u s) pts s) <$> sweep_points fuel spacing v.
Proof.
  revert v s. induction fuel as [|fuel IH]; intros v s; [reflexivity|].
  cbn [sweep_from sweep_points].
  destruct (F32.leb v _); [|reflexivity].
  rewrite IH. destruct (sweep_points fuel spacing _); reflexivity.
Qed.

Lemma sweep_from_ext {S : Type} (body1 body2 : float -> S -> option S) :
  (forall u s, body1 u s = body2 u s) ->
  forall fuel spacing v s,
    sweep_from fuel spacing v body1 s = sweep_from fuel spacing v body2 s.
Proof.
  intros Hext. induction fuel as [|fuel IH]; intros spacing v s; [reflexivity|].
  cbn [sweep_from]. rewrite Hext.
  destruct (F32.leb v _); [|reflexivity].
  destruct (body2 v s); [apply IH|reflexivity].
Qed.

Lemma sweep_from_first_none {S : Type} (body : float -> S -> option S)
    (fuel : nat) (spacing v : float) (s : S) :
  body v s = None -> F32.leb v (CUBE_SIZE / F32.of_int 2)%f32 = true ->
  sweep_from fuel spacing v body s = None.
Proof.
  intros Hb Hv. destruct fuel as [|fuel]; [reflexivity|].
  cbn [sweep_from]. rewrite Hv, Hb. reflexivity.
Qed.

(** The two nested loops of a face rasteriser. *)
Lemma face_loops_points (point : float -> float -> FrameBufs -> FrameBufs)
    (fuel : nat) (spacing : float) (b : FrameBufs) :
  sweep fuel spacing (fun u => sweep fuel spacing (fun v b => Some (point u v b))) b
  = (fun pts => fold_left (fun b u => fold_left (fun b v => point u v b) pts b) pts b)
      <$> face_points fuel spacing.
Proof.
  unfold sweep, face_points.
  destruct (sweep_points fuel spacing (- CUBE_SIZE / F32.of_int 2)%f32) as [pts|] eqn:EP.
  - rewrite (sweep_from_ext _ (fun u s => Some (fold_left (fun b v => point u v b) pts s))).
    + rewrite sweep_from_total, EP. reflexivity.
    + intros u s. rewrite sweep_from_total, EP. reflexivity.
  - apply sweep_from_first_none; [|vm_compute; reflexivity].
    rewrite sweep_from_total, EP. reflexivity.
Qed.

(** The two calls of a face point, front face first. *)
Definition point_calls (front back : float -> float -> float * float * float)
    (color1 color2 : color) (luminance_front luminance_back : float) (u v : float) : list Call :=
  let '(charColor1, charColor2) := charColors u v color1 color2 in
  let '(fi, fj, fk) := front u v in
  let '(bi, bj, bk) := back u v in
  [mkCall fi fj fk charColor1 luminance_front; mkCall bi bj bk charColor2 luminance_back].

(** All calls of a face, in loop order. *)
Definition face_calls (front back : float -> float -> float * float * float)
    (color1 color2 : color) (luminance_front luminance_back : float) (pts : list float) : list Call :=
  u ← pts; v ← pts; point_calls front back color1 color2 luminance_front luminance_back u v.

(** Where the three rasterisers put the loop variables. *)
Definition frontA (i j : float) := (i, j, (CUBE_SIZE / F32.of_int 2)%f32).
Definition backA (i j : float) := (i, j, (- (CUBE_SIZE / F32.of_int 2))%f32).
Definition frontB (j k : float) := ((CUBE_SIZE / F32.of_int 2)%f32, j, k).
Definition backB (j k : float) := ((- (CUBE_SIZE / F32.of_int 2))%f32, j, k).
Definition frontC (k i : float) := (i, (CUBE_SIZE / F32.of_int 2)%f32, k).
Definition backC (k i : float) := (i, (- (CUBE_SIZE / F32.of_int 2))%f32, k).

Definition unit_z : Vector3f := mkVector3f F32.zero F32.zero CUBE_SIZE.
Definition unit_y : Vector3f := mkVector3f F32.zero CUBE_SIZE F32.zero.
Definition unit_x : Vector3f := mkVector3f CUBE_SIZE F32.zero F32.zero.

(** The calls of one frame: the faces along z, then y, then x, with the
    colours [renderFrame] gives them. *)
Definition frame_calls (g : Globals) (t : TrigCache) (pts : list float) : list Call :=
  face_calls frontA backA ANSI_escape_code.color.YELLOW ANSI_escape_code.color.WHITE
    (luminance_of g t unit_z) (luminance_of g t (mkVector3f F32.zero F32.zero (- CUBE_SIZE)%f32)) pts
  ++ face_calls frontB backB ANSI_escape_code.color.GREEN ANSI_escape_code.color.BLUE
    (luminance_of g t unit_y) (luminance_of g t (mkVector3f F32.zero (- CUBE_SIZE)%f32 F32.zero)) pts
  ++ face_calls frontC backC ANSI_escape_code.color.BOLD_RED ANSI_escape_code.color.RED
    (luminance_of g t unit_x) (luminance_of g t (mkVector3f (- CUBE_SIZE)%f32 F32.zero F32.zero)) pts.

Lemma run_calls_app (g : Globals) (t : TrigCache) (cs1 cs2 : list Call) (b : FrameBufs) :
  run_calls g t (cs1 ++ cs2) b = run_calls g t cs2 (run_calls g t cs1 b).
Proof. apply fold_left_app. Qed.

Lemma run_calls_bind {A : Type} (g : Globals) (t : TrigCache) (f : A -> list Call)
    (l : list A) (b : FrameBufs) :
  run_calls g t (x ← l; f x) b = fold_left (fun b x => run_calls g t (f x) b) l b.
Proof.
  revert b. induction l as [|a l IH]; intros b; [reflexivity|].
  cbn [mbind list_bind fold_left]. rewrite run_calls_app. apply IH.
Qed.

Lemma fold_left_ext {A B : Type} (f1 f2 : A -> B -> A) (l : list B) (a : A) :
  (forall a x, f1 a x = f2 a x) -> fold_left f1 l a = fold_left f2 l a.
Proof.
  intros H. revert a. induction l as [|x l IH]; intros a; [reflexivity|].
  cbn [fold_left]. rewrite H. apply IH.
Qed.

Lemma face_loops_calls (g : Globals) (t : TrigCache)
    (point : float -> float -> FrameBufs -> FrameBufs)
    (front back : float -> float -> float * float * float)
    (color1 color2 : color) (lf lb : float) :
  (forall u v b, point u v b = run_calls g t (point_calls front back color1 color2 lf lb u v) b) ->
  forall fuel b,
    sweep fuel (SPACING g) (fun u => sweep fuel (SPACING g) (fun v b => Some (point u v b))) b
    = (fun pts => run_calls g t (face_calls front back color1 color2 lf lb pts) b)
        <$> face_points fuel (SPACING g).
Proof.
  intros Hpoint fuel b. rewrite face_loops_points.
  destruct (face_points fuel (SPACING g)) as [pts|]; [|reflexivity].
  cbn [fmap option_fmap option_map]. f_equal.
  unfold face_calls. rewrite run_calls_bind.
  apply fold_left_ext. intros a u. rewrite run_calls_bind.
  apply fold_left_ext. intros a' v. apply Hpoint.
Qed.

Lemma renderCubeAxis_A_calls (fuel : nat) (g : Globals) (t : TrigCache) (b : FrameBufs)
    (color1 color2 : color) :
  renderCubeAxis_A fuel g t b color1 color2
  = (fun pts => run_calls g t
       (face_calls frontA backA color1 color2 (luminance_of g t unit_z)
          (luminance_of g t (mkVector3f F32.zero F32.zero (- CUBE_SIZE)%f32)) pts) b)
      <$> face_points fuel (SPACING g).
Proof.
  unfold renderCubeAxis_A. apply face_loops_calls. intros u v b0.
  unfold pointA, point_calls, frontA, backA. destruct (charColors u v color1 color2).
  unfold run_calls, apply_call. cbn [fold_left call_i call_j call_k call_color call_luminance].
  reflexivity.
Qed.

Lemma renderCubeAxis_B_calls (fuel : nat) (g : Globals) (t : TrigCache) (b : FrameBufs)
    (color1 color2 : color) :
  renderCubeAxis_B fuel g t b color1 color2
  = (fun pts => run_calls g t
       (face_calls frontB backB color1 color2 (luminance_of g t unit_y)
          (luminance_of g t (mkVector3f F32.zero (- CUBE_SIZE)%f32 F32.zero)) pts) b)
      <$> face_points fuel (SPACING g).
Proof.
  unfold renderCubeAxis_B. apply face_loops_calls. intros u v b0.
  unfold pointB, point_calls, frontB, backB. destruct (charColors u v color1 color2).
  unfold run_calls, apply_call. cbn [fold_left call_i call_j call_k call_color call_luminance].
  reflexivity.
Qed.

Lemma renderCubeAxis_C_calls (fuel : nat) (g : Globals) (t : TrigCache) (b : FrameBufs)
    (color1 color2 : color) :
  renderCubeAxis_C fuel g t b color1 color2
  = (fun pts => run_calls g t
       (face_calls frontC backC color1 color2 (luminance_of g t unit_x)
          (luminance_of g t (mkVector3f (- CUBE_SIZE)%f32 F32.zero F32.zero)) pts) b)
      <$> face_points fuel (SPACING g).
Proof.
  unfold renderCubeAxis_C. apply face_loops_calls. intros u v b0.
  unfold pointC, point_calls, frontC, backC. destruct (charColors u v color1 color2).
  unfold run_calls, apply_call. cbn [fold_left call_i call_j call_k call_color call_luminance].
  reflexivity.
Qed.

(** The frame [renderFrame] leaves when the loops visit the points [pts]. *)
Definition frame_of_calls (c : Core) (t : TrigCache) (pts : list float) : FrameBufs :=
  run_calls (globals c) t (frame_calls (globals c) t pts) (clearFrame (bufs c)).

Lemma renderFrame_calls_eq (fuel : nat) (c : Core) (t : TrigCache) :
  renderFrame fuel c t
  = match face_points fuel (SPACING (globals c)) with
    | Some pts =>
        Some (mkCore (globals c) (frame_of_calls c t pts)
                     (buffer (bufs c)) (cbuffer (bufs c)),
              Print ANSI_escape_code.SET_CURSOR_HOME
                :: diffEmit (length (buffer (frame_of_calls c t pts))) 0 (WIDTH (globals c))
                     (frame_of_calls c t pts) (buffer (bufs c)) (cbuffer (bufs c)))
    | None => None
    end.
Proof.
  unfold renderFrame, frame_of_calls, frame_calls. cbv zeta.
  rewrite renderCubeAxis_A_calls.
  destruct (face_points fuel (SPACING (globals c))) as [pts|] eqn:EP; [|reflexivity].
  cbn [fmap option_fmap option_map mbind option_bind].
  rewrite renderCubeAxis_B_calls, EP. cbn [fmap option_fmap option_map mbind option_bind].
  rewrite renderCubeAxis_C_calls, EP. cbn [fmap option_fmap option_map mbind option_bind].
  rewrite !run_calls_app. reflexivity.
Qed.

Lemma same_length_clearFrame (b : FrameBufs) : same_length b -> same_length (clearFrame b).
Proof.
  unfold same_length, clearFrame, fill. cbn [buffer zbuffer cbuffer].
  rewrite !length_replicate. tauto.
Qed.

Lemma length_buffer_clearFrame (b : FrameBufs) :
  length (buffer (clearFrame b)) = length (buffer b).
Proof. unfold clearFrame, fill. cbn [buffer]. apply length_replicate. Qed.

Lemma cell_clearFrame (b : FrameBufs) (n : nat) :
  same_length b -> (n < length (buffer b))%nat ->
  cell (clearFrame b) n = Some (" "%char, ANSI_escape_code.color.RESET, F32.zero)
  /\ zbuffer (clearFrame b) !!! n = F32.zero.
Proof.
  intros [Hz Hc] Hn. unfold cell, clearFrame, fill. cbn [buffer zbuffer cbuffer].
  rewrite !lookup_replicate_2 by lia. split; [reflexivity|].
  apply lookup_total_replicate_2. lia.
Qed.

(** The nearest point wins, for a whole frame: on buffers of one length, a
    cell of the frame is either blank with depth 0, or it holds the glyph,
    colour and depth of one of the frame's calls that projected to it with
    a positive inverse depth; and none of the frame's calls that projected
    to the cell has a greater inverse depth than the one stored. *)
Theorem renderFrame_nearest_wins (fuel : nat) (c : Core) (t : TrigCache)
    (c' : Core) (out : list Output) (n : nat) :
  same_length (bufs c) ->
  renderFrame fuel c t = Some (c', out) ->
  (n < length (buffer (bufs c)))%nat ->
  exists pts,
    face_points fuel (SPACING (globals c)) = Some pts
    /\ (cell (bufs c') n = Some (" "%char, ANSI_escape_code.color.RESET, F32.zero)
        \/ exists call,
             call ∈ frame_calls (globals c) t pts
             /\ call_index (globals c) t call = Z.of_nat n
             /\ F32.ltb F32.zero (call_ooz (globals c) t call) = true
             /\ cell (bufs c') n = Some (call_cell (globals c) t call))
    /\ (forall call,
          call ∈ frame_calls (globals c) t pts ->
          call_index (globals c) t call = Z.of_nat n ->
          F32.ltb (zbuffer (bufs c') !!! n) (call_ooz (globals c) t call) = false).
Proof.
  intros Hs H Hn. rewrite renderFrame_calls_eq in H.
  destruct (face_points fuel (SPACING (globals c))) as [pts|]; [|discriminate H].
  injection H as <- _. exists pts. split; [reflexivity|].
  cbn [bufs]. unfold frame_of_calls.
  pose proof (same_length_clearFrame _ Hs) as Hs'.
  assert (Hn' : (n < length (buffer (clearFrame (bufs c))))%nat)
    by (rewrite length_buffer_clearFrame; exact Hn).
  destruct (cell_clearFrame (bufs c) n Hs Hn) as [Hcell Hz].
  split.
  - destruct (run_calls_origin (globals c) t (frame_calls (globals c) t pts)
                (clearFrame (bufs c)) n Hs' Hn') as [E|(call & Hin & Hidx & Hgt & E)].
    + left. rewrite E. exact Hcell.
    + right. exists call. rewrite Hz in Hgt. auto.
  - intros call Hin Hidx. apply run_calls_not_behind; assumption.
Qed.

Lemma renderFrame_nearest_wins_witness :
  exists c' out,
    renderFrame 3 core4 trig_zero = Some (c', out)
    /\ cell (bufs c') 0 = Some (" "%char, ANSI_escape_code.color.RESET, F32.zero)
    /\ exists pts,
         face_points 3 (SPACING (globals core4)) = Some pts
         /\ forall call,
              call ∈ frame_calls (globals core4) trig_zero pts ->
              call_index (globals core4) trig_zero call = 9 ->
              F32.ltb (zbuffer (bufs c') !!! 9%nat) (call_ooz (globals core4) trig_zero call) = false.
Proof.
  destruct (renderFrame 3 core4 trig_zero) as [[c' out]|] eqn:E; [|vm_compute in E; discriminate].
  exists c', out. split; [reflexivity|].
  assert (Hs : same_length (bufs core4)) by (split; reflexivity).
  assert (Hn : (9 < length (buffer (bufs core4)))%nat) by (vm_compute; lia).
  destruct (renderFrame_nearest_wins 3%nat core4 trig_zero c' out 9%nat Hs E Hn)
    as (pts & Hp & _ & Hnear).
  split; [vm_compute in E; injection E as <- _; vm_compute; reflexivity|].
  exists pts. split; [exact Hp|exact Hnear].
Defined.

(** Each frame is drawn from scratch: the new frame depends on the old
    buffers through their lengths only, not through what they held. *)
Theorem renderFrame_forgets_history (fuel : nat) (c1 c2 : Core) (t : TrigCache) :
  globals c1 = globals c2 ->
  lengths (bufs c1) = lengths (bufs c2) ->
  (bufs ∘ fst) <$> renderFrame fuel c1 t = (bufs ∘ fst) <$> renderFrame fuel c2 t.
Proof.
  intros Hg Hl. rewrite !renderFrame_calls_eq. rewrite Hg.
  destruct (face_points fuel (SPACING (globals c2))); [|reflexivity].
  cbn. unfold frame_of_calls. rewrite Hg, (clearFrame_lengths _ _ Hl). reflexivity.
Qed.

(** The 4 x 4 state before and after its first frame. *)
Lemma renderFrame_forgets_history_witness :
  (bufs ∘ fst) <$> renderFrame 3 core4 trig_zero
  = (bufs ∘ fst) <$> renderFrame 3 frame4_smudged trig_zero.
Proof.
  apply renderFrame_forgets_history; vm_compute; reflexivity.
Defined.

(** ** What a frame holds *)

(** The colours a frame uses: the six face colours and the grid-line
    colour. *)
Definition palette : list color :=
  [ANSI_escape_code.color.YELLOW; ANSI_escape_code.color.WHITE;
   ANSI_escape_code.color.GREEN; ANSI_escape_code.color.BLUE;
   ANSI_escape_code.color.BOLD_RED; ANSI_escape_code.color.RED;
   GRID_LINE_COLOR].

Lemma charColors_cases (u v : float) (color1 color2 : color) :
  charColors u v color1 color2 = (GRID_LINE_COLOR, GRID_LINE_COLOR)
  \/ charColors u v color1 color2 = (color1, color2).
Proof.
  unfold charColors.
  repeat match goal with
  | |- context [if ?c then _ else _] => destruct c; [left; reflexivity|]
  end.
  right. reflexivity.
Qed.

Lemma face_calls_colors (front back : float -> float -> float * float * float)
    (color1 color2 : color) (lf lb : float) (pts : list float) (call : Call) :
  call ∈ face_calls front back color1 color2 lf lb pts ->
  call_color call = color1 \/ call_color call = color2 \/ call_color call = GRID_LINE_COLOR.
Proof.
  unfold face_calls. intros H.
  apply list_elem_of_bind in H as (u & H & _).
  apply list_elem_of_bind in H as (v & H & _).
  unfold point_calls in H.
  destruct (front u v) as [[fi fj] fk]. destruct (back u v) as [[bi bj] bk].
  destruct (charColors_cases u v color1 color2) as [E|E]; rewrite E in H;
    apply elem_of_cons in H as [->|H];
    try (apply list_elem_of_singleton in H as ->); cbn; auto.
Qed.

Lemma frame_calls_colors (g : Globals) (t : TrigCache) (pts : list float) (call : Call) :
  call ∈ frame_calls g t pts -> call_color call ∈ palette.
Proof.
  unfold frame_calls, palette. intros H.
  apply elem_of_app in H as [H|H]; [|apply elem_of_app in H as [H|H]];
    apply face_calls_colors in H as [-> | [-> | ->]];
    repeat first [apply list_elem_of_here | apply list_elem_of_further].
Qed.

Lemma ramp_at_not_blank (n : Z) : ramp_at n <> " "%char.
Proof.
  unfold ramp_at. destruct (n <? 0); [discriminate|].
  generalize (Z.to_nat n). intros k.
  do 13 (destruct k as [|k]; [discriminate|]). discriminate.
Qed.

(** After a frame every cell is of one of two kinds: blank in the reset
    colour with depth 0 -- no point was drawn into it --, or a glyph that
    is not a blank, in one of the six face colours or the grid-line colour,
    with a depth greater than 0.  So a cell is blank for the diff pass
    exactly when nothing was drawn into it. *)
Theorem renderFrame_cell_kinds (fuel : nat) (c : Core) (t : TrigCache)
    (c' : Core) (out : list Output) (n : nat) :
  same_length (bufs c) ->
  renderFrame fuel c t = Some (c', out) ->
  (n < length (buffer (bufs c)))%nat ->
  (cell (bufs c') n = Some (" "%char, ANSI_escape_code.color.RESET, F32.zero)
   \/ exists ch co d,
        cell (bufs c') n = Some (ch, co, d)
        /\ ch <> " "%char /\ co ∈ palette /\ F32.ltb F32.zero d = true)
  /\ (blank_cell (bufs c') n
      <-> cell (bufs c') n = Some (" "%char, ANSI_escape_code.color.RESET, F32.zero)).
Proof.
  intros Hs H Hn.
  assert (Hkinds :
    cell (bufs c') n = Some (" "%char, ANSI_escape_code.color.RESET, F32.zero)
    \/ exists ch co d,
         cell (bufs c') n = Some (ch, co, d)
         /\ ch <> " "%char /\ co ∈ palette /\ F32.ltb F32.zero d = true).
  { rewrite renderFrame_calls_eq in H.
    destruct (face_points fuel (SPACING (globals c))) as [pts|]; [|discriminate H].
    injection H as <- _. cbn [bufs]. unfold frame_of_calls.
    pose proof (same_length_clearFrame _ Hs) as Hs'.
    assert (Hn' : (n < length (buffer (clearFrame (bufs c))))%nat)
      by (rewrite length_buffer_clearFrame; exact Hn).
    destruct (cell_clearFrame (bufs c) n Hs Hn) as [Hcell Hz].
    destruct (run_calls_origin (globals c) t (frame_calls (globals c) t pts)
                (clearFrame (bufs c)) n Hs' Hn') as [E|(call & Hin & Hidx & Hgt & E)].
    - left. rewrite E. exact Hcell.
    - right. exists (ramp_at (glyph_index (call_luminance call))), (call_color call),
               (call_ooz (globals c) t call).
      split; [exact E|]. split; [apply ramp_at_not_blank|].
      split; [eapply frame_calls_colors; exact Hin|]. rewrite Hz in Hgt. exact Hgt. }
  split; [exact Hkinds|].
  unfold blank_cell. split.
  - intros [Hb Hc]. destruct Hkinds as [E|(ch & co & d & E & Hch & _)]; [exact E|].
    exfalso. apply Hch. unfold cell in E.
    destruct (buffer (bufs c') !! n) as [ch'|] eqn:Eb; [|discriminate E].
    destruct (cbuffer (bufs c') !! n); [|discriminate E].
    destruct (zbuffer (bufs c') !! n); [|discriminate E].
    injection E as -> _ _. rewrite list_lookup_total_alt, Eb in Hb. exact Hb.
  - intros E. unfold cell in E.
    destruct (buffer (bufs c') !! n) as [ch'|] eqn:Eb; [|discriminate E].
    destruct (cbuffer (bufs c') !! n) as [co'|] eqn:Ec; [|discriminate E].
    destruct (zbuffer (bufs c') !! n); [|discriminate E].
    injection E as -> -> _. rewrite !list_lookup_total_alt, Eb, Ec. split; reflexivity.
Qed.

Lemma renderFrame_cell_kinds_witness :
  exists c' out,
    renderFrame 3 core4 trig_zero = Some (c', out)
    /\ blank_cell (bufs c') 0
    /\ ~ blank_cell (bufs c') 5.
Proof.
  destruct (renderFrame 3 core4 trig_zero) as [[c' out]|] eqn:E; [|vm_compute in E; discriminate].
  exists c', out. split; [reflexivity|].
  assert (Hs : same_length (bufs core4)) by (split; reflexivity).
  assert (H0 : (0 < length (buffer (bufs core4)))%nat) by (vm_compute; lia).
  assert (H5 : (5 < length (buffer (bufs core4)))%nat) by (vm_compute; lia).
  destruct (renderFrame_cell_kinds 3%nat core4 trig_zero c' out 0%nat Hs E H0) as [_ I0].
  destruct (renderFrame_cell_kinds 3%nat core4 trig_zero c' out 5%nat Hs E H5) as [_ I5].
  vm_compute in E. injection E as <- _. split.
  - apply I0. vm_compute. reflexivity.
  - intros Hb. apply I5 in Hb. vm_compute in Hb. discriminate.
Defined.

(** ** Invariants of the program states *)

(** The five frame buffers have one length, the [int] product
    [WIDTH * HEIGHT] as [resizeBuffers] computes it. *)
Definition buffers_sized (c : Core) : Prop :=
  let n := Z.to_nat (Int.mul (WIDTH (globals c)) (HEIGHT (globals c))) in
  length (buffer (bufs c)) = n /\ length (zbuffer (bufs c)) = n
  /\ length (cbuffer (bufs c)) = n
  /\ length (buffer_prev c) = n /\ length (cbuffer_prev c) = n.

Lemma reachable_buffers_sized (c : Core) : reachable c -> buffers_sized c.
Proof.
  induction 1 as [|d c Hw Hh Hc IH|fuel t c c' out Hc IH Hr].
  - unfold buffers_sized. vm_compute. repeat split; reflexivity.
  - unfold updateDim.
    destruct (Z.eqb_spec (dim_w d) 0) as [|Hw0]; [exact IH|].
    destruct (Z.eqb_spec (dim_h d) 0) as [|Hh0]; [exact IH|].
    unfold buffers_sized, clearBuffers, resizeBuffers, clearFrame, fill. cbn.
    rewrite !length_replicate, !length_resize. repeat split; reflexivity.
  - pose proof (renderFrame_lengths _ _ _ _ _ Hr) as Hl.
    apply renderFrame_inv in Hr as (bA & bB & bC & _ & _ & _ & -> & _).
    unfold buffers_sized, lengths in *. cbn in *.
    destruct IH as (H1 & H2 & H3 & H4 & H5). injection Hl as -> -> ->.
    repeat split; assumption.
Qed.

(** In every state of the program: the dimensions are positive, [K1] and
    [SPACING] are the values computed from the current [WIDTH], the light
    direction is the one set up at start, and the five frame buffers have
    the common length [WIDTH * HEIGHT]. *)
Theorem reachable_invariants (c : Core) :
  reachable c ->
  0 < WIDTH (globals c) /\ 0 < HEIGHT (globals c)
  /\ K1 (globals c) = computeK1 (WIDTH (globals c))
  /\ SPACING (globals c) = computeSPACING (WIDTH (globals c))
  /\ rotatedLightSource (globals c) = rotatedLightSource (globals initial)
  /\ buffers_sized c
  /\ same_length (bufs c).
Proof.
  intros Hr.
  destruct (reachable_derived_constants c Hr) as (Hw & Hh & HK & HS).
  pose proof (reachable_buffers_sized c Hr) as Hb.
  repeat (split; [assumption|]).
  split; [|split; [exact Hb|]].
  - clear -Hr. induction Hr as [|d c Hw Hh Hc IH|fuel t c c' out Hc IH Hr]; [reflexivity| |].
    + unfold updateDim. destruct (_ && _); [|exact IH]. cbn. exact IH.
    + apply renderFrame_inv in Hr as (bA & bB & bC & _ & _ & _ & -> & _). exact IH.
  - destruct Hb as (H1 & H2 & H3 & _). unfold same_length. split; congruence.
Qed.

Lemma reachable_core4 : reachable core4.
Proof. apply reach_updateDim; [vm_compute; discriminate .. | apply reach_initial]. Qed.

Lemma reachable_invariants_witness :
  length (buffer (bufs core4)) = 16%nat /\ length (cbuffer_prev core4) = 16%nat
  /\ K1 (globals core4) = computeK1 4.
Proof.
  destruct (reachable_invariants core4) as (_ & _ & HK & _ & _ & Hb & _).
  - apply reach_updateDim; [vm_compute; discriminate .. | apply reach_initial].
  - destruct Hb as (H1 & _ & _ & _ & H5). auto.
Defined.

(** ** The cursor stays on the screen *)

(** Every cell update of a frame addresses a row from 1 to [HEIGHT] and a
    column from 1 to [WIDTH], in every state whose [WIDTH * HEIGHT] is an
    [int]. *)
Theorem renderFrame_cursor_on_screen (fuel : nat) (c : Core) (t : TrigCache)
    (c' : Core) (out : list Output) (row col : Z) (reset co : string) (ch : ascii) :
  reachable c ->
  WIDTH (globals c) * HEIGHT (globals c) <= Int.max_signed ->
  renderFrame fuel c t = Some (c', out) ->
  PrintCell row col reset co ch ∈ out ->
  1 <= row <= HEIGHT (globals c) /\ 1 <= col <= WIDTH (globals c).
Proof.
  intros Hr Hfit H Hin.
  destruct (reachable_derived_constants c Hr) as (Hw & Hh & _).
  pose proof (reachable_buffers_sized c Hr) as (Hlen & _).
  pose proof (renderFrame_lengths _ _ _ _ _ H) as Hl.
  destruct (renderFrame_output fuel c t c' out Hw H) as (_ & _ & ->).
  apply elem_of_cons in Hin as [Hin|Hin]; [discriminate Hin|].
  apply list_elem_of_fmap in Hin as (index & E & Hin).
  apply list_elem_of_filter in Hin as [_ Hin]. apply elem_of_seq in Hin.
  unfold lengths in Hl. injection Hl as Hl _ _. rewrite Hl, Hlen in Hin.
  unfold Int.mul in Hin. rewrite wrap_small in Hin by (unfold Int.min_signed; nia).
  unfold cell_update in E. injection E as -> -> _ _ _.
  assert (Hi : 0 <= Z.of_nat index < WIDTH (globals c) * HEIGHT (globals c)) by lia.
  pose proof (Z.mod_pos_bound (Z.of_nat index) (WIDTH (globals c)) Hw).
  assert (0 <= Z.of_nat index / WIDTH (globals c)) by (apply Z.div_pos; lia).
  assert (Z.of_nat index / WIDTH (globals c) < HEIGHT (globals c))
    by (apply Z.div_lt_upper_bound; lia).
  lia.
Qed.

Lemma renderFrame_cursor_on_screen_witness :
  exists c' out,
    renderFrame 3 core4 trig_zero = Some (c', out)
    /\ PrintCell 3 2 ANSI_escape_code.color.RESET ANSI_escape_code.color.WHITE "!"%char ∈ out
    /\ 1 <= 3 <= HEIGHT (globals core4) /\ 1 <= 2 <= WIDTH (globals core4).
Proof.
  destruct (renderFrame 3 core4 trig_zero) as [[c' out]|] eqn:E; [|vm_compute in E; discriminate].
  exists c', out. split; [reflexivity|].
  assert (Hin : PrintCell 3 2 ANSI_escape_code.color.RESET ANSI_escape_code.color.WHITE "!"%char ∈ out).
  { pose proof E as E'. vm_compute in E'. injection E' as _ <-.
    do 3 apply list_elem_of_further. apply list_elem_of_here. }
  split; [exact Hin|].
  apply (renderFrame_cursor_on_screen 3%nat core4 trig_zero c' out 3 2 _ _ _
           reachable_core4 ltac:(vm_compute; discriminate) E Hin).
Defined.

(** ** The diff pass redraws the screen *)

(** The terminal side of the output, as far as the frame is concerned: a
    screen is the glyph and colour shown in every cell, row by row; a cell
    update puts its glyph and colour at its row and column; the erase
    sequence blanks the screen; the cursor-home sequence shows nothing. *)
Abbreviation Screen := (list (ascii * color)).

Definition show (width : Z) (s : Screen) (o : Output) : Screen :=
  match o with
  | PrintCell row col _ co ch => <[Z.to_nat ((row - 1) * width + (col - 1)) := (ch, co)]> s
  | Print seq =>
      if decide (seq = ANSI_escape_code.ERASE_SCREEN)
      then replicate (length s) (" "%char, ANSI_escape_code.color.RESET)
      else s
  end.

(** What a frame looks like. *)
Definition displayed (buffer : list ascii) (cbuffer : list color) : Screen :=
  zip_with pair buffer cbuffer.

Lemma displayed_lookup (bu : list ascii) (cb : list color) (i : nat) :
  length cb = length bu -> (i < length bu)%nat ->
  displayed bu cb !! i = Some (bu !!! i, cb !!! i).
Proof.
  intros Hl Hi. unfold displayed. rewrite lookup_zip_with.
  destruct (lookup_lt_is_Some_2 bu i Hi) as [x Hx].
  destruct (lookup_lt_is_Some_2 cb i ltac:(lia)) as [y Hy].
  rewrite !list_lookup_total_alt, Hx, Hy. reflexivity.
Qed.

Lemma diffEmit_replay (width : Z) (b : FrameBufs) (bp : list ascii) (cbp : list color)
    (len : nat) :
  0 < width ->
  forall (n index : nat) (s : Screen),
    (index + n = len)%nat -> length s = len ->
    (forall i, (i < index)%nat -> s !! i = Some (buffer b !!! i, cbuffer b !!! i)) ->
    (forall i, (index <= i < len)%nat -> s !! i = Some (bp !!! i, cbp !!! i)) ->
    forall i, (i < len)%nat ->
      fold_left (show width) (diffEmit n index width b bp cbp) s !! i
      = Some (buffer b !!! i, cbuffer b !!! i).
Proof.
  intros Hw. induction n as [|n IH]; intros index s Hlen Hs Hnew Hold i Hi.
  - cbn. apply Hnew. lia.
  - cbn [diffEmit].
    destruct (bool_decide (buffer b !!! index = bp !!! index)
              && bool_decide (cbuffer b !!! index = cbp !!! index)) eqn:Esame.
    + apply andb_prop in Esame as [E1 E2]. apply bool_decide_eq_true in E1, E2.
      apply (IH (S index) s); [lia|exact Hs| |intros j Hj; apply Hold; lia|exact Hi].
      intros j Hj. destruct (decide (j = index)) as [->|Hne].
      * rewrite E1, E2. apply Hold. lia.
      * apply Hnew. lia.
    + cbn [fold_left show].
      assert (Hpos : Z.to_nat ((Int.div (Z.of_nat index) width + 1 - 1) * width
                               + (Int.rem (Z.of_nat index) width + 1 - 1)) = index).
      { unfold Int.div, Int.rem.
        pose proof (Z.quot_rem' (Z.of_nat index) width). lia. }
      rewrite Hpos.
      apply (IH (S index)); [lia|rewrite length_insert; exact Hs| | |exact Hi].
      * intros j Hj. destruct (decide (j = index)) as [->|Hne].
        -- apply list_lookup_insert_eq. lia.
        -- rewrite list_lookup_insert_ne by congruence. apply Hnew. lia.
      * intros j Hj. rewrite list_lookup_insert_ne by lia. apply Hold. lia.
Qed.

Lemma fold_show_length (width : Z) (out : list Output) (s : Screen) :
  length (fold_left (show width) out s) = length s.
Proof.
  revert s. induction out as [|o out IH]; intros s; [reflexivity|].
  cbn [fold_left]. rewrite IH. destruct o as [seq|row col r co ch]; cbn [show].
  - destruct (decide _); [apply length_replicate|reflexivity].
  - apply length_insert.
Qed.

Lemma renderFrame_replay (fuel : nat) (c : Core) (t : TrigCache)
    (c' : Core) (out : list Output) :
  0 < WIDTH (globals c) ->
  same_length (bufs c) ->
  renderFrame fuel c t = Some (c', out) ->
  fold_left (show (WIDTH (globals c))) out (displayed (buffer (bufs c)) (cbuffer (bufs c)))
  = displayed (buffer (bufs c')) (cbuffer (bufs c')).
Proof.
  intros Hw [Hz Hc] H.
  pose proof (renderFrame_lengths _ _ _ _ _ H) as Hl.
  apply renderFrame_inv in H as (bA & bB & bC & _ & _ & _ & -> & ->).
  cbn [bufs] in *. unfold lengths in Hl. injection Hl as Hl1 Hl2 Hl3.
  set (s := displayed (buffer (bufs c)) (cbuffer (bufs c))).
  assert (Hs : length s = length (buffer bC)).
  { unfold s, displayed. rewrite length_zip_with. lia. }
  cbn [fold_left show].
  destruct (decide (ANSI_escape_code.SET_CURSOR_HOME = ANSI_escape_code.ERASE_SCREEN))
    as [Habs|_]; [discriminate Habs|].
  apply list_eq. intros i.
  destruct (decide (i < length (buffer bC))%nat) as [Hi|Hi].
  - rewrite (diffEmit_replay (WIDTH (globals c)) bC (buffer (bufs c)) (cbuffer (bufs c))
               (length (buffer bC)) Hw (length (buffer bC)) 0%nat s);
      [|lia|exact Hs|intros j Hj; lia| |exact Hi].
    + symmetry. apply displayed_lookup; lia.
    + intros j Hj. unfold s. apply displayed_lookup; lia.
  - rewrite !lookup_ge_None_2; [reflexivity| |].
    + unfold displayed. rewrite length_zip_with. lia.
    + rewrite fold_show_length. lia.
Qed.

(** The diff pass is enough: on a terminal of positive width that shows
    the previous frame, the output of [renderFrame] makes the screen show
    the new frame, cell for cell. *)
Theorem renderFrame_redraws_screen (fuel : nat) (c : Core) (t : TrigCache)
    (c' : Core) (out : list Output) :
  0 < WIDTH (globals c) ->
  same_length (bufs c) ->
  renderFrame fuel c t = Some (c', out) ->
  fold_left (show (WIDTH (globals c))) out (displayed (buffer (bufs c)) (cbuffer (bufs c)))
  = displayed (buffer (bufs c')) (cbuffer (bufs c')).
Proof. apply renderFrame_replay. Qed.

(** The screen shows the first 4 x 4 frame with cell 5 smudged; the next
    frame's single update repairs it. *)
Lemma renderFrame_redraws_screen_witness :
  exists c' out,
    renderFrame 3 frame4_smudged trig_zero = Some (c', out)
    /\ fold_left (show 4) out
         (displayed (buffer (bufs frame4_smudged)) (cbuffer (bufs frame4_smudged)))
       = displayed (buffer (bufs frame4)) (cbuffer (bufs frame4)).
Proof.
  destruct (renderFrame 3 frame4_smudged trig_zero) as [[c' out]|] eqn:E;
    [|vm_compute in E; discriminate].
  exists c', out. split; [reflexivity|].
  assert (Hw : 0 < WIDTH (globals frame4_smudged)) by (vm_compute; reflexivity).
  assert (Hs : same_length (bufs frame4_smudged)) by (split; reflexivity).
  pose proof (renderFrame_redraws_screen 3%nat frame4_smudged trig_zero c' out Hw Hs E) as H.
  change (WIDTH (globals frame4_smudged)) with 4 in H. rewrite H.
  vm_compute in E. injection E as <- _. vm_compute. reflexivity.
Defined.

(** After a resize the erase sequence and the next frame's diff together
    draw the whole new frame: whatever a terminal of the new size showed
    before, it shows the new frame afterwards. *)
Theorem resize_then_frame_redraws (w h : Z) (c : Core) (fuel : nat) (t : TrigCache)
    (c' : Core) (out : list Output) (s : Screen) :
  0 < w -> 0 < h -> w * h <= Int.max_signed ->
  length s = Z.to_nat (w * h) ->
  renderFrame fuel (fst (updateDim (mkDim2i w h) c)) t = Some (c', out) ->
  fold_left (show w) (snd (updateDim (mkDim2i w h) c) ++ out) s
  = displayed (buffer (bufs c')) (cbuffer (bufs c')).
Proof.
  intros Hw Hh Hwh Hs H. rewrite (updateDim_state w h c Hw Hh Hwh) in *.
  cbv zeta in *. cbn [fst snd] in *.
  rewrite fold_left_app. cbn [fold_left show].
  destruct (decide (ANSI_escape_code.ERASE_SCREEN = ANSI_escape_code.ERASE_SCREEN))
    as [_|Hne]; [|contradiction].
  rewrite Hs.
  set (n := Z.to_nat (w * h)) in *.
  match type of H with renderFrame _ ?c0 _ = _ => set (c1 := c0) in * end.
  assert (Hshown : replicate n (" "%char, ANSI_escape_code.color.RESET)
                   = displayed (buffer (bufs c1)) (cbuffer (bufs c1))).
  { unfold c1, displayed. cbn [bufs buffer cbuffer]. clear.
    induction n as [|n IH]; [reflexivity|]. cbn. f_equal. exact IH. }
  rewrite Hshown.
  apply (renderFrame_replay fuel c1 t c' out); [exact Hw| |exact H].
  unfold c1, same_length. cbn [bufs buffer zbuffer cbuffer].
  rewrite !length_replicate. split; reflexivity.
Qed.

Lemma resize_then_frame_redraws_witness :
  exists c' out,
    renderFrame 3 core4 trig_zero = Some (c', out)
    /\ fold_left (show 4) (snd (updateDim (mkDim2i 4 4) initial) ++ out)
         (replicate 16 ("#"%char, ANSI_escape_code.color.RED))
       = displayed (buffer (bufs c')) (cbuffer (bufs c')).
Proof.
  destruct (renderFrame 3 core4 trig_zero) as [[c' out]|] eqn:E; [|vm_compute in E; discriminate].
  exists c', out. split; [reflexivity|].
  apply (resize_then_frame_redraws 4 4 initial 3%nat trig_zero c' out);
    [lia|lia|vm_compute; discriminate|reflexivity|exact E].
Defined.

(** Handling the same terminal size twice leaves the state the first
    handling left. *)
Theorem updateDim_twice (d : Dim2i) (c : Core) :
  fst (updateDim d (fst (updateDim d c))) = fst (updateDim d c).
Proof.
  unfold updateDim.
  destruct (negb (dim_w d =? 0) && negb (dim_h d =? 0)) eqn:E; cbn [fst];
    [|reflexivity].
  cbn [fst]. unfold clearBuffers, resizeBuffers, clearFrame, fill.
  cbn [globals bufs buffer zbuffer cbuffer buffer_prev cbuffer_prev WIDTH HEIGHT
       rotatedLightSource].
  rewrite !length_resize, ?length_replicate. reflexivity.
Qed.

(** ** The terminal size query *)









(** ** The grid lines are symmetric *)

Ltac float_order :=
  repeat match goal with
  | s : bool |- _ => destruct s
  end;
  simpl; try discriminate; try reflexivity;
  repeat match goal with
  | |- context [(?a ?= ?b)%Z] => destruct (Z.compare_spec a b)
  | |- context [PosDef.Pos.compare_cont Eq ?a ?b] =>
      change (PosDef.Pos.compare_cont Eq a b) with (Pos.compare a b);
      destruct (Pos.compare_spec a b)
  end;
  simpl; try discriminate; try reflexivity; try lia.

(** Negation reverses the order. *)
Lemma ltb_opp (a b : float) : F32.ltb (- a)%f32 (- b)%f32 = F32.ltb b a.
Proof.
  unfold F32.ltb, F32.opp, SFltb, SFcompare, SFopp.
  destruct a, b; float_order.
Qed.

Lemma opp_involutive (a : float) : (- - a)%f32 = a.
Proof. destruct a as [[]|[]| |[] m e]; reflexivity. Qed.

Lemma band_edges_mirror :
  (band_center_lo - GRID_SPACING)%f32 = (- (band_center_hi + GRID_SPACING))%f32
  /\ (band_center_lo + GRID_SPACING)%f32 = (- (band_center_hi - GRID_SPACING))%f32.
Proof. split; vm_compute; reflexivity. Qed.

Lemma ltb_opp_r (a b : float) : F32.ltb a (- b)%f32 = F32.ltb b (- a)%f32.
Proof. rewrite <- (opp_involutive a) at 1. apply ltb_opp. Qed.

Lemma ltb_opp_l (a b : float) : F32.ltb (- a)%f32 b = F32.ltb (- b)%f32 a.
Proof. rewrite <- (opp_involutive b) at 1. apply ltb_opp. Qed.

Lemma near_band_center_opp (u : float) : near_band_center (- u)%f32 <-> near_band_center u.
Proof.
  unfold near_band_center. destruct band_edges_mirror as [E1 E2]. rewrite E1, E2.
  rewrite !ltb_opp.
  rewrite (ltb_opp_r (band_center_hi - GRID_SPACING)%f32 u).
  rewrite (ltb_opp_l u (band_center_hi + GRID_SPACING)%f32).
  tauto.
Qed.

#[global] Instance near_band_center_dec (u : float) : Decision (near_band_center u).
Proof. unfold near_band_center. apply _. Defined.

Lemma charColors_decide (u v : float) (color1 color2 : color) :
  charColors u v color1 color2
  = if decide (near_band_center u \/ near_band_center v)
    then (GRID_LINE_COLOR, GRID_LINE_COLOR) else (color1, color2).
Proof.
  destruct (decide (near_band_center u \/ near_band_center v)) as [H|H].
  - apply charColors_band, H.
  - apply charColors_face; tauto.
Qed.

(** The grid lines lie mirror-symmetric on a face: a face point gets the
    grid-line colour exactly when one of its swept coordinates lies in one
    of the two bands, the lower band lies below 0 and is the mirror image
    of the upper band, which lies above 0; so the colours chosen at
    [(-u, v)], [(u, -v)] and [(u, v)] are the same. *)
Theorem grid_lines_symmetric (u v : float) (color1 color2 : color) :
  charColors u v color1 color2
  = (if decide (near_band_center u \/ near_band_center v)
     then (GRID_LINE_COLOR, GRID_LINE_COLOR) else (color1, color2))
  /\ (near_band_center (- u)%f32 <-> near_band_center u)
  /\ charColors (- u)%f32 v color1 color2 = charColors u v color1 color2
  /\ charColors u (- v)%f32 color1 color2 = charColors u v color1 color2
  /\ (F32.ltb u (band_center_lo + GRID_SPACING)%f32 = true -> F32.ltb u F32.zero = true)
  /\ (F32.ltb (band_center_hi - GRID_SPACING)%f32 u = true -> F32.ltb F32.zero u = true).
Proof.
  split; [apply charColors_decide|]. split; [apply near_band_center_opp|].
  split; [|split; [|split]].
  - rewrite !charColors_decide.
    destruct (decide (near_band_center (- u)%f32 \/ near_band_center v)) as [H|H];
      destruct (decide (near_band_center u \/ near_band_center v)) as [H'|H'];
      try reflexivity; rewrite near_band_center_opp in H; tauto.
  - rewrite !charColors_decide.
    destruct (decide (near_band_center u \/ near_band_center (- v)%f32)) as [H|H];
      destruct (decide (near_band_center u \/ near_band_center v)) as [H'|H'];
      try reflexivity; rewrite near_band_center_opp in H; tauto.
  - intros H. eapply ltb_trans; [exact H|]. vm_compute. reflexivity.
  - intros H. eapply ltb_trans; [|exact H]. vm_compute. reflexivity.
Qed.

Lemma grid_lines_symmetric_witness :
  near_band_center (F32.lit 1 6)
  /\ F32.ltb F32.zero (F32.lit 1 6) = true
  /\ charColors (F32.lit (-1) 6) F32.zero ANSI_escape_code.color.RED ANSI_escape_code.color.BLUE
     = charColors (F32.lit 1 6) F32.zero ANSI_escape_code.color.RED ANSI_escape_code.color.BLUE.
Proof.
  destruct (grid_lines_symmetric (F32.lit 1 6) F32.zero
              ANSI_escape_code.color.RED ANSI_escape_code.color.BLUE)
    as (_ & _ & Hm & _ & _ & Hpos).
  split; [right; split; vm_compute; reflexivity|].
  split; [apply Hpos; vm_compute; reflexivity|].
  rewrite <- Hm. f_equal.
Defined.

(** ** The face loops terminate *)

(** Iterations that suffice for a face loop on a terminal [width] columns
    wide. *)
Definition sweep_bound (width : Z) : nat := Z.to_nat (width / 3) + 2.

Definition sweep_ok (width : Z) : bool :=
  match face_points (sweep_bound width) (computeSPACING width) with
  | Some pts =>
      (Z.to_nat (width / 3) <=? length pts)%nat
      && (length pts <=? Z.to_nat (width / 3) + 1)%nat
  | None => false
  end.

Definition sweeps_ok (n : nat) : bool :=
  forallb (fun w => sweep_ok (Z.of_nat w)) (seq 1 n).

Lemma sweeps_ok_1000 : sweeps_ok 1000 = true.
Proof. vm_compute. reflexivity. Qed.

Lemma sweep_points_more_fuel (fuel extra : nat) (spacing v : float) (pts : list float) :
  sweep_points fuel spacing v = Some pts ->
  sweep_points (fuel + extra) spacing v = Some pts.
Proof.
  revert v pts. induction fuel as [|fuel IH]; intros v pts H; [discriminate H|].
  cbn [sweep_points Nat.add] in *.
  destruct (F32.leb v _); [|exact H].
  destruct (sweep_points fuel spacing _) as [pts'|] eqn:E; [|discriminate H].
  rewrite (IH _ _ E). exact H.
Qed.

Lemma sweeps_ok_forall (n : nat) :
  sweeps_ok n = true -> forall w : nat, In w (seq 1 n) -> sweep_ok (Z.of_nat w) = true.
Proof.
  unfold sweeps_ok. intros H w Hw.
  exact (proj1 (forallb_forall (fun w => sweep_ok (Z.of_nat w)) (seq 1 n)) H w Hw).
Qed.

Lemma sweep_ok_width (width : Z) : 1 <= width <= 1000 -> sweep_ok width = true.
Proof.
  intros Hw.
  pose proof (sweeps_ok_forall 1000 sweeps_ok_1000 (Z.to_nat width)) as H.
  rewrite Z2Nat.id in H by lia. apply H. apply in_seq. lia.
Qed.

Lemma sweep_ok_points (width : Z) :
  1 <= width <= 1000 ->
  exists pts,
    face_points (sweep_bound width) (computeSPACING width) = Some pts
    /\ (Z.to_nat (width / 3) <= length pts <= Z.to_nat (width / 3) + 1)%nat.
Proof.
  intros Hw. pose proof (sweep_ok_width width Hw) as H. unfold sweep_ok in H.
  destruct (face_points (sweep_bound width) (computeSPACING width)) as [pts|];
    [|discriminate H].
  apply andb_prop in H as [H1 H2]. apply Nat.leb_le in H1, H2.
  exists pts. split; [reflexivity|]. lia.
Qed.

(** The float-counted loops end.  In every reachable state on a terminal
    of at most 1000 columns, [WIDTH/3 + 2] iterations suffice for each face
    loop: [renderFrame] returns, and each loop visits [WIDTH/3] or
    [WIDTH/3 + 1] values (the accumulated rounding of [v += SPACING]
    decides whether the far edge [CUBE_SIZE/2] is still reached). *)
Theorem renderFrame_terminates (c : Core) (t : TrigCache) (fuel : nat) :
  reachable c ->
  WIDTH (globals c) <= 1000 ->
  (sweep_bound (WIDTH (globals c)) <= fuel)%nat ->
  exists c' out pts,
    renderFrame fuel c t = Some (c', out)
    /\ face_points fuel (SPACING (globals c)) = Some pts
    /\ (Z.to_nat (WIDTH (globals c) / 3) <= length pts
        <= Z.to_nat (WIDTH (globals c) / 3) + 1)%nat.
Proof.
  intros Hr Hmax Hfuel.
  destruct (reachable_derived_constants c Hr) as (Hw & _ & _ & HS).
  destruct (sweep_ok_points (WIDTH (globals c)) ltac:(lia)) as (pts & EP & Hlen).
  rewrite <- HS in EP.
  assert (EP' : face_points fuel (SPACING (globals c)) = Some pts).
  { replace fuel with (sweep_bound (WIDTH (globals c)) + (fuel - sweep_bound (WIDTH (globals c))))%nat
      by lia.
    apply sweep_points_more_fuel. exact EP. }
  rewrite renderFrame_calls_eq, EP'.
  eexists _, _, pts. split; [reflexivity|]. split; [reflexivity|]. exact Hlen.
Qed.

(** The initial 50 x 25 state: 18 iterations suffice. *)
Lemma renderFrame_terminates_witness :
  exists c' out, renderFrame 18 initial trig_zero = Some (c', out).
Proof.
  destruct (renderFrame_terminates initial trig_zero 18%nat reach_initial)
    as (c' & out & _ & H & _); [vm_compute; discriminate|vm_compute; lia|].
  exists c', out. exact H.
Defined.

(** ** The magnitude is never negative *)

(** A float that is not below zero and is not the negative zero: a NaN, or
    a zero, an infinity or a finite number with a clear sign bit. *)
Definition not_negative (f : float) : Prop :=
  match f with
  | S754_nan => True
  | S754_zero s | S754_infinity s | S754_finite s _ _ => s = false
  end.

Lemma round_not_negative (prec emax m e : Z) (l : location) :
  not_negative (binary_round_aux prec emax false m e l).
Proof.
  unfold binary_round_aux.
  destruct (shr_fexp prec emax m e l) as [mrs' e'].
  destruct (shr_fexp prec emax _ e' loc_Exact) as [mrs'' e''].
  destruct (shr_m mrs''); [reflexivity| |exact I].
  destruct (e'' <=? emax - prec); reflexivity.
Qed.

Lemma square_not_negative (x : float) : not_negative (x * x)%f32.
Proof.
  unfold F32.mul, SFmul. destruct x as [s|s| |s m e]; cbn.
  - apply xorb_nilpotent.
  - apply xorb_nilpotent.
  - exact I.
  - rewrite xorb_nilpotent. apply round_not_negative.
Qed.

Lemma sum_not_negative (x y : float) :
  not_negative x -> not_negative y -> not_negative (x + y)%f32.
Proof.
  unfold F32.add, SFadd.
  destruct x as [sx|sx| |sx mx ex], y as [sy|sy| |sy my ey]; cbn;
    intros Hx Hy; subst; try exact I; try reflexivity.
  unfold binary_normalize.
  destruct (_ + _) as [|p|p] eqn:E; [reflexivity| |cbn in E; lia].
  unfold binary_round. destruct (shl_align p _ _). apply round_not_negative.
Qed.

Lemma sqrt_not_negative (x : float) : not_negative x -> not_negative (F32.sqrt x).
Proof.
  unfold F32.sqrt, SFsqrt. destruct x as [s|s| |s m e]; cbn; intros Hx; subst;
    try exact I; try reflexivity.
  destruct (SFsqrt_core_binary _ _ _ _) as [[mz ez] lz]. apply round_not_negative.
Qed.

Lemma getVectorMag_float (v : Vector3f) :
  getVectorMag v = F32.sqrt (vx v * vx v + vy v * vy v + vz v * vz v)%f32.
Proof. reflexivity. Qed.

(** The magnitude of a vector is never negative and never the negative
    zero, whatever the components are (infinities and NaNs included): it is
    a NaN, [+0], [+inf] or a positive finite number.  So [mag < 0] never
    holds, the reciprocal [1 / mag] of [normVector] is never [-inf], and the
    guard [mag > 0] of [normVector] fails exactly when the magnitude is [+0]
    or a NaN; the vector is then left as it is. *)
Theorem getVectorMag_not_negative (v : Vector3f) :
  not_negative (getVectorMag v)
  /\ F32.ltb (getVectorMag v) F32.zero = false
  /\ (F32.of_int 1 / getVectorMag v)%f32 <> S754_infinity true
  /\ (F32.gtb (getVectorMag v) F32.zero = false
      <-> getVectorMag v = F32.zero \/ getVectorMag v = S754_nan)
  /\ (getVectorMag v = F32.zero \/ getVectorMag v = S754_nan -> normVector v = v).
Proof.
  assert (H : not_negative (getVectorMag v)).
  { rewrite getVectorMag_float.
    apply sqrt_not_negative, sum_not_negative; [apply sum_not_negative|];
      apply square_not_negative. }
  assert (Hg : F32.gtb (getVectorMag v) F32.zero = false
               <-> getVectorMag v = F32.zero \/ getVectorMag v = S754_nan).
  { destruct (getVectorMag v) as [s|s| |s m e]; cbn in H; subst; cbn;
      split; intros H'; try discriminate H'; auto;
      destruct H' as [H'|H']; discriminate H'. }
  split; [exact H|]. split; [|split; [|split; [exact Hg|]]].
  - destruct (getVectorMag v) as [s|s| |s m e]; cbn in H; subst; reflexivity.
  - destruct (getVectorMag v) as [s|s| |s m e]; cbn in H; subst;
      try discriminate.
    set (one := F32.of_int 1). vm_compute in one. subst one.
    unfold F32.div, SFdiv. cbv beta iota.
    match goal with
    | |- context [SFdiv_core_binary ?p ?em ?a ?b ?c ?d] =>
        destruct (SFdiv_core_binary p em a b c d) as [[mz ez] lz]
    end.
    cbn [xorb]. intros E. pose proof (round_not_negative F32.prec F32.emax mz ez lz) as Hn.
    rewrite E in Hn. discriminate Hn.
  - intros H'. apply normVector_float_guard. apply Hg, H'.
Qed.

(** ** Opposite faces *)

(** Two floats that are each other's negation, the sign of a zero left
    aside. *)
Definition mirror (a b : float) : Prop :=
  match a, b with
  | S754_zero _, S754_zero _ => True
  | _, _ => b = (- a)%f32
  end.

Definition mirror3 (a b : Vector3f) : Prop :=
  mirror (vx a) (vx b) /\ mirror (vy a) (vy b) /\ mirror (vz a) (vz b).

Definition is_zero (f : float) : bool :=
  match f with S754_zero _ => true | _ => false end.

Lemma mirror_opp (a : float) : mirror a (- a)%f32.
Proof. destruct a; cbn; trivial. Qed.

Lemma mirror_cases (a b : float) :
  mirror a b -> (is_zero a = true /\ is_zero b = true) \/ b = (- a)%f32.
Proof. destruct a, b; cbn; auto. Qed.

Lemma round_aux_opp (prec emax : Z) (s : bool) (m e : Z) (l : location) :
  binary_round_aux prec emax (negb s) m e l = SFopp (binary_round_aux prec emax s m e l).
Proof.
  unfold binary_round_aux.
  destruct (shr_fexp prec emax m e l) as [mrs' e'].
  destruct (shr_fexp prec emax _ e' loc_Exact) as [mrs'' e''].
  destruct (shr_m mrs''); [reflexivity| |reflexivity].
  destruct (e'' <=? emax - prec); reflexivity.
Qed.

Lemma mul_opp_r (a b : float) : (a * - b)%f32 = (- (a * b))%f32.
Proof.
  unfold F32.mul, F32.opp, SFmul.
  destruct a as [[]|[]| |[] ma ea], b as [[]|[]| |[] mb eb]; cbn [xorb negb SFopp];
    try reflexivity;
    first [apply (round_aux_opp _ _ false) | apply (round_aux_opp _ _ true)].
Qed.

Lemma mul_opp_l (a b : float) : (- a * b)%f32 = (- (a * b))%f32.
Proof.
  unfold F32.mul, F32.opp, SFmul.
  destruct a as [[]|[]| |[] ma ea], b as [[]|[]| |[] mb eb]; cbn [xorb negb SFopp];
    try reflexivity;
    first [apply (round_aux_opp _ _ false) | apply (round_aux_opp _ _ true)].
Qed.

Lemma mul_zero_l (a c : float) :
  is_zero a = true -> is_zero (a * c)%f32 = true \/ (a * c)%f32 = S754_nan.
Proof. destruct a, c; cbn; auto; discriminate. Qed.

Lemma mul_zero_r (a c : float) :
  is_zero a = true -> is_zero (c * a)%f32 = true \/ (c * a)%f32 = S754_nan.
Proof. destruct a, c; cbn; auto; discriminate. Qed.

Lemma mul_zero_nan_l (a b c : float) :
  is_zero a = true -> is_zero b = true ->
  (a * c)%f32 = S754_nan -> (b * c)%f32 = S754_nan.
Proof. destruct a, b, c; cbn; auto; discriminate. Qed.

Lemma mul_zero_nan_r (a b c : float) :
  is_zero a = true -> is_zero b = true ->
  (c * a)%f32 = S754_nan -> (c * b)%f32 = S754_nan.
Proof. destruct a, b, c; cbn; auto; discriminate. Qed.

Lemma mirror_zeros (a b : float) : is_zero a = true -> is_zero b = true -> mirror a b.
Proof. destruct a, b; cbn; trivial; discriminate. Qed.

Lemma mirror_mul_r (x y c : float) : mirror x y -> mirror (x * c)%f32 (y * c)%f32.
Proof.
  intros H. destruct (mirror_cases _ _ H) as [[Hx Hy]| ->].
  - destruct (mul_zero_l x c Hx) as [Zx|Nx].
    + destruct (mul_zero_l y c Hy) as [Zy|Ny]; [apply mirror_zeros; assumption|].
      rewrite (mul_zero_nan_l y x c Hy Hx Ny) in Zx. discriminate Zx.
    + rewrite (mul_zero_nan_l x y c Hx Hy Nx), Nx. reflexivity.
  - rewrite mul_opp_l. apply mirror_opp.
Qed.

Lemma mirror_mul_l (x y c : float) : mirror x y -> mirror (c * x)%f32 (c * y)%f32.
Proof.
  intros H. destruct (mirror_cases _ _ H) as [[Hx Hy]| ->].
  - destruct (mul_zero_r x c Hx) as [Zx|Nx].
    + destruct (mul_zero_r y c Hy) as [Zy|Ny]; [apply mirror_zeros; assumption|].
      rewrite (mul_zero_nan_r y x c Hy Hx Ny) in Zx. discriminate Zx.
    + rewrite (mul_zero_nan_r x y c Hx Hy Nx), Nx. reflexivity.
  - rewrite mul_opp_r. apply mirror_opp.
Qed.

Lemma mirror_opp_congr (x y : float) : mirror x y -> mirror (- x)%f32 (- y)%f32.
Proof.
  intros H. destruct (mirror_cases _ _ H) as [[Hx Hy]| ->].
  - destruct x, y; try discriminate; exact I.
  - apply mirror_opp.
Qed.

Lemma mirror_square (x y : float) : mirror x y -> (x * x)%f32 = (y * y)%f32.
Proof.
  intros H. destruct (mirror_cases _ _ H) as [[Hx Hy]| ->].
  - destruct x as [[]| | |], y as [[]| | |]; try discriminate; reflexivity.
  - rewrite mul_opp_l, mul_opp_r, opp_involutive. reflexivity.
Qed.

Lemma binary_round_opp (prec emax : Z) (m : positive) (e : Z) :
  binary_round prec emax true m e = SFopp (binary_round prec emax false m e).
Proof.
  unfold binary_round. destruct (shl_align m e _) as [mz ez].
  apply (round_aux_opp prec emax false).
Qed.

Lemma binary_normalize_opp (prec emax m e : Z) :
  mirror (binary_normalize prec emax m e false) (binary_normalize prec emax (- m) e false).
Proof.
  destruct m as [|p|p]; unfold binary_normalize;
    [|change (- Z.pos p) with (Z.neg p)|change (- Z.neg p) with (Z.pos p)]; cbv iota.
  - exact I.
  - rewrite binary_round_opp. apply mirror_opp.
  - rewrite binary_round_opp.
    destruct (binary_round prec emax false p e) as [[]|[]| |[] m' e']; cbn; trivial.
Qed.

Lemma add_opp (a b : float) : mirror (a + b)%f32 (- a + - b)%f32.
Proof.
  unfold F32.add, F32.opp, SFadd.
  destruct a as [[]|[]| |sa ma ea], b as [[]|[]| |sb mb eb]; cbn [SFopp negb];
    try exact I; try reflexivity;
    try (cbn; rewrite ?negb_involutive; reflexivity).
  match goal with
  | |- mirror (binary_normalize _ _ ?z _ _) (binary_normalize _ _ ?z' _ _) =>
      replace z' with (- z) by (destruct sa, sb; cbn [cond_Zopp negb]; lia)
  end.
  apply binary_normalize_opp.
Qed.

Lemma add_zero_l (a b : float) : is_zero a = true -> is_zero b = false -> (a + b)%f32 = b.
Proof. destruct a, b; cbn; auto; discriminate. Qed.

Lemma add_zero_r (a b : float) : is_zero a = true -> is_zero b = false -> (b + a)%f32 = b.
Proof. destruct a, b; cbn; auto; discriminate. Qed.

Lemma add_zeros (a b : float) :
  is_zero a = true -> is_zero b = true -> is_zero (a + b)%f32 = true.
Proof. destruct a as [[]| | |], b as [[]| | |]; cbn; intros; try discriminate; reflexivity. Qed.

Lemma is_zero_opp (a : float) : is_zero (- a)%f32 = is_zero a.
Proof. destruct a; reflexivity. Qed.

Lemma mirror_add (a b a' b' : float) :
  mirror a b -> mirror a' b' -> mirror (a + a')%f32 (b + b')%f32.
Proof.
  intros H H'.
  destruct (mirror_cases _ _ H) as [[Ha Hb]| ->];
    destruct (mirror_cases _ _ H') as [[Ha' Hb']| ->].
  - apply mirror_zeros; apply add_zeros; assumption.
  - destruct (is_zero a') eqn:Z.
    + apply mirror_zeros; apply add_zeros; rewrite ?is_zero_opp; assumption.
    + rewrite (add_zero_l a a'), (add_zero_l b (- a')%f32)
        by (rewrite ?is_zero_opp; assumption).
      apply mirror_opp.
  - destruct (is_zero a) eqn:Z.
    + apply mirror_zeros; apply add_zeros; rewrite ?is_zero_opp; assumption.
    + rewrite (add_zero_r a' a), (add_zero_r b' (- a)%f32)
        by (rewrite ?is_zero_opp; assumption).
      apply mirror_opp.
  - apply add_opp.
Qed.

Ltac mirror_step :=
  first [ assumption
        | apply mirror_add
        | apply mirror_mul_l
        | apply mirror_mul_r
        | apply mirror_opp_congr ].

Lemma rotate_mirror (t : TrigCache) (v v' : Vector3f) :
  mirror3 v v' -> mirror3 (rotate t v) (rotate t v').
Proof.
  intros (Hx & Hy & Hz). unfold mirror3, rotate. cbn [vx vy vz].
  repeat split; repeat mirror_step.
Qed.

Lemma getVectorMag_mirror (v v' : Vector3f) :
  mirror3 v v' -> getVectorMag v = getVectorMag v'.
Proof.
  intros (Hx & Hy & Hz). rewrite !getVectorMag_float.
  rewrite (mirror_square _ _ Hx), (mirror_square _ _ Hy), (mirror_square _ _ Hz).
  reflexivity.
Qed.

Lemma normVector_mirror (v v' : Vector3f) :
  mirror3 v v' -> mirror3 (normVector v) (normVector v').
Proof.
  intros H. pose proof (getVectorMag_mirror v v' H) as E.
  destruct (F32.gtb (getVectorMag v) F32.zero) eqn:G.
  - rewrite (normVector_float_scaled v G).
    rewrite E in G. rewrite (normVector_float_scaled v' G), E.
    destruct H as (Hx & Hy & Hz). unfold mirror3. cbn [vx vy vz].
    repeat split; repeat mirror_step.
  - rewrite (normVector_float_guard v G).
    rewrite E in G. rewrite (normVector_float_guard v' G). exact H.
Qed.

Lemma dot_mirror (a b l : Vector3f) : mirror3 a b -> mirror (dot a l) (dot b l).
Proof.
  intros (Hx & Hy & Hz). unfold dot. repeat mirror_step.
Qed.

Lemma luminance_mirror (g : Globals) (t : TrigCache) (n n' : Vector3f) :
  mirror3 n n' -> mirror (luminance_of g t n) (luminance_of g t n').
Proof.
  intros H. unfold luminance_of. apply dot_mirror, normVector_mirror, rotate_mirror, H.
Qed.

Lemma mirror_not_both_positive (a b : float) :
  mirror a b -> F32.gtb a F32.zero = true -> F32.gtb b F32.zero = false.
Proof.
  destruct a as [sa|[]| |[] ma ea], b as [sb|sb| |sb mb eb]; cbn;
    intros H G; try discriminate G; try discriminate H; try reflexivity;
    inversion H; reflexivity.
Qed.

(** The pairs of surface normals of the three rasterisers. *)
Definition face_normals : list (Vector3f * Vector3f) :=
  [ (mkVector3f F32.zero F32.zero CUBE_SIZE, mkVector3f F32.zero F32.zero (- CUBE_SIZE)%f32);
    (mkVector3f F32.zero CUBE_SIZE F32.zero, mkVector3f F32.zero (- CUBE_SIZE)%f32 F32.zero);
    (mkVector3f CUBE_SIZE F32.zero F32.zero, mkVector3f (- CUBE_SIZE)%f32 F32.zero F32.zero) ].

(** Of two opposite faces at most one is lit.  For each of the three pairs
    of surface normals, whatever the trigonometric values and the light
    are, the luminance of the back face is the negation of the luminance
    of the front face (the sign of a zero aside): the rounding of every
    product, sum and quotient on the way is symmetric, and the magnitudes
    of the two rotated normals are the same float.  So the two luminances
    are never both above zero, and at least one face of each pair is drawn
    with the faintest glyph only. *)
Theorem opposite_faces_luminance (g : Globals) (t : TrigCache) (front back : Vector3f) :
  In (front, back) face_normals ->
  mirror (luminance_of g t front) (luminance_of g t back)
  /\ (F32.gtb (luminance_of g t front) F32.zero = true ->
      F32.gtb (luminance_of g t back) F32.zero = false)
  /\ (ramp_at (glyph_index (luminance_of g t front)) = "."%char
      \/ ramp_at (glyph_index (luminance_of g t back)) = "."%char).
Proof.
  intros Hin.
  assert (Hm : mirror3 front back).
  { cbn in Hin. destruct Hin as [E|[E|[E|[]]]]; inversion E; subst;
      unfold mirror3; cbn [vx vy vz]; repeat split; try exact I; apply mirror_opp. }
  pose proof (luminance_mirror g t front back Hm) as HL.
  split; [exact HL|]. split; [apply mirror_not_both_positive, HL|].
  unfold glyph_index.
  destruct (F32.gtb (luminance_of g t front) F32.zero) eqn:G.
  - right. rewrite (mirror_not_both_positive _ _ HL G). reflexivity.
  - left. reflexivity.
Qed.

Lemma opposite_faces_luminance_witness :
  mirror (luminance_of (globals initial) trig_zero (mkVector3f F32.zero F32.zero CUBE_SIZE))
         (luminance_of (globals initial) trig_zero
            (mkVector3f F32.zero F32.zero (- CUBE_SIZE)%f32))
  /\ F32.gtb (luminance_of (globals initial) trig_zero
                (mkVector3f F32.zero F32.zero (- CUBE_SIZE)%f32)) F32.zero = true.
Proof.
  split; [|vm_compute; reflexivity].
  apply (opposite_faces_luminance (globals initial) trig_zero
           (mkVector3f F32.zero F32.zero CUBE_SIZE)
           (mkVector3f F32.zero F32.zero (- CUBE_SIZE)%f32)).
  left. reflexivity.
Defined.

(** * Claims resting on the rounding analysis *)

(** ** C10: stored depths within a frame *)

(** The depth [z] of line 179: the rotated depth of the point translated
    by [K2], the distance of the cube from the camera. *)
Definition translated_z (i j k : float) (t : TrigCache) : float :=
  (- j * sinB t + i * cosB t * sinC t + k * cosB t * cosC t + K2)%f32.

Lemma iter_shr_1_nonneg (k : nat) (r : shr_record) :
  0 <= shr_m r -> 0 <= shr_m (Nat.iter k shr_1 r).
Proof.
  intros Hr. induction k as [|k IH]; [exact Hr|].
  rewrite Nat.iter_succ. destruct (Nat.iter k shr_1 r) as [m rb sb].
  cbn [shr_m] in IH. rewrite shr_1_nonneg by exact IH. cbn [shr_m].
  apply Z.div_pos; lia.
Qed.

Lemma shr_fexp_nonneg (prec emax m e : Z) (l : location) :
  0 <= m -> 0 <= shr_m (fst (shr_fexp prec emax m e l)).
Proof.
  intros Hm. unfold shr_fexp, shr.
  assert (H0 : 0 <= shr_m (shr_record_of_loc m l)) by (destruct l as [|[]]; exact Hm).
  destruct (fexp prec emax (Zdigits2 m + e) - e) as [|p|p]; cbn [fst]; try exact H0.
  rewrite iter_pos_nat. apply iter_shr_1_nonneg, H0.
Qed.

Lemma round_nearest_even_nonneg (m : Z) (l : location) :
  0 <= m -> 0 <= round_nearest_even m l.
Proof.
  intros Hm. unfold round_nearest_even. destruct l as [|[]]; try lia.
  destruct (Z.even m); lia.
Qed.

(** Rounding a mantissa that is not negative gives no NaN, and a result of
    the sign asked for. *)
Lemma round_aux_signed (prec emax : Z) (s : bool) (m e : Z) (l : location) :
  0 <= m ->
  match binary_round_aux prec emax s m e l with
  | S754_nan => False
  | S754_zero s' | S754_infinity s' | S754_finite s' _ _ => s' = s
  end.
Proof.
  intros Hm. unfold binary_round_aux.
  pose proof (shr_fexp_nonneg prec emax m e l Hm) as H1.
  destruct (shr_fexp prec emax m e l) as [mrs' e']. cbn [fst] in H1.
  pose proof (round_nearest_even_nonneg _ (loc_of_shr_record mrs') H1) as H2.
  pose proof (shr_fexp_nonneg prec emax _ e' loc_Exact H2) as H3.
  destruct (shr_fexp prec emax _ e' loc_Exact) as [mrs'' e'']. cbn [fst] in H3.
  destruct (shr_m mrs'') as [|p|p]; [reflexivity| |lia].
  destruct (e'' <=? emax - prec); reflexivity.
Qed.

Lemma div_core_nonneg (prec emax : Z) (m1 : positive) (e1 : Z) (m2 : positive) (e2 : Z) :
  0 <= fst (fst (SFdiv_core_binary prec emax (Zpos m1) e1 (Zpos m2) e2)).
Proof.
  unfold SFdiv_core_binary.
  set (s := _ - _ - _).
  set (m' := match s with Z.pos _ => Z.shiftl (Z.pos m1) s | 0 => Z.pos m1 | Z.neg _ => 0 end).
  assert (Hm' : 0 <= m').
  { unfold m'. destruct s; try lia. apply Z.shiftl_nonneg. lia. }
  destruct (Z.div_eucl m' (Z.pos m2)) as [q r] eqn:E. cbn [fst].
  replace q with (m' / Z.pos m2) by (unfold Z.div; rewrite E; reflexivity).
  apply Z.div_pos; lia.
Qed.

Lemma one_eq : F32.of_int 1 = S754_finite false 8388608 (-23).
Proof. vm_compute. reflexivity. Qed.

(** The reciprocal of a depth below zero is at most zero. *)
Lemma reciprocal_of_negative (z : float) :
  F32.ltb z F32.zero = true -> F32.leb (F32.of_int 1 / z)%f32 F32.zero = true.
Proof.
  intros Hz. rewrite one_eq.
  destruct z as [s|[]| |[] m e]; try discriminate Hz; try reflexivity.
  unfold F32.div, SFdiv. cbv beta iota. cbn [xorb].
  pose proof (div_core_nonneg F32.prec F32.emax 8388608 (-23) m e) as Hq.
  destruct (SFdiv_core_binary _ _ _ _ _ _) as [[mz ez] lz]. cbn [fst] in Hq.
  pose proof (round_aux_signed F32.prec F32.emax true mz ez lz Hq) as Hs.
  destruct (binary_round_aux _ _ _ _ _ _) as [s'|s'| |s' m' e'];
    try contradiction; subst; reflexivity.
Qed.

Lemma reciprocal_of_zero : (F32.of_int 1 / F32.zero)%f32 = S754_infinity false.
Proof. reflexivity. Qed.

(** The 3 x 3 terminal after its first resize. *)
Definition core3 : Core := fst (updateDim (mkDim2i 3 3) initial).

(** Against C10 as stated: the point [(0, 0, -10)] at rotation zero lies
    on the camera plane, [z + K2 = 0].  Its inverse depth is [+inf], not
    at most 0, and the call on the cleared 3 x 3 frame writes it to cell 0
    (both cell coordinates are the conversion of a NaN). *)
Lemma camera_plane_counterexample :
  let g := globals core3 in
  let b := clearFrame (bufs core3) in
  let k := F32.of_int (-10) in
  translated_z F32.zero F32.zero k trig_zero = F32.zero
  /\ F32.leb (translated_z F32.zero F32.zero k trig_zero) F32.zero = true
  /\ p_ooz (project g F32.zero F32.zero k trig_zero) = S754_infinity false
  /\ F32.leb (p_ooz (project g F32.zero F32.zero k trig_zero)) F32.zero = false
  /\ cell b 0 = Some (" "%char, ANSI_escape_code.color.RESET, F32.zero)
  /\ cell (updateBuffers g F32.zero F32.zero k trig_zero b ANSI_escape_code.color.RED CUBE_SIZE) 0
     = Some ("@"%char, ANSI_escape_code.color.RED, S754_infinity false).
Proof. vm_compute. repeat split; reflexivity. Qed.

(** C10, as the code has it.  Within a frame the depth buffer starts as
    all zeros; every call of [updateBuffers] keeps all stored depths at or
    above 0, never lowers the depth stored in any cell, and leaves the
    buffers untouched when the inverse depth [ooz] of its point is at most
    0; the depths stored when [renderFrame] returns are all at or above 0.
    The inverse depth is the reciprocal of the translated depth [z + K2]:
    it is at most 0 for every point strictly behind the camera plane
    ([z + K2 < 0]), which is therefore never written; for a point on the
    camera plane ([z + K2 = 0]) it is [+inf], which is above every finite
    stored depth. *)
Theorem depth_buffer_invariant :
  (forall b, depths_nonneg (clearFrame b))
  /\ (forall g i j k t b co lum,
        depths_nonneg b ->
        depths_nonneg (updateBuffers g i j k t b co lum)
        /\ (forall n d, zbuffer b !! n = Some d ->
              exists d', zbuffer (updateBuffers g i j k t b co lum) !! n = Some d'
                         /\ F32.leb d d' = true)
        /\ (F32.leb (p_ooz (project g i j k t)) F32.zero = true ->
              updateBuffers g i j k t b co lum = b))
  /\ (forall fuel c t c' out,
        renderFrame fuel c t = Some (c', out) -> depths_nonneg (bufs c'))
  /\ (forall g i j k t,
        p_ooz (project g i j k t) = (F32.of_int 1 / translated_z i j k t)%f32)
  /\ (forall g i j k t b co lum,
        F32.ltb (translated_z i j k t) F32.zero = true ->
        depths_nonneg b ->
        F32.leb (p_ooz (project g i j k t)) F32.zero = true
        /\ updateBuffers g i j k t b co lum = b)
  /\ (forall g i j k t,
        translated_z i j k t = F32.zero ->
        p_ooz (project g i j k t) = S754_infinity false
        /\ forall s m e, F32.gtb (p_ooz (project g i j k t)) (S754_finite s m e) = true).
Proof.
  split; [exact depths_nonneg_clearFrame|].
  split; [intros; apply updateBuffers_depths; assumption|].
  split; [exact renderFrame_depths|].
  split; [reflexivity|].
  split.
  - intros g i j k t b co lum Hz Hb.
    assert (Ho : F32.leb (p_ooz (project g i j k t)) F32.zero = true)
      by (apply (reciprocal_of_negative (translated_z i j k t)), Hz).
    split; [exact Ho|]. apply updateBuffers_depths; assumption.
  - intros g i j k t Hz.
    assert (Ho : p_ooz (project g i j k t) = S754_infinity false).
    { change (p_ooz (project g i j k t)) with (F32.of_int 1 / translated_z i j k t)%f32.
      rewrite Hz. reflexivity. }
    split; [exact Ho|]. intros s m e. rewrite Ho. destruct s; reflexivity.
Qed.

(** A call behind the camera on the 4 x 4 terminal: the point
    [(0, 0, -20)] has [z + K2 = -10], so its inverse depth is negative. *)
Lemma depth_buffer_invariant_witness :
  let g := globals core4 in
  let b := clearFrame (bufs core4) in
  let k := F32.of_int (-20) in
  (depths_nonneg b
   /\ F32.ltb (translated_z F32.zero F32.zero k trig_zero) F32.zero = true
   /\ 0 <= p_index (project g F32.zero F32.zero k trig_zero) < 16)
  /\ updateBuffers g F32.zero F32.zero k trig_zero b ANSI_escape_code.color.RED CUBE_SIZE = b
  /\ match renderFrame 3 core4 trig_zero with
     | Some (c', _) => depths_nonneg (bufs c')
     | None => False
     end.
Proof.
  intros g b k.
  destruct depth_buffer_invariant as (Hclear & _ & Hframe & _ & Hbehind & _).
  split; [split; [apply Hclear | split; [vm_compute; reflexivity | vm_compute; split; [discriminate | reflexivity]]]|].
  split.
  - apply (Hbehind g F32.zero F32.zero k trig_zero b ANSI_escape_code.color.RED CUBE_SIZE).
    + vm_compute. reflexivity.
    + apply Hclear.
  - destruct (renderFrame 3 core4 trig_zero) as [[c' out]|] eqn:E.
    + exact (Hframe 3%nat core4 trig_zero c' out E).
    + vm_compute in E. discriminate.
Defined.

(** ** C5: the magnitude after normalisation *)

(** *** The value of a float *)











(** *** One rounding *)

(** The relative error of one rounding to 24 bits is at most [2^-23]
    (half of that for a correct rounding; this bound needs no case
    analysis on the bits that are shifted out). *)
Definition eta : R := (/ 8388608)%R.

(** [a] and [b] are within [k] roundings of each other. *)
Definition near (k : nat) (a b : R) : Prop :=
  (b <= a * (1 + eta) ^ k /\ a <= b * (1 + eta) ^ k)%R.





(** *** The operations *)


















(** *** Chains of roundings *)

















(** *** The magnitude *)



(** *** Normalisation *)

(** The components the claim covers: a zero, or a normalised float of
    magnitude from [2^-30] to below [2^30]. *)
Definition in_range (f : float) : bool :=
  match f with
  | S754_zero _ => true
  | S754_finite _ m e =>
      (2 ^ 23 <=? Zpos m) && (Zpos m <? 2 ^ 24) && (-53 <=? e) && (e <=? 6)
  | _ => false
  end.















